(** * Slinky builder: a shallow embedding of the expression nodes, the
      node context, the interval operators, the printer of expressions and
      the builder passes (bounds inference, slide-and-fold, input crop
      removal, buffer aliasing, scope reduction).

    Every definition names the source function it embeds.  Functions whose
    source is not part of the tree are either taken as section variables or
    modelled from the specification, and say so. *)

From Stdlib Require Import ZArith List Bool Arith Lia String Sorted DecimalString.
Import ListNotations.

Set Implicit Arguments.

(* ===================================================================== *)
(** * src/src/expr.h : node tags and the checked down-cast [as<T>()]      *)
(* ===================================================================== *)

Module ExprH.

Definition symbol_id := nat.
Definition index_t := Z.

(** [enum class node_type]. *)
Module node_type.
Inductive t : Set :=
  | variable | constant | let_
  | add | sub | mul | div | mod_ | min | max
  | equal | not_equal | less | less_equal
  | bitwise_and | bitwise_or | bitwise_xor
  | logical_and | logical_or.

Definition eq_dec (a b : t) : {a = b} + {a <> b}.
Proof. decide equality. Defined.

Definition eqb (a b : t) : bool := if eq_dec a b then true else false.

End node_type.

(** The sixteen classes produced by [DECLARE_BINARY_OP(op)]. *)
Inductive binary_op : Set :=
| add | sub | mul | div | mod_ | min | max
| equal | not_equal | less | less_equal
| bitwise_and | bitwise_or | bitwise_xor
| logical_and | logical_or.

(** The node classes of expr.h: [variable], [constant], [let] and the
    binary operators. *)
Inductive node_class : Set :=
| class_variable
| class_constant
| class_let
| class_binary (op : binary_op).

Definition node_class_eq_dec (a b : node_class) : {a = b} + {a <> b}.
Proof. repeat decide equality. Defined.

(** Expression nodes ([class variable], [class constant], [class let] and
    [class op { expr a, b; }]). *)
Inductive expr : Set :=
| variable (name : symbol_id)
| constant (value : index_t)
| let_ (name : symbol_id) (value body : expr)
| binary (op : binary_op) (a b : expr).

(** The dynamic class of a node, i.e. which [T::make] built it. *)
Definition class_of (n : expr) : node_class :=
  match n with
  | variable _ => class_variable
  | constant _ => class_constant
  | let_ _ _ _ => class_let
  | binary op _ _ => class_binary op
  end.

(** [static constexpr node_type static_type = node_type::op;] inside
    [DECLARE_BINARY_OP(op)]. *)
Definition binary_static_type (op : binary_op) : node_type.t :=
  match op with
  | add => node_type.add | sub => node_type.sub | mul => node_type.mul
  | div => node_type.div | mod_ => node_type.mod_
  | min => node_type.min | max => node_type.max
  | equal => node_type.equal | not_equal => node_type.not_equal
  | less => node_type.less | less_equal => node_type.less_equal
  | bitwise_and => node_type.bitwise_and
  | bitwise_or => node_type.bitwise_or
  | bitwise_xor => node_type.bitwise_xor
  | logical_and => node_type.logical_and
  | logical_or => node_type.logical_or
  end.

(** [T::static_type] for every class [T], as each class declares it.
    [class constant] declares [static_type = node_type::variable]. *)
Definition static_type (T : node_class) : node_type.t :=
  match T with
  | class_variable => node_type.variable
  | class_constant => node_type.variable
  | class_let => node_type.let_
  | class_binary op => binary_static_type op
  end.

(** [base_node::type], set by [expr_node<T>() : base_node(T::static_type)]. *)
Definition type (n : expr) : node_type.t := static_type (class_of n).

(** [base_node::as<T>()] / [expr::as<T>()]: the node itself when the tags
    agree, [nullptr] (here [None]) otherwise. *)
Definition as_ (T : node_class) (n : expr) : option expr :=
  if node_type.eqb (type n) (static_type T) then Some n else None.

(** Modelled from the spec: the value of an expression (section 3.2:
    integer semantics, floored [Div] and [Mod], comparisons and logical
    operators yielding 0 or 1).  The evaluator itself (evaluate.cc) is not
    part of the tree.  Division by zero has no value. *)
Definition of_bool (b : bool) : index_t := if b then 1%Z else 0%Z.

Definition eval_binary (op : binary_op) (x y : index_t) : option index_t :=
  match op with
  | add => Some (x + y)%Z
  | sub => Some (x - y)%Z
  | mul => Some (x * y)%Z
  | div => if (y =? 0)%Z then None else Some (x / y)%Z
  | mod_ => if (y =? 0)%Z then None else Some (x mod y)%Z
  | min => Some (Z.min x y)
  | max => Some (Z.max x y)
  | equal => Some (of_bool (x =? y)%Z)
  | not_equal => Some (of_bool (negb (x =? y)%Z))
  | less => Some (of_bool (x <? y)%Z)
  | less_equal => Some (of_bool (x <=? y)%Z)
  | bitwise_and => Some (Z.land x y)
  | bitwise_or => Some (Z.lor x y)
  | bitwise_xor => Some (Z.lxor x y)
  | logical_and => Some (of_bool (negb (x =? 0)%Z && negb (y =? 0)%Z))
  | logical_or => Some (of_bool (negb (x =? 0)%Z || negb (y =? 0)%Z))
  end.

Fixpoint eval (env : symbol_id -> index_t) (e : expr) : option index_t :=
  match e with
  | variable x => Some (env x)
  | constant c => Some c
  | let_ x v b =>
      match eval env v with
      | Some vv => eval (fun y => if Nat.eqb y x then vv else env y) b
      | None => None
      end
  | binary op a b =>
      match eval env a, eval env b with
      | Some x, Some y => eval_binary op x y
      | _, _ => None
      end
  end.

End ExprH.

(* ===================================================================== *)
(** * src/src/interval.h                                                  *)
(* ===================================================================== *)

Module Interval.
Import ExprH.

(** [struct interval { expr min, max; }]. *)
Record interval : Set := mk_interval { imin : expr; imax : expr }.

(** [slinky::min(a, b)] and [slinky::max(a, b)] build [min]/[max] nodes
    (expr.cc: [expr min(expr a, expr b) { return min::make(a, b); }]). *)
Definition slinky_min (a b : expr) : expr := binary min a b.
Definition slinky_max (a b : expr) : expr := binary max a b.

(** [interval::extent()]: [max - min + 1]. *)
Definition extent (i : interval) : expr :=
  binary add (binary sub (imax i) (imin i)) (constant 1%Z).

(** [interval::operator|=] (union). *)
Definition interval_or (l r : interval) : interval :=
  {| imin := slinky_min (imin l) (imin r);
     imax := slinky_max (imax l) (imax r) |}.

(** [interval::operator&=] ("This is intersection, just to be consistent
    with union"), body as written in interval.h. *)
Definition interval_and (l r : interval) : interval :=
  {| imin := slinky_min (imin l) (imin r);
     imax := slinky_max (imax l) (imax r) |}.

(** [using box = std::vector<interval>] with [operator|] and [operator&]
    applied dimension by dimension ([assert(a.size() == b.size())]). *)
Definition box := list interval.

Fixpoint box_and (a b : box) : option box :=
  match a, b with
  | [], [] => Some []
  | x :: a', y :: b' =>
      match box_and a' b' with
      | Some r => Some (interval_and x y :: r)
      | None => None
      end
  | _, _ => None
  end.

(** The interval the intersection is documented to be:
    [[max(a.min, b.min), min(a.max, b.max)]]. *)
Definition intersection_spec (l r : interval) : interval :=
  {| imin := slinky_max (imin l) (imin r);
     imax := slinky_min (imax l) (imax r) |}.

(** The set of points of an interval under an environment. *)
Definition contains (env : symbol_id -> index_t) (i : interval) (x : index_t) : Prop :=
  exists lo hi, eval env (imin i) = Some lo /\ eval env (imax i) = Some hi
                /\ (lo <= x <= hi)%Z.

Definition point (lo hi : Z) : interval :=
  {| imin := constant lo; imax := constant hi |}.

(** [interval::set_extent(expr extent)]: [max = min + extent - 1]. *)
Definition set_extent (i : interval) (e : expr) : interval :=
  {| imin := imin i;
     imax := binary sub (binary add (imin i) e) (constant 1%Z) |}.

(** [interval::operator*=], [operator/=], [operator+=] and [operator-=]:
    the operator applied to both ends. *)
Definition interval_mul (i : interval) (scale : expr) : interval :=
  {| imin := binary mul (imin i) scale; imax := binary mul (imax i) scale |}.
Definition interval_div (i : interval) (scale : expr) : interval :=
  {| imin := binary div (imin i) scale; imax := binary div (imax i) scale |}.
Definition interval_add (i : interval) (offset : expr) : interval :=
  {| imin := binary add (imin i) offset; imax := binary add (imax i) offset |}.
Definition interval_sub (i : interval) (offset : expr) : interval :=
  {| imin := binary sub (imin i) offset; imax := binary sub (imax i) offset |}.

(** [box operator|(box a, const box& b)]; [None] when
    [assert(a.size() == b.size())] fails. *)
Fixpoint box_or (a b : box) : option box :=
  match a, b with
  | [], [] => Some []
  | x :: a', y :: b' =>
      match box_or a' b' with
      | Some r => Some (interval_or x y :: r)
      | None => None
      end
  | _, _ => None
  end.

End Interval.
(* ===================================================================== *)
(** * The builder's IR: expressions, intervals, statements                *)
(* ===================================================================== *)

Module IR.

Definition symbol_id := nat.
Definition index_t := Z.

(** [enum class intrinsic], as print.cc enumerates it. *)
Module intrinsic.
Inductive t : Set :=
  | positive_infinity | negative_infinity | indeterminate | abs
  | buffer_rank | buffer_base | buffer_elem_size | buffer_size_bytes
  | buffer_min | buffer_max | buffer_stride | buffer_fold_factor
  | buffer_extent | buffer_at.

Definition eq_dec (a b : t) : {a = b} + {a <> b}.
Proof. decide equality. Defined.

Definition eqb (a b : t) : bool := if eq_dec a b then true else false.

End intrinsic.

(** The binary node kinds the passes and print.cc use. *)
Inductive binary_op : Set :=
| add | sub | mul | div | mod_ | min | max
| equal | not_equal | less | less_equal
| logical_and | logical_or.

Definition binary_op_eq_dec (a b : binary_op) : {a = b} + {a <> b}.
Proof. decide equality. Defined.

Definition binary_op_eqb (a b : binary_op) : bool :=
  if binary_op_eq_dec a b then true else false.

(** Modelled from the spec: the expression variants of section 3.2 (the
    node declarations the passes compile against are not part of the tree;
    print.cc visits exactly these kinds).  [expr_undef] is the null handle
    [expr()], for which [defined()] is false. *)
#[warnings="-register-all"]
Inductive expr : Set :=
| expr_undef
| variable (sym : symbol_id)
| wildcard (sym : symbol_id)
| constant (value : index_t)
| let_ (sym : symbol_id) (value body : expr)
| binary (op : binary_op) (a b : expr)
| logical_not (x : expr)
| select (condition true_value false_value : expr)
| call (fn : intrinsic.t) (args : list expr).

Definition defined (e : expr) : bool :=
  match e with expr_undef => false | _ => true end.

Section ExprInd.
Variable P : expr -> Prop.
Hypothesis H_undef : P expr_undef.
Hypothesis H_var : forall s, P (variable s).
Hypothesis H_wild : forall s, P (wildcard s).
Hypothesis H_const : forall c, P (constant c).
Hypothesis H_let : forall s v b, P v -> P b -> P (let_ s v b).
Hypothesis H_bin : forall op a b, P a -> P b -> P (binary op a b).
Hypothesis H_not : forall x, P x -> P (logical_not x).
Hypothesis H_sel : forall c t f, P c -> P t -> P f -> P (select c t f).
Hypothesis H_call : forall fn args, Forall P args -> P (call fn args).

Fixpoint expr_ind' (e : expr) : P e :=
    match e with
    | expr_undef => H_undef
    | variable s => H_var s
    | wildcard s => H_wild s
    | constant c => H_const c
    | let_ s v b => H_let s (expr_ind' v) (expr_ind' b)
    | binary op a b => H_bin op (expr_ind' a) (expr_ind' b)
    | logical_not x => H_not (expr_ind' x)
    | select c t f => H_sel (expr_ind' c) (expr_ind' t) (expr_ind' f)
    | call fn args =>
        H_call fn
          ((fix go (l : list expr) : Forall P l :=
              match l with
              | [] => Forall_nil P
              | x :: l' => Forall_cons x (expr_ind' x) (go l')
              end) args)
    end.
End ExprInd.

(** Structural equality of expression trees ([match] without wildcards,
    and the value comparison behind [same_as] when a pass rebuilds a node
    only if a child changed). *)
Fixpoint expr_eqb (a b : expr) {struct a} : bool :=
  match a, b with
  | expr_undef, expr_undef => true
  | variable x, variable y => Nat.eqb x y
  | wildcard x, wildcard y => Nat.eqb x y
  | constant x, constant y => Z.eqb x y
  | let_ x v1 b1, let_ y v2 b2 => Nat.eqb x y && expr_eqb v1 v2 && expr_eqb b1 b2
  | binary o1 a1 b1, binary o2 a2 b2 =>
      binary_op_eqb o1 o2 && expr_eqb a1 a2 && expr_eqb b1 b2
  | logical_not x, logical_not y => expr_eqb x y
  | select c1 t1 f1, select c2 t2 f2 =>
      expr_eqb c1 c2 && expr_eqb t1 t2 && expr_eqb f1 f2
  | call f xs, call g ys =>
      intrinsic.eqb f g &&
      (fix go (xs ys : list expr) {struct xs} : bool :=
         match xs, ys with
         | [], [] => true
         | x :: xs', y :: ys' => expr_eqb x y && go xs' ys'
         | _, _ => false
         end) xs ys
  | _, _ => false
  end.

(** Operators of expr.cc: [a <= b], [a >= b] (a swapped [less_equal]),
    [a > b] (a swapped [less]), [a && b], [a == b], [a + b], [a - b]. *)
Definition op_le (a b : expr) : expr := binary less_equal a b.
Definition op_ge (a b : expr) : expr := binary less_equal b a.
Definition op_lt (a b : expr) : expr := binary less a b.
Definition op_gt (a b : expr) : expr := binary less b a.
Definition op_and (a b : expr) : expr := binary logical_and a b.
Definition op_eq (a b : expr) : expr := binary equal a b.
Definition op_add (a b : expr) : expr := binary add a b.
Definition op_sub (a b : expr) : expr := binary sub a b.
Definition op_mul (a b : expr) : expr := binary mul a b.
Definition slinky_min (a b : expr) : expr := binary min a b.
Definition slinky_max (a b : expr) : expr := binary max a b.

(** The buffer metadata accessors [buffer_min(buf, d)] etc.: calls of the
    intrinsic on the buffer variable and the dimension index. *)
Definition dim_index (d : nat) : expr := constant (Z.of_nat d).
Definition buffer_min (buf : expr) (d : nat) : expr :=
  call intrinsic.buffer_min [buf; dim_index d].
Definition buffer_max (buf : expr) (d : nat) : expr :=
  call intrinsic.buffer_max [buf; dim_index d].
Definition buffer_stride (buf : expr) (d : nat) : expr :=
  call intrinsic.buffer_stride [buf; dim_index d].
Definition buffer_extent (buf : expr) (d : nat) : expr :=
  call intrinsic.buffer_extent [buf; dim_index d].
Definition buffer_fold_factor (buf : expr) (d : nat) : expr :=
  call intrinsic.buffer_fold_factor [buf; dim_index d].
Definition positive_infinity : expr := call intrinsic.positive_infinity [].
Definition negative_infinity : expr := call intrinsic.negative_infinity [].

Definition is_positive_infinity (e : expr) : bool :=
  match e with call intrinsic.positive_infinity _ => true | _ => false end.
Definition is_negative_infinity (e : expr) : bool :=
  match e with call intrinsic.negative_infinity _ => true | _ => false end.
Definition is_variable (e : expr) (sym : symbol_id) : bool :=
  match e with variable s => Nat.eqb s sym | _ => false end.

(** [interval_expr { expr min, max; }], with the operators of interval.h. *)
Record interval_expr : Set := mk_interval { imin : expr; imax : expr }.

Definition interval_default : interval_expr :=
  {| imin := expr_undef; imax := expr_undef |}.

Definition interval_point (e : expr) : interval_expr := {| imin := e; imax := e |}.

(** [interval::extent()]: [max - min + 1]. *)
Definition extent (i : interval_expr) : expr :=
  op_add (op_sub (imax i) (imin i)) (constant 1%Z).

(** [interval::operator&=], body as written in interval.h. *)
Definition interval_and (l r : interval_expr) : interval_expr :=
  {| imin := slinky_min (imin l) (imin r);
     imax := slinky_max (imax l) (imax r) |}.

(** Modelled from the spec: [interval_expr::empty()], the condition
    [min > max] ("overlap.min > overlap.max"). *)
Definition interval_empty (i : interval_expr) : expr := op_gt (imin i) (imax i).

Definition interval_eqb (a b : interval_expr) : bool :=
  expr_eqb (imin a) (imin b) && expr_eqb (imax a) (imax b).

Definition box_expr := list interval_expr.

(** [dim_expr { interval_expr bounds; expr stride; expr fold_factor; }]. *)
Record dim_expr : Set := mk_dim
  { bounds : interval_expr; stride : expr; fold_factor : expr }.

Definition dim_eqb (a b : dim_expr) : bool :=
  interval_eqb (bounds a) (bounds b) && expr_eqb (stride a) (stride b)
  && expr_eqb (fold_factor a) (fold_factor b).

Inductive memory_type : Set := stack | heap.
Inductive loop_mode : Set := serial | parallel.

(** A user callback is opaque to the builder; it is named by an index. *)
Definition callable := nat.

(** Modelled from the spec: the statement variants of section 3.3 (their
    declarations are not part of the tree; optimizations.cc, the bounds
    inference source and print.cc use exactly these fields).  [stmt_undef]
    is the null handle [stmt()]. *)
Inductive stmt : Set :=
| stmt_undef
| block (a b : stmt)
| let_stmt (sym : symbol_id) (value : expr) (body : stmt)
| loop (sym : symbol_id) (mode : loop_mode) (lbounds : interval_expr)
       (step : expr) (body : stmt)
| if_then_else (condition : expr) (true_body false_body : stmt)
| call_stmt (target : callable) (inputs outputs : list symbol_id)
| copy_stmt (src : symbol_id) (src_x : list expr) (dst : symbol_id)
            (padding : list Z)
| allocate (sym : symbol_id) (storage : memory_type) (elem_size : Z)
           (dims : list dim_expr) (body : stmt)
| make_buffer (sym : symbol_id) (base : expr) (elem_size : expr)
              (dims : list dim_expr) (body : stmt)
| crop_buffer (sym : symbol_id) (cbounds : box_expr) (body : stmt)
| crop_dim (sym : symbol_id) (dim : nat) (dbounds : interval_expr) (body : stmt)
| slice_buffer (sym : symbol_id) (at_ : list expr) (body : stmt)
| slice_dim (sym : symbol_id) (dim : nat) (at_ : expr) (body : stmt)
| truncate_rank (sym : symbol_id) (rank : nat) (body : stmt)
| check (condition : expr).

Definition stmt_defined (s : stmt) : bool :=
  match s with stmt_undef => false | _ => true end.

Definition list_eqb {A} (eqb : A -> A -> bool) : list A -> list A -> bool :=
  fix go (xs ys : list A) : bool :=
    match xs, ys with
    | [], [] => true
    | x :: xs', y :: ys' => eqb x y && go xs' ys'
    | _, _ => false
    end.

Definition memory_type_eqb (a b : memory_type) : bool :=
  match a, b with stack, stack | heap, heap => true | _, _ => false end.
Definition loop_mode_eqb (a b : loop_mode) : bool :=
  match a, b with serial, serial | parallel, parallel => true | _, _ => false end.

(** Structural equality of statements.  The passes test [same_as]
    (identity of the handle) to decide whether to rebuild a node; a mutator
    returns the handle it was given exactly when no child changed, so the
    test is modelled by comparing the trees. *)
Fixpoint stmt_eqb (s t : stmt) {struct s} : bool :=
  match s, t with
  | stmt_undef, stmt_undef => true
  | block a1 b1, block a2 b2 => stmt_eqb a1 a2 && stmt_eqb b1 b2
  | let_stmt x1 v1 b1, let_stmt x2 v2 b2 =>
      Nat.eqb x1 x2 && expr_eqb v1 v2 && stmt_eqb b1 b2
  | loop x1 m1 i1 s1 b1, loop x2 m2 i2 s2 b2 =>
      Nat.eqb x1 x2 && loop_mode_eqb m1 m2 && interval_eqb i1 i2
      && expr_eqb s1 s2 && stmt_eqb b1 b2
  | if_then_else c1 t1 e1, if_then_else c2 t2 e2 =>
      expr_eqb c1 c2 && stmt_eqb t1 t2 && stmt_eqb e1 e2
  | call_stmt f1 i1 o1, call_stmt f2 i2 o2 =>
      Nat.eqb f1 f2 && list_eqb Nat.eqb i1 i2 && list_eqb Nat.eqb o1 o2
  | copy_stmt s1 x1 d1 p1, copy_stmt s2 x2 d2 p2 =>
      Nat.eqb s1 s2 && list_eqb expr_eqb x1 x2 && Nat.eqb d1 d2
      && list_eqb Z.eqb p1 p2
  | allocate x1 m1 e1 d1 b1, allocate x2 m2 e2 d2 b2 =>
      Nat.eqb x1 x2 && memory_type_eqb m1 m2 && Z.eqb e1 e2
      && list_eqb dim_eqb d1 d2 && stmt_eqb b1 b2
  | make_buffer x1 p1 e1 d1 b1, make_buffer x2 p2 e2 d2 b2 =>
      Nat.eqb x1 x2 && expr_eqb p1 p2 && expr_eqb e1 e2
      && list_eqb dim_eqb d1 d2 && stmt_eqb b1 b2
  | crop_buffer x1 c1 b1, crop_buffer x2 c2 b2 =>
      Nat.eqb x1 x2 && list_eqb interval_eqb c1 c2 && stmt_eqb b1 b2
  | crop_dim x1 d1 c1 b1, crop_dim x2 d2 c2 b2 =>
      Nat.eqb x1 x2 && Nat.eqb d1 d2 && interval_eqb c1 c2 && stmt_eqb b1 b2
  | slice_buffer x1 a1 b1, slice_buffer x2 a2 b2 =>
      Nat.eqb x1 x2 && list_eqb expr_eqb a1 a2 && stmt_eqb b1 b2
  | slice_dim x1 d1 a1 b1, slice_dim x2 d2 a2 b2 =>
      Nat.eqb x1 x2 && Nat.eqb d1 d2 && expr_eqb a1 a2 && stmt_eqb b1 b2
  | truncate_rank x1 r1 b1, truncate_rank x2 r2 b2 =>
      Nat.eqb x1 x2 && Nat.eqb r1 r2 && stmt_eqb b1 b2
  | check c1, check c2 => expr_eqb c1 c2
  | _, _ => false
  end.

(** [block::make(std::vector<stmt>)] / [block::make({...})]: the statements
    in order, skipping undefined handles, as nested two-element blocks
    ("right-associative forms a list"); no statement gives the undefined
    handle.  Modelled from the spec (section 3.3, [Block]); only
    [block::make(stmt a, stmt b)] is part of the tree. *)
Fixpoint block_make (l : list stmt) : stmt :=
  match l with
  | [] => stmt_undef
  | s :: l' =>
      if stmt_defined s then
        (let r := block_make l' in
         if stmt_defined r then block s r else s)
      else block_make l'
  end.

(** The leaf statements of [s] from left to right: what
    [for_each_stmt_forward] (optimizations.cc) visits, descending only
    through [block]; an undefined handle holds no statement. *)
Fixpoint leaves (s : stmt) : list stmt :=
  match s with
  | stmt_undef => []
  | block a b => leaves a ++ leaves b
  | _ => [s]
  end.

End IR.


(* ===================================================================== *)
(** * depends_on, substitute and the value of an expression               *)
(* ===================================================================== *)

(** None of depends_on.h, substitute.h and evaluate.h is part of the tree;
    the passes call them.  The definitions of this module are the models
    used wherever a concrete instance is needed. *)
Module ExprOps.
Import IR.

(** Modelled from the spec: [depends_on(const expr& e, symbol_id sym)],
    whether [e] mentions the variable [sym] (sections 4.3 and 4.4 speak of
    bounds that "mention" or "depend on" the loop variable), an inner [let]
    of the same symbol shadowing it. *)
Fixpoint depends_on (e : expr) (sym : symbol_id) {struct e} : bool :=
  match e with
  | expr_undef => false
  | variable s => Nat.eqb s sym
  | wildcard _ => false
  | constant _ => false
  | let_ s v b =>
      depends_on v sym || (negb (Nat.eqb s sym) && depends_on b sym)
  | binary _ a b => depends_on a sym || depends_on b sym
  | logical_not x => depends_on x sym
  | select c t f => depends_on c sym || depends_on t sym || depends_on f sym
  | call _ args => existsb (fun a => depends_on a sym) args
  end.

Definition interval_depends_on (i : interval_expr) (sym : symbol_id) : bool :=
  depends_on (imin i) sym || depends_on (imax i) sym.

Definition dim_depends_on (d : dim_expr) (sym : symbol_id) : bool :=
  interval_depends_on (bounds d) sym || depends_on (stride d) sym
  || depends_on (fold_factor d) sym.

(** Modelled from the spec: whether a statement references [sym], as a
    variable of one of its expressions or as one of its buffers; a node
    that binds [sym] hides the outer [sym] in its body (section 3.3,
    invariants). *)
Fixpoint stmt_mentions (s : stmt) (sym : symbol_id) {struct s} : bool :=
  match s with
  | stmt_undef => false
  | block a b => stmt_mentions a sym || stmt_mentions b sym
  | let_stmt x v body =>
      depends_on v sym || (negb (Nat.eqb x sym) && stmt_mentions body sym)
  | loop x _ bnds step body =>
      interval_depends_on bnds sym || depends_on step sym
      || (negb (Nat.eqb x sym) && stmt_mentions body sym)
  | if_then_else c t e =>
      depends_on c sym || stmt_mentions t sym || stmt_mentions e sym
  | call_stmt _ inputs outputs =>
      existsb (Nat.eqb sym) inputs || existsb (Nat.eqb sym) outputs
  | copy_stmt src src_x dst _ =>
      Nat.eqb src sym || Nat.eqb dst sym
      || existsb (fun a => depends_on a sym) src_x
  | allocate x _ _ dims body =>
      existsb (fun d => dim_depends_on d sym) dims
      || (negb (Nat.eqb x sym) && stmt_mentions body sym)
  | make_buffer x base es dims body =>
      depends_on base sym || depends_on es sym
      || existsb (fun d => dim_depends_on d sym) dims
      || (negb (Nat.eqb x sym) && stmt_mentions body sym)
  | crop_buffer x cb body =>
      Nat.eqb x sym || existsb (fun i => interval_depends_on i sym) cb
      || stmt_mentions body sym
  | crop_dim x _ db body =>
      Nat.eqb x sym || interval_depends_on db sym || stmt_mentions body sym
  | slice_buffer x a body =>
      Nat.eqb x sym || existsb (fun e => depends_on e sym) a
      || stmt_mentions body sym
  | slice_dim x _ a body =>
      Nat.eqb x sym || depends_on a sym || stmt_mentions body sym
  | truncate_rank x _ body => Nat.eqb x sym || stmt_mentions body sym
  | check c => depends_on c sym
  end.

(** [depends_on(const stmt& s, span<const symbol_id> vars)]: some symbol of
    [vars] is referenced. *)
Definition stmt_depends_on (s : stmt) (vars : list symbol_id) : bool :=
  existsb (stmt_mentions s) vars.

(** Modelled from the spec: [substitute(e, sym, replacement)] replaces
    every occurrence of the variable [sym], respecting the shadowing of an
    inner [let] (section 4.2). *)
Fixpoint substitute (e : expr) (sym : symbol_id) (r : expr) {struct e} : expr :=
  match e with
  | expr_undef => expr_undef
  | variable s => if Nat.eqb s sym then r else e
  | wildcard _ => e
  | constant _ => e
  | let_ s v b =>
      let_ s (substitute v sym r) (if Nat.eqb s sym then b else substitute b sym r)
  | binary op a b => binary op (substitute a sym r) (substitute b sym r)
  | logical_not x => logical_not (substitute x sym r)
  | select c t f =>
      select (substitute c sym r) (substitute t sym r) (substitute f sym r)
  | call fn args => call fn (map (fun a => substitute a sym r) args)
  end.

(** Modelled from the spec: [substitute(e, target, replacement)] for a
    whole expression [target] replaces every structural occurrence of it
    (section 4.2). *)
Fixpoint substitute_expr (e target r : expr) {struct e} : expr :=
  if expr_eqb e target then r else
  match e with
  | let_ s v b => let_ s (substitute_expr v target r) (substitute_expr b target r)
  | binary op a b => binary op (substitute_expr a target r) (substitute_expr b target r)
  | logical_not x => logical_not (substitute_expr x target r)
  | select c t f =>
      select (substitute_expr c target r) (substitute_expr t target r)
             (substitute_expr f target r)
  | call fn args => call fn (map (fun a => substitute_expr a target r) args)
  | _ => e
  end.

(** Modelled from the spec: the value of an expression under an
    assignment of its variables (section 3.2: integer semantics, floored
    [Div] and [Mod], comparisons and logical operators yielding 0 or 1;
    section 8, simplifier soundness, speaks of [eval(e, sigma)]).  Buffer
    metadata, infinities and division by zero have no value here. *)
Definition of_bool (b : bool) : index_t := if b then 1%Z else 0%Z.

Definition eval_binary (op : binary_op) (x y : index_t) : option index_t :=
  match op with
  | add => Some (x + y)%Z
  | sub => Some (x - y)%Z
  | mul => Some (x * y)%Z
  | div => if (y =? 0)%Z then None else Some (x / y)%Z
  | mod_ => if (y =? 0)%Z then None else Some (x mod y)%Z
  | min => Some (Z.min x y)
  | max => Some (Z.max x y)
  | equal => Some (of_bool (x =? y)%Z)
  | not_equal => Some (of_bool (negb (x =? y)%Z))
  | less => Some (of_bool (x <? y)%Z)
  | less_equal => Some (of_bool (x <=? y)%Z)
  | logical_and => Some (of_bool (negb (x =? 0)%Z && negb (y =? 0)%Z))
  | logical_or => Some (of_bool (negb (x =? 0)%Z || negb (y =? 0)%Z))
  end.

Definition env_set (env : symbol_id -> index_t) (x : symbol_id) (v : index_t)
  : symbol_id -> index_t :=
  fun y => if Nat.eqb y x then v else env y.

Fixpoint eval (env : symbol_id -> index_t) (e : expr) {struct e} : option index_t :=
  match e with
  | variable x => Some (env x)
  | constant c => Some c
  | let_ x v b =>
      match eval env v with
      | Some vv => eval (env_set env x vv) b
      | None => None
      end
  | binary op a b =>
      match eval env a, eval env b with
      | Some x, Some y => eval_binary op x y
      | _, _ => None
      end
  | logical_not x =>
      match eval env x with
      | Some v => Some (of_bool (v =? 0)%Z)
      | None => None
      end
  | select c t f =>
      match eval env c with
      | Some v => if (v =? 0)%Z then eval env f else eval env t
      | None => None
      end
  | call intrinsic.abs [x] =>
      match eval env x with
      | Some v => Some (Z.abs v)
      | None => None
      end
  | _ => None
  end.


(** Modelled from the spec: [substitute_bounds(e, sym, box)] "specializes
    buffer-meta calls on [sym] to the provided box: [buffer_min(sym, d)]
    becomes [box[d].min], [buffer_max(sym, d)] becomes [box[d].max],
    [buffer_extent(sym, d)] becomes [box[d].extent()]" (section 4.2).  A
    dimension the box does not have, or a bound it leaves undefined, is not
    replaced. *)
Definition meta_replacement (fn : intrinsic.t) (args : list expr)
    (sym : symbol_id) (bx : box_expr) : option expr :=
  match args with
  | [variable s; constant d] =>
      if Nat.eqb s sym && (0 <=? d)%Z then
        match nth_error bx (Z.to_nat d) with
        | Some i =>
            match fn with
            | intrinsic.buffer_min =>
                if defined (imin i) then Some (imin i) else None
            | intrinsic.buffer_max =>
                if defined (imax i) then Some (imax i) else None
            | intrinsic.buffer_extent =>
                if defined (imin i) && defined (imax i) then Some (extent i) else None
            | _ => None
            end
        | None => None
        end
      else None
  | _ => None
  end.

Fixpoint substitute_bounds (e : expr) (sym : symbol_id) (bx : box_expr)
    {struct e} : expr :=
  match e with
  | let_ s v b => let_ s (substitute_bounds v sym bx) (substitute_bounds b sym bx)
  | binary op a b => binary op (substitute_bounds a sym bx) (substitute_bounds b sym bx)
  | logical_not x => logical_not (substitute_bounds x sym bx)
  | select c t f =>
      select (substitute_bounds c sym bx) (substitute_bounds t sym bx)
             (substitute_bounds f sym bx)
  | call fn args =>
      match meta_replacement fn args sym bx with
      | Some r => r
      | None => call fn (map (fun a => substitute_bounds a sym bx) args)
      end
  | _ => e
  end.

End ExprOps.

(* ===================================================================== *)
(** * Scoped symbol maps and the outcome of a pass                        *)
(* ===================================================================== *)

(** Modelled from the spec: [symbol_map<T>] (section 9, "Scoped symbol
    maps"; the class template itself is not part of the tree).  The passes
    use it as a vector of optional entries indexed by symbol id: they read
    [m[sym]], assign an optional to [m[sym]] (the vector grows as needed),
    test [m.contains(sym)] and iterate the entries in index order.  An index
    beyond the end reads as an empty optional. *)
Module SymbolMap.
Section Map.
Variable T : Type.

Definition symbol_map := list (option T).

Definition lookup (m : symbol_map) (sym : nat) : option T := nth sym m None.

Definition contains (m : symbol_map) (sym : nat) : bool :=
  match lookup m sym with Some _ => true | None => false end.

(** [m[sym] = v] for an optional [v]. *)
Fixpoint assign (m : symbol_map) (sym : nat) (v : option T) : symbol_map :=
  match sym, m with
  | O, [] => [v]
  | O, _ :: m' => v :: m'
  | S n, [] => None :: assign [] n v
  | S n, x :: m' => x :: assign m' n v
  end.

(** [for (std::optional<T>& i : m) { if (!i) continue; ... }]: [f] applied
    to every engaged entry. *)
Definition update_all (f : T -> T) (m : symbol_map) : symbol_map :=
  map (option_map f) m.

End Map.
End SymbolMap.

(** What a visit can end in besides a result: [std::abort()], the
    dereference of an empty [std::optional] (undefined behaviour in the
    source), or an exhausted iteration budget of this model. *)
Inductive error : Set := aborted | null_dereference | out_of_fuel.

Inductive result (A : Type) : Type :=
| ok (a : A)
| failed (e : error).
Arguments ok {A} a.
Arguments failed {A} e.

Definition bind {A B} (r : result A) (k : A -> result B) : result B :=
  match r with
  | ok a => k a
  | failed e => failed e
  end.

Declare Scope result_scope.
Delimit Scope result_scope with result.
Notation "x <- c ;; k" := (bind c (fun x => k))
  (at level 100, c at next level, right associativity) : result_scope.
Notation "' p <- c ;; k" := (bind c (fun p => k))
  (at level 100, p pattern, c at next level, right associativity) : result_scope.

(** [std::set<symbol_id>]: a strictly increasing list of ids. *)
Module IdSet.

Definition t := list nat.

Fixpoint insert (x : nat) (s : t) : t :=
  match s with
  | [] => [x]
  | y :: s' =>
      if x <? y then x :: s
      else if x =? y then s
      else y :: insert x s'
  end.

Definition erase (x : nat) (s : t) : t :=
  filter (fun y => negb (y =? x)) s.

Definition empty (s : t) : bool := match s with [] => true | _ => false end.

(** [*s.begin()] *)
Definition begin_ (s : t) : option nat := hd_error s.


End IdSet.
(* ===================================================================== *)
(** * merge_crop (optimizations.cc and the bounds inference source)       *)
(* ===================================================================== *)

Module Crop.
Import IR.

(** [vector_at(std::vector<T>& v, n)] followed by an update of the
    element: the vector is resized to [n + 1] default elements when [n] is
    past its end. *)
Fixpoint vector_update (v : box_expr) (n : nat)
    (f : interval_expr -> interval_expr) : box_expr :=
  match n, v with
  | O, [] => [f interval_default]
  | O, x :: v' => f x :: v'
  | S k, [] => interval_default :: vector_update [] k f
  | S k, x :: v' => x :: vector_update v' k f
  end.

(** [vector_at(std::optional<std::vector<T>>& v, n)]: an empty optional
    first becomes a vector of [n + 1] default elements. *)
Definition optional_vector_update (v : option box_expr) (n : nat)
    (f : interval_expr -> interval_expr) : option box_expr :=
  Some (vector_update (match v with Some b => b | None => [] end) n f).

Definition set_min (e : expr) (i : interval_expr) : interval_expr :=
  {| imin := e; imax := imax i |}.
Definition set_max (e : expr) (i : interval_expr) : interval_expr :=
  {| imin := imin i; imax := e |}.

(** [merge_crop(std::optional<box_expr>& bounds, int dim,
                const interval_expr& new_bounds)] *)
Definition merge_crop_dim (bounds : option box_expr) (dim : nat)
    (new_bounds : interval_expr) : option box_expr :=
  let b1 := if defined (imin new_bounds)
            then optional_vector_update bounds dim (set_min (imin new_bounds))
            else bounds in
  if defined (imax new_bounds)
  then optional_vector_update b1 dim (set_max (imax new_bounds))
  else b1.

(** [merge_crop(std::optional<box_expr>& bounds, const box_expr& new_bounds)]:
    [for (d = 0; d < new_bounds.size(); ++d) merge_crop(bounds, d, new_bounds[d])]. *)
Fixpoint merge_crop_from (d : nat) (bounds : option box_expr)
    (new_bounds : box_expr) : option box_expr :=
  match new_bounds with
  | [] => bounds
  | nb :: rest => merge_crop_from (S d) (merge_crop_dim bounds d nb) rest
  end.

Definition merge_crop (bounds : option box_expr) (new_bounds : box_expr)
  : option box_expr := merge_crop_from 0 bounds new_bounds.

(** The bounds a possibly empty optional box records for dimension [d]:
    a dimension past the end of the vector, like every dimension of an
    empty optional, has no bound defined. *)
Definition bounds_at (b : option box_expr) (d : nat) : interval_expr :=
  nth d (match b with Some v => v | None => [] end) interval_default.

(** The bound a crop gives when it defines one, the recorded bound
    otherwise. *)
Definition override (new_bound recorded : expr) : expr :=
  if defined new_bound then new_bound else recorded.

(** A crop that defines no bound. *)
Definition defines_nothing (new_bounds : box_expr) : bool :=
  forallb (fun i => negb (defined (imin i)) && negb (defined (imax i))) new_bounds.

End Crop.


(* ===================================================================== *)
(** * recursive_substitute (the bounds inference source)                  *)
(* ===================================================================== *)

Module Substitutions.
Import IR.

(** One pass of the body of [recursive_substitute] over a dim: every
    substitution, in order, applied to the four expressions of the dim. *)
Definition substitute_dim (substitutions : list (expr * expr)) (d : dim_expr)
  : dim_expr :=
  fold_left
    (fun (new_dim : dim_expr) (j : expr * expr) =>
       {| bounds :=
            {| imin := ExprOps.substitute_expr (imin (bounds new_dim)) (fst j) (snd j);
               imax := ExprOps.substitute_expr (imax (bounds new_dim)) (fst j) (snd j) |};
          stride := ExprOps.substitute_expr (stride new_dim) (fst j) (snd j);
          fold_factor := ExprOps.substitute_expr (fold_factor new_dim) (fst j) (snd j) |})
    substitutions d.

(** [recursive_substitute(dims, substitutions)]: "Keep substituting
    substitutions until nothing happens".  The [while (true)] loop runs at
    most [fuel] times here. *)
Fixpoint recursive_substitute (fuel : nat) (dims : list dim_expr)
    (substitutions : list (expr * expr)) : result (list dim_expr) :=
  match fuel with
  | O => failed out_of_fuel
  | S n =>
      let dims' := map (substitute_dim substitutions) dims in
      if list_eqb dim_eqb dims' dims then ok dims
      else recursive_substitute n dims' substitutions
  end.

End Substitutions.
(* ===================================================================== *)
(** * src/src/optimizations.cc : buffer_aliaser                           *)
(* ===================================================================== *)

Module Aliaser.
Import IR SymbolMap Crop.
Local Open Scope result_scope.

(** [struct buffer_info { std::set<symbol_id> alias_candidates;
                          bool elementwise = true; }] *)
Record buffer_info : Set := mk_info
  { alias_candidates : IdSet.t; elementwise : bool }.

Definition buffer_info_default : buffer_info :=
  {| alias_candidates := []; elementwise := true |}.

(** The members of [buffer_aliaser]. *)
Record state := mk_state
  { alias_info : symbol_map buffer_info;
    buffer_bounds : symbol_map box_expr;
    aliases : symbol_map symbol_id }.

Definition initial : state :=
  {| alias_info := []; buffer_bounds := []; aliases := [] |}.

Definition with_alias_info (st : state) (m : symbol_map buffer_info) : state :=
  {| alias_info := m; buffer_bounds := buffer_bounds st; aliases := aliases st |}.
Definition with_buffer_bounds (st : state) (m : symbol_map box_expr) : state :=
  {| alias_info := alias_info st; buffer_bounds := m; aliases := aliases st |}.
Definition with_aliases (st : state) (m : symbol_map symbol_id) : state :=
  {| alias_info := alias_info st; buffer_bounds := buffer_bounds st; aliases := m |}.

(** Modelled from the spec: [match(a, b)] on wildcard-free expressions is
    structural equality of the trees (section 4.5); substitute.h is not
    part of the tree. *)
Definition match_ (a b : expr) : bool := expr_eqb a b.

(** [is_elementwise(const box_expr& in_x, symbol_id out)], the loop over
    [d] starting at [d]. *)
Fixpoint is_elementwise_from (d : nat) (in_x : box_expr) (out : symbol_id) : bool :=
  match in_x with
  | [] => true
  | i :: rest =>
      if negb (match_ (imin i) (buffer_min (variable out) d)) then false
      else if negb (match_ (imax i) (buffer_max (variable out) d)) then false
      else is_elementwise_from (S d) rest out
  end.

Definition is_elementwise (in_x : box_expr) (out : symbol_id) : bool :=
  is_elementwise_from 0 in_x out.

Definition clear_elementwise (info : buffer_info) : buffer_info :=
  {| alias_candidates := alias_candidates info; elementwise := false |}.
Definition add_candidate (o : symbol_id) (info : buffer_info) : buffer_info :=
  {| alias_candidates := IdSet.insert o (alias_candidates info);
     elementwise := elementwise info |}.
Definition erase_candidate (target : symbol_id) (info : buffer_info) : buffer_info :=
  {| alias_candidates := IdSet.erase target (alias_candidates info);
     elementwise := elementwise info |}.

(** Whether the visit of a call returned early. *)
Inductive flow : Set := running | returned.

(** [buffer_aliaser::visit(const call_stmt* op)], the inner loop over the
    inputs for one output [o].  When the guard [!in_x || !info] holds the
    source writes [info->elementwise = false]: with [info] empty this
    dereferences an empty optional. *)
Fixpoint visit_inputs (o : symbol_id) (inputs : list symbol_id) (st : state)
  : result (flow * state) :=
  match inputs with
  | [] => ok (running, st)
  | i :: rest =>
      let in_x := lookup (buffer_bounds st) i in
      let info := lookup (alias_info st) i in
      match in_x, info with
      | _, None => failed null_dereference
      | None, Some inf =>
          ok (returned,
              with_alias_info st (assign (alias_info st) i (Some (clear_elementwise inf))))
      | Some bx, Some inf =>
          if negb (is_elementwise bx o) then
            ok (returned,
                with_alias_info st (assign (alias_info st) i (Some (clear_elementwise inf))))
          else
            visit_inputs o rest
              (with_alias_info st (assign (alias_info st) i (Some (add_candidate o inf))))
      end
  end.

(** [buffer_aliaser::visit(const call_stmt* op)], the outer loop over the
    outputs; the statement itself is returned unchanged. *)
Fixpoint visit_call_stmt (inputs outputs : list symbol_id) (st : state)
  : result state :=
  match outputs with
  | [] => ok st
  | o :: rest =>
      ' (fl, st') <- visit_inputs o inputs st ;;
      match fl with
      | returned => ok st'
      | running => visit_call_stmt inputs rest st'
      end
  end.

(** Entering [visit(const allocate* op)]: the two [set_value_in_scope]
    guards bind the buffer's bounds (the bounds of its dims) and a fresh
    [buffer_info] ("Start out by setting it to elementwise"). *)
Definition enter_allocate (st : state) (sym : symbol_id) (dims : list dim_expr)
  : state :=
  with_alias_info
    (with_buffer_bounds st
       (assign (buffer_bounds st) sym (Some (map bounds dims))))
    (assign (alias_info st) sym (Some buffer_info_default)).

(** The alias branch of [visit(const allocate* op)]: [aliases[op->sym] =
    target], then "Remove this as a candidate for other aliases": the
    target is erased from every engaged entry of [alias_info]. *)
Definition alias_to (st : state) (sym target : symbol_id) : state :=
  with_alias_info
    (with_aliases st (assign (aliases st) sym (Some target)))
    (update_all (erase_candidate target) (alias_info st)).

(** Leaving [visit(const allocate* op)]: the guards restore the entries of
    [sym] that were current in [st0] on entry, [alias_info] first, then
    [buffer_bounds]. *)
Definition leave_allocate (st0 st : state) (sym : symbol_id) : state :=
  with_buffer_bounds
    (with_alias_info st
       (assign (alias_info st) sym (lookup (alias_info st0) sym)))
    (assign (buffer_bounds st) sym (lookup (buffer_bounds st0) sym)).


(** [buffer_aliaser] as a mutator.  Statements the class does not override
    go through [node_mutator]'s default visit, which mutates the child
    statements in order and rebuilds the node (modelled from the spec,
    section 9 "Node visitor pattern": node_mutator.cc is not part of the
    tree; the aliaser overrides no expression visit, so expressions are
    returned as they are).  Where the source returns [op] itself when
    [same_as] reports no change, the rebuilt node is the same tree. *)
Fixpoint mutate (s : stmt) (st : state) {struct s} : result (stmt * state) :=
  match s with
  | stmt_undef => ok (stmt_undef, st)
  | block a b =>
      ' (a', st1) <- mutate a st ;;
      ' (b', st2) <- mutate b st1 ;;
      ok (block a' b', st2)
  | let_stmt sym value body =>
      ' (body', st1) <- mutate body st ;;
      ok (let_stmt sym value body', st1)
  | loop sym mode bnds step body =>
      ' (body', st1) <- mutate body st ;;
      ok (loop sym mode bnds step body', st1)
  | if_then_else c t e =>
      ' (t', st1) <- mutate t st ;;
      ' (e', st2) <- mutate e st1 ;;
      ok (if_then_else c t' e', st2)
  | call_stmt target inputs outputs =>
      st' <- visit_call_stmt inputs outputs st ;;
      ok (s, st')
  | copy_stmt _ _ _ _ => ok (s, st)
  | allocate sym storage elem_size dims body =>
      ' (body', st1) <- mutate body (enter_allocate st sym dims) ;;
      match lookup (alias_info st1) sym with
      | None => failed null_dereference
      | Some info =>
          let '(r, st2) :=
            if elementwise info && negb (IdSet.empty (alias_candidates info)) then
              match IdSet.begin_ (alias_candidates info) with
              | Some target =>
                  (let_stmt sym (variable target) body',
                   alias_to st1 sym target)
              | None => (allocate sym storage elem_size dims body', st1)
              end
            else (allocate sym storage elem_size dims body', st1) in
          ok (r, leave_allocate st st2 sym)
      end
  | make_buffer sym base elem_size dims body =>
      ' (body', st1) <- mutate body st ;;
      ok (make_buffer sym base elem_size dims body', st1)
  | crop_buffer sym cb body =>
      let old := lookup (buffer_bounds st) sym in
      let bnds := merge_crop old cb in
      ' (body', st1) <- mutate body
          (with_buffer_bounds st (assign (buffer_bounds st) sym bnds)) ;;
      ok (crop_buffer sym cb body',
          with_buffer_bounds st1 (assign (buffer_bounds st1) sym old))
  | crop_dim sym d db body =>
      let old := lookup (buffer_bounds st) sym in
      let bnds := merge_crop_dim old d db in
      ' (body', st1) <- mutate body
          (with_buffer_bounds st (assign (buffer_bounds st) sym bnds)) ;;
      ok (crop_dim sym d db body',
          with_buffer_bounds st1 (assign (buffer_bounds st1) sym old))
  | slice_buffer _ _ _ => failed aborted
  | slice_dim _ _ _ _ => failed aborted
  | truncate_rank _ _ _ => failed aborted
  | check _ => ok (s, st)
  end.

(** [stmt alias_buffers(const stmt& s) { return buffer_aliaser().mutate(s); }] *)
Definition alias_buffers (s : stmt) : result stmt :=
  ' (r, _) <- mutate s initial ;; ok r.


(** The buffers the calls of a statement produce, and the symbols its
    allocations bind, in the order the statement lists them. *)
Fixpoint outputs_of (s : stmt) : list symbol_id :=
  match s with
  | block a b => outputs_of a ++ outputs_of b
  | let_stmt _ _ body => outputs_of body
  | loop _ _ _ _ body => outputs_of body
  | if_then_else _ t e => outputs_of t ++ outputs_of e
  | call_stmt _ _ outputs => outputs
  | allocate _ _ _ _ body => outputs_of body
  | make_buffer _ _ _ _ body => outputs_of body
  | crop_buffer _ _ body => outputs_of body
  | crop_dim _ _ _ body => outputs_of body
  | slice_buffer _ _ body => outputs_of body
  | slice_dim _ _ _ body => outputs_of body
  | truncate_rank _ _ body => outputs_of body
  | _ => []
  end.


(** Every consumption of [sym] in [s] is elementwise: each call of [s]
    that has [sym] among its inputs finds, for the bounds [b] of [sym]
    under the crops in scope ([b] on entry, merged with every enclosing
    crop of [sym] as the aliaser merges them), [is_elementwise] of them for
    each of its outputs.  An inner allocation of [sym] itself hides the
    buffer: the calls of its body consume the inner buffer. *)
Fixpoint consumed_elementwise (sym : symbol_id) (b : option box_expr) (s : stmt)
  : bool :=
  match s with
  | block a c => consumed_elementwise sym b a && consumed_elementwise sym b c
  | let_stmt _ _ body => consumed_elementwise sym b body
  | loop _ _ _ _ body => consumed_elementwise sym b body
  | if_then_else _ t e => consumed_elementwise sym b t && consumed_elementwise sym b e
  | call_stmt _ inputs outputs =>
      if existsb (Nat.eqb sym) inputs then
        match b with
        | Some bx => forallb (is_elementwise bx) outputs
        | None => false
        end
      else true
  | allocate sym' _ _ _ body =>
      if Nat.eqb sym' sym then true else consumed_elementwise sym b body
  | make_buffer _ _ _ _ body => consumed_elementwise sym b body
  | crop_buffer sym' cb body =>
      consumed_elementwise sym (if Nat.eqb sym' sym then merge_crop b cb else b) body
  | crop_dim sym' d db body =>
      consumed_elementwise sym (if Nat.eqb sym' sym then merge_crop_dim b d db else b)
        body
  | _ => true
  end.

(** No target is aliased to by two buffers. *)
Definition aliased_at_most_once (m : symbol_map symbol_id) : Prop :=
  forall a b target,
    lookup m a = Some target -> lookup m b = Some target -> a = b.

(** The invariant behind "a target is aliased to at most once".  [V] are
    the buffers produced by the calls visited so far, [Enc] the allocations
    being visited and [Done] the allocations already left. *)
Record invariant (st : state) (V Enc Done : list symbol_id) : Prop :=
  mk_invariant
  { inv_candidates :
      forall b info o,
        lookup (alias_info st) b = Some info -> In o (alias_candidates info) ->
        In o V /\ forall a, lookup (aliases st) a <> Some o;
    inv_targets : forall a t, lookup (aliases st) a = Some t -> In t V;
    inv_once : aliased_at_most_once (aliases st);
    inv_done : forall a t, lookup (aliases st) a = Some t -> In a Done;
    inv_scope : forall b info, lookup (alias_info st) b = Some info -> In b Enc }.

End Aliaser.

(* ===================================================================== *)
(** * src/src/optimizations.cc : scope_reducer                            *)
(* ===================================================================== *)

Module ScopeReducer.
Import IR.

(** [clone_with_new_body(const T* op, stmt new_body)] for the eight scoping
    node kinds. *)
Definition clone_with_new_body (op : stmt) (new_body : stmt) : stmt :=
  match op with
  | let_stmt sym value _ => let_stmt sym value new_body
  | allocate sym storage elem_size dims _ => allocate sym storage elem_size dims new_body
  | make_buffer sym base elem_size dims _ => make_buffer sym base elem_size dims new_body
  | crop_buffer sym cb _ => crop_buffer sym cb new_body
  | crop_dim sym d db _ => crop_dim sym d db new_body
  | slice_buffer sym a _ => slice_buffer sym a new_body
  | slice_dim sym d a _ => slice_dim sym d a new_body
  | truncate_rank sym r _ => truncate_rank sym r new_body
  | _ => op
  end.

(** The bound symbol and the body of a scoping node ([op->sym],
    [op->body]); [None] for the other statements. *)
Definition scoping_node (op : stmt) : option (symbol_id * stmt) :=
  match op with
  | let_stmt sym _ body => Some (sym, body)
  | allocate sym _ _ _ body => Some (sym, body)
  | make_buffer sym _ _ _ body => Some (sym, body)
  | crop_buffer sym _ body => Some (sym, body)
  | crop_dim sym _ _ body => Some (sym, body)
  | slice_buffer sym _ body => Some (sym, body)
  | slice_dim sym _ _ body => Some (sym, body)
  | truncate_rank sym _ body => Some (sym, body)
  | _ => None
  end.

(** The statements [for_each_stmt_forward] hands to its callback, in
    order: it descends through [block] and calls [fn] on anything else. *)
Fixpoint visited_forward (s : stmt) : list stmt :=
  match s with
  | block a b => visited_forward a ++ visited_forward b
  | _ => [s]
  end.

(** The same for [for_each_stmt_backward] ([b] before [a]). *)
Fixpoint visited_backward (s : stmt) : list stmt :=
  match s with
  | block a b => visited_backward b ++ visited_backward a
  | _ => [s]
  end.

Section WithDependsOn.

(** [depends_on(const stmt& s, span<const symbol_id> vars)] from
    depends_on.h, which is not part of the tree: taken as given. *)
Variable depends_on : stmt -> list symbol_id -> bool.

(** The locals of the first loop of [split_body]. *)
Record forward_state : Set := mk_forward
  { before : stmt; new_body_after : stmt; fwd_depended_on : bool }.

(** The callback of the first [for_each_stmt_forward]. *)
Definition forward_step (vars : list symbol_id) (acc : forward_state) (s : stmt)
  : forward_state :=
  if fwd_depended_on acc || depends_on s vars then
    {| before := before acc;
       new_body_after := block_make [new_body_after acc; s];
       fwd_depended_on := true |}
  else
    {| before := block_make [before acc; s];
       new_body_after := new_body_after acc;
       fwd_depended_on := fwd_depended_on acc |}.

(** The locals of the second loop of [split_body]. *)
Record backward_state : Set := mk_backward
  { new_body : stmt; after : stmt; bwd_depended_on : bool }.

(** The callback of [for_each_stmt_backward]. *)
Definition backward_step (vars : list symbol_id) (acc : backward_state) (s : stmt)
  : backward_state :=
  if negb (bwd_depended_on acc) && negb (depends_on s vars) then
    {| new_body := new_body acc;
       after := block_make [s; after acc];
       bwd_depended_on := bwd_depended_on acc |}
  else
    {| new_body := block_make [s; new_body acc];
       after := after acc;
       bwd_depended_on := true |}.

(** [scope_reducer::split_body(const stmt& body, span<const symbol_id> vars)] *)
Definition split_body (body : stmt) (vars : list symbol_id) : stmt * stmt * stmt :=
  let f := fold_left (forward_step vars) (visited_forward body)
             {| before := stmt_undef; new_body_after := stmt_undef;
                fwd_depended_on := false |} in
  let b := fold_left (backward_step vars) (visited_backward (new_body_after f))
             {| new_body := stmt_undef; after := stmt_undef;
                bwd_depended_on := false |} in
  (before f, new_body b, after b).

(** [scope_reducer::visit_stmt(const T* op)], given the node [op], its
    symbol, its body and the already mutated body. *)
Definition visit_stmt (op : stmt) (sym : symbol_id) (op_body body : stmt) : stmt :=
  let '(before, new_body, after) := split_body body [sym] in
  if stmt_eqb body op_body && negb (stmt_defined before) && negb (stmt_defined after)
  then op
  else if stmt_defined new_body then
    block_make [before; clone_with_new_body op new_body; after]
  else
    (* "The op was dead...?" *)
    block_make [before; after].

(** [scope_reducer] as a mutator: the eight scoping nodes go through
    [visit_stmt]; the other statements through [node_mutator]'s default
    visit (children mutated in order, node rebuilt). *)
Fixpoint mutate (s : stmt) : stmt :=
  match s with
  | stmt_undef => stmt_undef
  | block a b => block (mutate a) (mutate b)
  | loop sym mode bnds step body => loop sym mode bnds step (mutate body)
  | if_then_else c t e => if_then_else c (mutate t) (mutate e)
  | let_stmt sym _ body => visit_stmt s sym body (mutate body)
  | allocate sym _ _ _ body => visit_stmt s sym body (mutate body)
  | make_buffer sym _ _ _ body => visit_stmt s sym body (mutate body)
  | crop_buffer sym _ body => visit_stmt s sym body (mutate body)
  | crop_dim sym _ _ body => visit_stmt s sym body (mutate body)
  | slice_buffer sym _ body => visit_stmt s sym body (mutate body)
  | slice_dim sym _ _ body => visit_stmt s sym body (mutate body)
  | truncate_rank sym _ body => visit_stmt s sym body (mutate body)
  | call_stmt _ _ _ | copy_stmt _ _ _ _ | check _ => s
  end.

(** [stmt reduce_scopes(const stmt& s) { return scope_reducer().mutate(s); }] *)
Definition reduce_scopes (s : stmt) : stmt := mutate s.

End WithDependsOn.

(** The leaves of a list of statements. *)
Definition flat (l : list stmt) : list stmt := List.concat (map leaves l).

(** A statement the callbacks of [split_body] can receive: not a block. *)
Definition not_block (s : stmt) : Prop :=
  match s with block _ _ => False | _ => True end.

(** A statement without leaves is the undefined handle. *)
Definition compact (s : stmt) : Prop := leaves s = [] -> s = stmt_undef.

End ScopeReducer.

(* ===================================================================== *)
(** * The bounds inference source (infer_bounds.cc): bounds_inferrer      *)
(* ===================================================================== *)

Module BoundsInferrer.
Import IR SymbolMap Crop Substitutions.
Local Open Scope result_scope.

(** The members of [bounds_inferrer]. *)
Record state := mk_state
  { infer : symbol_map box_expr;
    crops : symbol_map box_expr }.

Definition with_infer (st : state) (m : symbol_map box_expr) : state :=
  {| infer := m; crops := crops st |}.
Definition with_crops (st : state) (m : symbol_map box_expr) : state :=
  {| infer := infer st; crops := m |}.

(** The substitutions [visit(const allocate* op)] collects from the
    inferred bounds, dimension [d] onwards, with the running [stride]. *)
Fixpoint allocate_substitutions (alloc_var : expr) (d : nat) (stride : expr)
    (bnds : box_expr) : list (expr * expr) :=
  match bnds with
  | [] => []
  | bounds_d :: rest =>
      let ext := extent bounds_d in
      [ (buffer_min alloc_var d, imin bounds_d);
        (buffer_max alloc_var d, imax bounds_d);
        (buffer_stride alloc_var d, stride);
        (buffer_extent alloc_var d, ext) ]
      ++ allocate_substitutions alloc_var (S d)
           (op_mul stride (slinky_min ext (buffer_fold_factor alloc_var d))) rest
  end.

(** "Substitute the allocation bounds in any remaining inferred bounds." *)
Definition substitute_interval (substitutions : list (expr * expr))
    (j : interval_expr) : interval_expr :=
  fold_left
    (fun (j : interval_expr) (k : expr * expr) =>
       {| imin := ExprOps.substitute_expr (imin j) (fst k) (snd k);
          imax := ExprOps.substitute_expr (imax j) (fst k) (snd k) |})
    substitutions j.

(** [visit(const call_stmt* op)]: "Record the bounds we currently have from
    the crops": [if (infer.contains(input)) infer[input] = crops[input]]. *)
Definition record_input (st : state) (input : symbol_id) : state :=
  if contains (infer st) input
  then with_infer st (assign (infer st) input (lookup (crops st) input))
  else st.

Section WithSimplifier.

(** [simplify(static_cast<const class min*>(nullptr), a, b)] and the same
    for [max]: the simplifier's evaluators of [min(a, b)] and [max(a, b)].
    simplify.h is not part of the tree: taken as given. *)
Variable simplify_min : expr -> expr -> expr.
Variable simplify_max : expr -> expr -> expr.

(** Leaving a loop over [sym] with bounds [lbounds], one interval of an
    inferred region: "If any of the bounds used that loop variable, we need
    to replace those uses with the bounds of the loop." *)
Definition widen (sym : symbol_id) (lbounds : interval_expr) (j : interval_expr)
  : interval_expr :=
  {| imin :=
       if ExprOps.depends_on (imin j) sym then
         simplify_min (ExprOps.substitute (imin j) sym (imin lbounds))
                      (ExprOps.substitute (imin j) sym (imax lbounds))
       else imin j;
     imax :=
       if ExprOps.depends_on (imax j) sym then
         simplify_max (ExprOps.substitute (imax j) sym (imin lbounds))
                      (ExprOps.substitute (imax j) sym (imax lbounds))
       else imax j |}.

(** The loop [for (symbol_id buf = 0; buf < infer.size(); ++buf)] at the
    end of [visit(const loop* op)], from index [buf] on: every engaged entry
    is widened and the result is wrapped in a [crop_buffer] of it. *)
Fixpoint leave_loop (sym : symbol_id) (lbounds : interval_expr) (buf : nat)
    (entries : symbol_map box_expr) (r : stmt)
  : symbol_map box_expr * stmt :=
  match entries with
  | [] => ([], r)
  | None :: rest =>
      let '(rest', r') := leave_loop sym lbounds (S buf) rest r in
      (None :: rest', r')
  | Some inferring :: rest =>
      let inferring' := map (widen sym lbounds) inferring in
      let '(rest', r') :=
        leave_loop sym lbounds (S buf) rest (crop_buffer buf inferring' r) in
      (Some inferring' :: rest', r')
  end.

(** [bounds_inferrer] as a mutator.  [fuel] bounds the iterations of
    [recursive_substitute].  Statements the class does not override go
    through [node_mutator]'s default visit (children mutated in order, node
    rebuilt; the class overrides no expression visit). *)
Fixpoint mutate (fuel : nat) (s : stmt) (st : state) {struct s}
  : result (stmt * state) :=
  match s with
  | stmt_undef => ok (stmt_undef, st)
  | block a b =>
      ' (a', st1) <- mutate fuel a st ;;
      ' (b', st2) <- mutate fuel b st1 ;;
      ok (block a' b', st2)
  | let_stmt sym value body =>
      ' (body', st1) <- mutate fuel body st ;;
      ok (let_stmt sym value body', st1)
  | loop sym mode lb step body =>
      ' (body', st1) <- mutate fuel body st ;;
      let '(infer', r) :=
        leave_loop sym lb 0 (infer st1) (loop sym mode lb step body') in
      ok (r, with_infer st1 infer')
  | if_then_else c t e =>
      ' (t', st1) <- mutate fuel t st ;;
      ' (e', st2) <- mutate fuel e st1 ;;
      ok (if_then_else c t' e', st2)
  | call_stmt _ inputs _ => ok (s, fold_left record_input inputs st)
  | copy_stmt src _ _ _ => ok (s, record_input st src)
  | allocate sym storage elem_size dims body =>
      let old := lookup (infer st) sym in
      ' (body', st1) <- mutate fuel body
          (with_infer st (assign (infer st) sym (Some []))) ;;
      match lookup (infer st1) sym with
      | None => failed null_dereference
      | Some bnds =>
          let substitutions :=
            allocate_substitutions (variable sym) 0 (constant elem_size) bnds in
          dims' <- recursive_substitute fuel dims substitutions ;;
          (* the checks of the allocation's own bounds are commented out *)
          let checks : list stmt := [] in
          let infer' :=
            update_all (map (substitute_interval substitutions)) (infer st1) in
          let s' := allocate sym storage elem_size dims' body' in
          (* [block::make(block::make(checks), s)]: the two-argument
             [block::make] builds the node whatever its operands are *)
          ok (block (block_make checks) s',
              with_infer st1 (assign infer' sym old))
      end
  | make_buffer sym base elem_size dims body =>
      ' (body', st1) <- mutate fuel body st ;;
      ok (make_buffer sym base elem_size dims body', st1)
  | crop_buffer sym cb body =>
      let old := lookup (crops st) sym in
      let crop := merge_crop old cb in
      ' (body', st1) <- mutate fuel body
          (with_crops st (assign (crops st) sym crop)) ;;
      ok (crop_buffer sym cb body',
          with_crops st1 (assign (crops st1) sym old))
  | crop_dim sym d db body =>
      let old := lookup (crops st) sym in
      let crop := merge_crop_dim old d db in
      ' (body', st1) <- mutate fuel body
          (with_crops st (assign (crops st) sym crop)) ;;
      ok (crop_dim sym d db body',
          with_crops st1 (assign (crops st1) sym old))
  | slice_buffer _ _ _ => failed aborted
  | slice_dim _ _ _ _ => failed aborted
  | truncate_rank _ _ _ => failed aborted
  | check _ => ok (s, st)
  end.

(** The three checks [infer_bounds] emits for dimension [d] of the inferred
    region of input [i]; [a >= b] is the node [b <= a]. *)
Definition dim_checks (buf_var : expr) (d : nat) (b : interval_expr) : list stmt :=
  [ check (op_le (buffer_min buf_var d) (imin b));
    check (op_ge (buffer_max buf_var d) (imax b));
    check (op_le (extent b) (buffer_fold_factor buf_var d)) ].

Fixpoint region_checks (buf_var : expr) (d : nat) (bnds : box_expr) : list stmt :=
  match bnds with
  | [] => []
  | b :: rest => dim_checks buf_var d b ++ region_checks buf_var (S d) rest
  end.

(** The loop over the inputs in [infer_bounds]; [*infer.infer[i]]
    dereferences the entry of the input. *)
Fixpoint input_checks (m : symbol_map box_expr) (inputs : list symbol_id)
  : result (list stmt) :=
  match inputs with
  | [] => ok []
  | i :: rest =>
      match lookup m i with
      | None => failed null_dereference
      | Some bnds =>
          cs <- input_checks m rest ;;
          ok (region_checks (variable i) 0 bnds ++ cs)
      end
  end.

(** "Tell the bounds inferrer that we are inferring the bounds of the
    inputs too": [infer.infer[i] = box_expr()] for every input. *)
Definition initial (inputs : list symbol_id) : state :=
  {| infer := fold_left (fun m i => assign m i (Some [])) inputs [];
     crops := [] |}.

(** [stmt infer_bounds(const stmt& s, const std::vector<symbol_id>& inputs)]
    (the function of the anonymous namespace). *)
Definition infer_bounds (fuel : nat) (s : stmt) (inputs : list symbol_id)
  : result stmt :=
  ' (r, st) <- mutate fuel s (initial inputs) ;;
  checks <- input_checks (infer st) inputs ;;
  ok (block (block_make checks) r).

End WithSimplifier.

(** The engaged entries of a symbol map with their ids, from id [buf] on. *)
Fixpoint engaged {T} (buf : nat) (m : symbol_map T) : list (nat * T) :=
  match m with
  | [] => []
  | None :: rest => engaged (S buf) rest
  | Some x :: rest => (buf, x) :: engaged (S buf) rest
  end.

(** [r] wrapped in one [crop_buffer] per pair, the first pair innermost. *)
Definition wrap_crops (l : list (symbol_id * box_expr)) (r : stmt) : stmt :=
  fold_left (fun acc p => crop_buffer (fst p) (snd p) acc) l r.

(** The checks of the inputs, given the region inferred for each. *)
Fixpoint checks_of (inputs : list symbol_id) (regions : list box_expr) : list stmt :=
  match inputs, regions with
  | i :: inputs', reg :: regions' =>
      region_checks (variable i) 0 reg ++ checks_of inputs' regions'
  | _, _ => []
  end.



End BoundsInferrer.

(* ===================================================================== *)
(** * expr.cc : node_context                                              *)
(* ===================================================================== *)

Module NodeContext.
Import IR.

(** [class node_context { std::map<std::string, symbol_id> name_to_id;
                          std::vector<std::string> id_to_name; }] *)
Record node_context : Set := mk_context
  { name_to_id : list (string * symbol_id);
    id_to_name : list string }.

Definition to_string (n : nat) : string :=
  DecimalString.NilEmpty.string_of_uint (Nat.to_uint n).

(** [name_to_id.find(name)] *)
Fixpoint find (m : list (string * symbol_id)) (name : string) : option symbol_id :=
  match m with
  | [] => None
  | (k, v) :: m' => if String.eqb k name then Some v else find m' name
  end.

(** [node_context::name(symbol_id i)] *)
Definition name (ctx : node_context) (i : symbol_id) : string :=
  if i <? List.length (id_to_name ctx) then nth i (id_to_name ctx) EmptyString
  else ("<" ++ to_string i ++ ">")%string.

(** [node_context::insert(const std::string& name)]: "Get or insert a new
    symbol_id for a name". *)
Definition insert (ctx : node_context) (nm : string) : node_context * symbol_id :=
  match find (name_to_id ctx) nm with
  | None =>
      let id := List.length (id_to_name ctx) in
      ({| name_to_id := (nm, id) :: name_to_id ctx;
          id_to_name := (id_to_name ctx ++ [nm])%list |}, id)
  | Some i => (ctx, i)
  end.

End NodeContext.

(* ===================================================================== *)
(** * The bounds inference source: slide_and_fold_storage                 *)
(* ===================================================================== *)

Module SlideAndFold.
Import IR SymbolMap Crop Substitutions NodeContext.
Local Open Scope result_scope.

(** [struct loop_info { symbol_id sym; expr orig_min; interval_expr bounds;
                        expr step; }] *)
Record loop_info : Set := mk_loop_info
  { li_sym : symbol_id; orig_min : expr; li_bounds : interval_expr; li_step : expr }.

(** The members of [slide_and_fold_storage] that change during the pass. *)
Record state := mk_state
  { ctx : node_context;
    buffer_bounds : symbol_map box_expr;
    fold_factors : symbol_map (nat * expr);
    loops : list loop_info }.

Definition with_ctx (st : state) (c : node_context) : state :=
  {| ctx := c; buffer_bounds := buffer_bounds st;
     fold_factors := fold_factors st; loops := loops st |}.
Definition with_buffer_bounds (st : state) (m : symbol_map box_expr) : state :=
  {| ctx := ctx st; buffer_bounds := m;
     fold_factors := fold_factors st; loops := loops st |}.
Definition with_fold_factors (st : state) (m : symbol_map (nat * expr)) : state :=
  {| ctx := ctx st; buffer_bounds := buffer_bounds st;
     fold_factors := m; loops := loops st |}.
Definition with_loops (st : state) (l : list loop_info) : state :=
  {| ctx := ctx st; buffer_bounds := buffer_bounds st;
     fold_factors := fold_factors st; loops := l |}.

(** [v[n] = f(v[n])] for an index inside the vector. *)
Fixpoint list_update {A} (l : list A) (n : nat) (f : A -> A) : list A :=
  match l, n with
  | [], _ => []
  | x :: l', O => f x :: l'
  | x :: l', S k => x :: list_update l' k f
  end.

Definition set_loop_min (e : expr) (l : loop_info) : loop_info :=
  {| li_sym := li_sym l; orig_min := orig_min l;
     li_bounds := {| imin := e; imax := imax (li_bounds l) |};
     li_step := li_step l |}.

(** [substitute_bounds(box_expr& bounds, const symbol_map<box_expr>& buffers)],
    the loop over the buffers from index [i] on. *)
Fixpoint substitute_bounds_from (i : nat) (bnds : box_expr)
    (buffers : symbol_map box_expr) : box_expr :=
  match buffers with
  | [] => bnds
  | None :: rest => substitute_bounds_from (S i) bnds rest
  | Some b :: rest =>
      substitute_bounds_from (S i)
        (map (fun j =>
                {| imin := if defined (imin j)
                           then ExprOps.substitute_bounds (imin j) i b else imin j;
                   imax := if defined (imax j)
                           then ExprOps.substitute_bounds (imax j) i b else imax j |})
             bnds)
        rest
  end.

Definition substitute_bounds (bnds : box_expr) (buffers : symbol_map box_expr)
  : box_expr := substitute_bounds_from 0 bnds buffers.

(** The replacements of [visit(const allocate* op)] for the dimensions
    [d, d + 1, ...]: the recorded fold factor for its dimension, infinity
    for the others. *)
Fixpoint fold_replacements (alloc_var : expr) (fold_info : option (nat * expr))
    (d count : nat) : list (expr * expr) :=
  match count with
  | O => []
  | S c =>
      (match fold_info with
       | Some (fd, ff) =>
           if Nat.eqb fd d then (buffer_fold_factor alloc_var d, ff)
           else (buffer_fold_factor alloc_var d, positive_infinity)
       | None => (buffer_fold_factor alloc_var d, positive_infinity)
       end) :: fold_replacements alloc_var fold_info (S d) c
  end.

(** "Replace infinite fold factors with undefined." *)
Definition erase_infinite_fold (d : dim_expr) : dim_expr :=
  if is_positive_infinity (fold_factor d)
  then {| bounds := bounds d; stride := stride d; fold_factor := expr_undef |}
  else d.

(** Whether the loop over the dimensions goes on or was left by [break]. *)
Inductive dim_flow : Set := next_dim | break_dims.

Section WithOracles.

(** The simplifier's entry points the pass calls; simplify.h is not part
    of the tree: taken as given. *)
Variable prove_true : expr -> bool.
Variable simplify : expr -> expr.
Variable bounds_of : expr -> interval_expr.
Variable where_true : expr -> symbol_id -> interval_expr.

(** [align_up(x, a)] of util.h, as an expression; not part of the tree. *)
Variable align_up : expr -> expr -> expr.

(** The member [var x] ("We need an unknown to make equations of"). *)
Variable x : symbol_id.

(** [ignore_loop_max]: [substitute(e, loop_max, positive_infinity())]. *)
Definition ignore_loop_max (loop_max e : expr) : expr :=
  ExprOps.substitute_expr e loop_max positive_infinity.

(** [prev_bounds_d]: the bounds with [loop_var - loop_step] for the loop
    variable. *)
Definition prev_bounds (cur : interval_expr) (l : loop_info) : interval_expr :=
  {| imin := ExprOps.substitute (imin cur) (li_sym l)
               (op_sub (variable (li_sym l)) (li_step l));
     imax := ExprOps.substitute (imax cur) (li_sym l)
               (op_sub (variable (li_sym l)) (li_step l)) |}.

Definition is_monotonic_increasing (prev cur : interval_expr) : expr :=
  op_and (op_le (imin prev) (imin cur)) (op_le (imax prev) (imax cur)).
Definition is_monotonic_decreasing (prev cur : interval_expr) : expr :=
  op_and (op_ge (imin prev) (imin cur)) (op_ge (imax prev) (imax cur)).

(** [simplify(bounds_of(ignore_loop_max(cur_bounds_d.extent())).max)] *)
Definition extent_bound (cur : interval_expr) (l : loop_info) : expr :=
  simplify (imax (bounds_of (ignore_loop_max (imax (li_bounds l)) (extent cur)))).

(** [new_min]: [simplify(prev_bounds_d.max + 1)]. *)
Definition slid_min (cur : interval_expr) (l : loop_info) : expr :=
  simplify (op_add (imax (prev_bounds cur l)) (constant 1%Z)).

(** [new_loop_min]: [where_true(ignore_loop_max(new_min_at_new_loop_min <=
    old_min_at_loop_min), x.sym()).max]. *)
Definition solved_loop_min (cur : interval_expr) (l : loop_info) : expr :=
  imax (where_true
          (ignore_loop_max (imax (li_bounds l))
             (op_le (ExprOps.substitute (slid_min cur l) (li_sym l) (variable x))
                    (ExprOps.substitute (imin cur) (li_sym l) (imin (li_bounds l)))))
          x).

Definition record_fold (st : state) (output : symbol_id) (d : nat) (ff : expr)
  : state :=
  with_fold_factors st (assign (fold_factors st) output (Some (d, ff))).

Definition set_bounds_min (st : state) (output : symbol_id) (bnds : box_expr)
    (d : nat) (e : expr) : state :=
  with_buffer_bounds st
    (assign (buffer_bounds st) output (Some (list_update bnds d (set_min e)))).

(** The body of the loop over [d] in [visit_call_or_copy], for the output
    [output] with bounds [bnds], the loop [l = loops[op]] and the dimension
    [d] with bounds [cur]. *)
Definition slide_dim (output : symbol_id) (op : nat) (l : loop_info)
    (bnds : box_expr) (d : nat) (cur : interval_expr) (st : state)
  : state * dim_flow :=
  let loop_sym := li_sym l in
  let loop_max := imax (li_bounds l) in
  if negb (ExprOps.interval_depends_on cur loop_sym) then (st, next_dim)
  else
    let prev := prev_bounds cur l in
    let overlap := interval_and prev cur in
    if prove_true (ignore_loop_max loop_max (interval_empty overlap)) then
      (* no overlap: fold only *)
      let ff := extent_bound cur l in
      (if negb (ExprOps.depends_on ff loop_sym) then record_fold st output d ff else st,
       next_dim)
    else if prove_true (ignore_loop_max loop_max (is_monotonic_increasing prev cur)) then
      let old_min := imin cur in
      let new_min := slid_min cur l in
      let ff := extent_bound cur l in
      let st1 :=
        if negb (ExprOps.depends_on ff loop_sym)
        then record_fold st output d (simplify (align_up ff (li_step l)))
        else st in
      let new_loop_min := solved_loop_min cur l in
      if negb (is_negative_infinity new_loop_min) then
        (set_bounds_min
           (with_loops st1 (list_update (loops st1) op (set_loop_min new_loop_min)))
           output bnds d new_min,
         break_dims)
      else
        (set_bounds_min st1 output bnds d
           (select (op_eq (variable loop_sym) (orig_min l)) old_min new_min),
         break_dims)
    else if prove_true (ignore_loop_max loop_max (is_monotonic_decreasing prev cur)) then
      (st, next_dim)
    else (st, next_dim).

(** [for (int d = 0; d < bounds->size(); ++d)], from [d] on, [count]
    dimensions left; [bounds] and [loops[op]] are read afresh each time. *)
Fixpoint slide_dims (output : symbol_id) (op : nat) (d count : nat) (st : state)
  : state :=
  match count with
  | O => st
  | S c =>
      match lookup (buffer_bounds st) output, nth_error (loops st) op with
      | Some bnds, Some l =>
          match nth_error bnds d with
          | Some cur =>
              let '(st', fl) := slide_dim output op l bnds d cur st in
              match fl with
              | break_dims => st'
              | next_dim => slide_dims output op (S d) c st'
              end
          | None => st
          end
      | _, _ => st
      end
  end.

(** [for (std::size_t op = 0; op < loops.size(); ++op)] *)
Fixpoint slide_loops (output : symbol_id) (op count : nat) (st : state) : state :=
  match count with
  | O => st
  | S c =>
      let n := match lookup (buffer_bounds st) output with
               | Some bnds => List.length bnds
               | None => 0
               end in
      slide_loops output (S op) c (slide_dims output op 0 n st)
  end.

(** [visit_call_or_copy(op, outputs)]: the statement is returned as it is;
    outputs without bounds are skipped. *)
Definition visit_call_or_copy (outputs : list symbol_id) (st : state) : state :=
  fold_left
    (fun st output =>
       match lookup (buffer_bounds st) output with
       | None => st
       | Some _ => slide_loops output 0 (List.length (loops st)) st
       end)
    outputs st.

(** [slide_and_fold_storage] as a mutator; [fuel] bounds the iterations of
    [recursive_substitute].  [loop_min.same_as(orig_min)] compares the loop
    min left on the stack with the variable pushed on entry. *)
Fixpoint mutate (fuel : nat) (s : stmt) (st : state) {struct s}
  : result (stmt * state) :=
  match s with
  | stmt_undef => ok (stmt_undef, st)
  | block a b =>
      (* "Visit blocks in reverse order." *)
      ' (b', st1) <- mutate fuel b st ;;
      ' (a', st2) <- mutate fuel a st1 ;;
      ok (block a' b', st2)
  | let_stmt sym value body =>
      ' (body', st1) <- mutate fuel body st ;;
      ok (let_stmt sym value body', st1)
  | loop sym mode lb step body =>
      match mode with
      | parallel =>
          (* "Don't try sliding window or storage folding on parallel loops." *)
          ' (body', st1) <- mutate fuel body st ;;
          ok (loop sym mode lb step body', st1)
      | serial =>
          let '(ctx1, orig_min_sym) :=
            insert (ctx st) (name (ctx st) sym ++ ".min_orig")%string in
          let orig_min := variable orig_min_sym in
          let pushed :=
            {| li_sym := sym; orig_min := orig_min;
               li_bounds := {| imin := orig_min; imax := imax lb |};
               li_step := step |} in
          ' (body', st1) <- mutate fuel body
              (with_loops (with_ctx st ctx1) (loops st ++ [pushed])) ;;
          let loop_min0 := imin (li_bounds (last (loops st1) pushed)) in
          let st2 := with_loops st1 (removelast (loops st1)) in
          let loop_min := if expr_eqb loop_min0 orig_min then imin lb else loop_min0 in
          if negb (is_variable loop_min orig_min_sym)
             || ExprOps.stmt_depends_on body' [orig_min_sym]
          then
            (* "We rewrote or used the loop min." *)
            ok (let_stmt orig_min_sym (imin lb)
                  (loop sym mode {| imin := loop_min; imax := imax lb |} step body'),
                st2)
          else ok (loop sym mode lb step body', st2)
      end
  | if_then_else c t e =>
      ' (t', st1) <- mutate fuel t st ;;
      ' (e', st2) <- mutate fuel e st1 ;;
      ok (if_then_else c t' e', st2)
  | call_stmt _ _ outputs => ok (s, visit_call_or_copy outputs st)
  | copy_stmt _ _ dst _ => ok (s, visit_call_or_copy [dst] st)
  | allocate sym storage elem_size dims body =>
      let old := lookup (buffer_bounds st) sym in
      ' (body', st1) <- mutate fuel body
          (with_buffer_bounds st
             (assign (buffer_bounds st) sym (Some (map bounds dims)))) ;;
      let fold_info := lookup (fold_factors st1) sym in
      let replacements :=
        fold_replacements (variable sym) fold_info 0 (List.length dims) in
      dims' <- recursive_substitute fuel dims replacements ;;
      ok (allocate sym storage elem_size (map erase_infinite_fold dims') body',
          with_buffer_bounds st1 (assign (buffer_bounds st1) sym old))
  | make_buffer sym base elem_size dims body =>
      ' (body', st1) <- mutate fuel body st ;;
      ok (make_buffer sym base elem_size dims body', st1)
  | crop_buffer sym cb body =>
      let old := lookup (buffer_bounds st) sym in
      let bnds :=
        option_map (fun b => substitute_bounds b (buffer_bounds st))
                   (merge_crop old cb) in
      ' (body', st1) <- mutate fuel body
          (with_buffer_bounds st (assign (buffer_bounds st) sym bnds)) ;;
      let r :=
        match lookup (buffer_bounds st1) sym with
        | Some new_bounds => crop_buffer sym new_bounds body'
        | None => crop_buffer sym cb body'
        end in
      ok (r, with_buffer_bounds st1 (assign (buffer_bounds st1) sym old))
  | crop_dim sym d db body =>
      let old := lookup (buffer_bounds st) sym in
      match merge_crop_dim old d db with
      | None => failed null_dereference
      | Some b =>
          let bnds := substitute_bounds b (buffer_bounds st) in
          ' (body', st1) <- mutate fuel body
              (with_buffer_bounds st (assign (buffer_bounds st) sym (Some bnds))) ;;
          match lookup (buffer_bounds st1) sym with
          | None => failed null_dereference
          | Some nb =>
              match nth_error nb d with
              | None => failed null_dereference
              | Some new_bounds =>
                  ok (crop_dim sym d new_bounds body',
                      with_buffer_bounds st1 (assign (buffer_bounds st1) sym old))
              end
          end
      end
  | slice_buffer _ _ _ => failed aborted
  | slice_dim _ _ _ _ => failed aborted
  | truncate_rank _ _ _ => failed aborted
  | check _ => ok (s, st)
  end.


End WithOracles.

(** What identifies a loop on the stack of candidate loops: everything
    but its min, which sliding may rewrite. *)
Definition shape (l : loop_info) : symbol_id * expr * expr * expr :=
  (li_sym l, orig_min l, imax (li_bounds l), li_step l).

End SlideAndFold.

(* ===================================================================== *)
(** * expr.cc : the other members of node_context, make_variable          *)
(* ===================================================================== *)

Module NodeContextOps.
Import IR NodeContext.

(** [name_to_id[name] = id] on the [std::map]: the entry of [name] is
    replaced when there is one, added otherwise. *)
Definition map_set (m : list (string * symbol_id)) (nm : string) (id : symbol_id)
  : list (string * symbol_id) :=
  (nm, id) :: filter (fun kv => negb (String.eqb (fst kv) nm)) m.

(** [symbol_id node_context::insert()]: a new id under the name ["t<id>"],
    whatever the map held for that name. *)
Definition insert_unnamed (ctx : node_context) : node_context * symbol_id :=
  let id := List.length (id_to_name ctx) in
  let nm := ("t" ++ to_string id)%string in
  ({| name_to_id := map_set (name_to_id ctx) nm id;
      id_to_name := (id_to_name ctx ++ [nm])%list |}, id).

(** [symbol_id node_context::lookup(const std::string& name) const]: the id
    of the name; [None] stands for the [-1] the source returns for a name
    that is not in the map. *)
Definition lookup (ctx : node_context) (nm : string) : option symbol_id :=
  match find (name_to_id ctx) nm with
  | Some i => Some i
  | None => None
  end.

(** [expr make_variable(node_context& ctx, const std::string& name)
       { return variable::make(ctx.insert(name)); }] *)
Definition make_variable (ctx : node_context) (nm : string) : node_context * expr :=
  let '(ctx', id) := insert ctx nm in (ctx', variable id).

(** The two members of a context describe one bijection between names and
    ids ("A node_context uniquely maps strings to symbol_id"). *)
Definition consistent (ctx : node_context) : Prop :=
  forall nm i,
    find (name_to_id ctx) nm = Some i <-> nth_error (id_to_name ctx) i = Some nm.

(** [node_context ctx;] *)
Definition empty : node_context := {| name_to_id := []; id_to_name := [] |}.

End NodeContextOps.

(* ===================================================================== *)
(** * expr.cc : stmt::stmt(std::initializer_list<stmt>)                   *)
(* ===================================================================== *)

Module StmtInit.
Import IR.

(** The body of the loop of the constructor:
    [if (result.defined()) result = block::make(result, i); else result = i;] *)
Definition stmt_init_step (result i : stmt) : stmt :=
  if stmt_defined result then block result i else i.

(** [stmt::stmt(std::initializer_list<stmt> stmts)]: the statements folded
    from the left into two-element blocks, starting from the undefined
    handle. *)
Definition stmt_init (stmts : list stmt) : stmt :=
  fold_left stmt_init_step stmts stmt_undef.

End StmtInit.

(* ===================================================================== *)
(** * The bounds inference source: input_crop_remover                     *)
(* ===================================================================== *)

Module InputCropRemover.
Import IR SymbolMap.
Local Open Scope result_scope.

(** The member of [input_crop_remover]: [symbol_map<bool> used_as_output]. *)
Definition state := symbol_map bool.

(** [for (symbol_id i : op->outputs) used_as_output[i] = true;] *)
Definition mark_outputs (outputs : list symbol_id) (st : state) : state :=
  fold_left (fun m i => assign m i (Some true)) outputs st.

(** The end of [visit_crop(const T* op)], after the body was mutated to
    [body] in the state [st1]; [old_value] is the entry of [sym] on entry
    and [op] the crop rebuilt around [body].  [*used_as_output[op->sym]]
    dereferences the entry. *)
Definition leave_crop (sym : symbol_id) (old_value : option bool) (op body : stmt)
    (st1 : state) : result (stmt * state) :=
  match lookup st1 sym with
  | None => failed null_dereference
  | Some false => ok (body, assign st1 sym old_value)
  | Some true => ok (op, assign st1 sym (Some true))
  end.

(** [input_crop_remover] as a mutator: calls and copies mark what they
    write, [crop_buffer] and [crop_dim] go through [visit_crop], and the
    other statements through [node_mutator]'s default visit (children
    mutated in order, node rebuilt). *)
Fixpoint mutate (s : stmt) (st : state) {struct s} : result (stmt * state) :=
  match s with
  | stmt_undef => ok (stmt_undef, st)
  | block a b =>
      ' (a', st1) <- mutate a st ;;
      ' (b', st2) <- mutate b st1 ;;
      ok (block a' b', st2)
  | let_stmt sym value body =>
      ' (body', st1) <- mutate body st ;;
      ok (let_stmt sym value body', st1)
  | loop sym mode bnds step body =>
      ' (body', st1) <- mutate body st ;;
      ok (loop sym mode bnds step body', st1)
  | if_then_else c t e =>
      ' (t', st1) <- mutate t st ;;
      ' (e', st2) <- mutate e st1 ;;
      ok (if_then_else c t' e', st2)
  | call_stmt _ _ outputs => ok (s, mark_outputs outputs st)
  | copy_stmt _ _ dst _ => ok (s, assign st dst (Some true))
  | allocate sym storage elem_size dims body =>
      ' (body', st1) <- mutate body st ;;
      ok (allocate sym storage elem_size dims body', st1)
  | make_buffer sym base elem_size dims body =>
      ' (body', st1) <- mutate body st ;;
      ok (make_buffer sym base elem_size dims body', st1)
  | crop_buffer sym cb body =>
      let old_value := lookup st sym in
      ' (body', st1) <- mutate body (assign st sym (Some false)) ;;
      leave_crop sym old_value (crop_buffer sym cb body') body' st1
  | crop_dim sym d db body =>
      let old_value := lookup st sym in
      ' (body', st1) <- mutate body (assign st sym (Some false)) ;;
      leave_crop sym old_value (crop_dim sym d db body') body' st1
  | slice_buffer sym a body =>
      ' (body', st1) <- mutate body st ;;
      ok (slice_buffer sym a body', st1)
  | slice_dim sym d a body =>
      ' (body', st1) <- mutate body st ;;
      ok (slice_dim sym d a body', st1)
  | truncate_rank sym r body =>
      ' (body', st1) <- mutate body st ;;
      ok (truncate_rank sym r body', st1)
  | check _ => ok (s, st)
  end.

(** [input_crop_remover().mutate(result)] *)
Definition remove_input_crops (s : stmt) : result stmt :=
  ' (r, _) <- mutate s [] ;; ok r.

(** Whether a call of [s] has [sym] among its outputs or a copy of [s]
    has it as its destination. *)
Fixpoint written (s : stmt) (sym : symbol_id) {struct s} : bool :=
  match s with
  | stmt_undef => false
  | block a b => written a sym || written b sym
  | let_stmt _ _ body => written body sym
  | loop _ _ _ _ body => written body sym
  | if_then_else _ t e => written t sym || written e sym
  | call_stmt _ _ outputs => existsb (Nat.eqb sym) outputs
  | copy_stmt _ _ dst _ => Nat.eqb sym dst
  | allocate _ _ _ _ body => written body sym
  | make_buffer _ _ _ _ body => written body sym
  | crop_buffer _ _ body => written body sym
  | crop_dim _ _ _ body => written body sym
  | slice_buffer _ _ body => written body sym
  | slice_dim _ _ _ body => written body sym
  | truncate_rank _ _ body => written body sym
  | check _ => false
  end.

(** The statement without the crops of buffers that nothing inside the
    crop writes. *)
Fixpoint without_unwritten_crops (s : stmt) : stmt :=
  match s with
  | stmt_undef => stmt_undef
  | block a b => block (without_unwritten_crops a) (without_unwritten_crops b)
  | let_stmt sym value body => let_stmt sym value (without_unwritten_crops body)
  | loop sym mode bnds step body =>
      loop sym mode bnds step (without_unwritten_crops body)
  | if_then_else c t e =>
      if_then_else c (without_unwritten_crops t) (without_unwritten_crops e)
  | call_stmt _ _ _ => s
  | copy_stmt _ _ _ _ => s
  | allocate sym storage elem_size dims body =>
      allocate sym storage elem_size dims (without_unwritten_crops body)
  | make_buffer sym base elem_size dims body =>
      make_buffer sym base elem_size dims (without_unwritten_crops body)
  | crop_buffer sym cb body =>
      if written body sym then crop_buffer sym cb (without_unwritten_crops body)
      else without_unwritten_crops body
  | crop_dim sym d db body =>
      if written body sym then crop_dim sym d db (without_unwritten_crops body)
      else without_unwritten_crops body
  | slice_buffer sym a body => slice_buffer sym a (without_unwritten_crops body)
  | slice_dim sym d a body => slice_dim sym d a (without_unwritten_crops body)
  | truncate_rank sym r body => truncate_rank sym r (without_unwritten_crops body)
  | check _ => s
  end.

End InputCropRemover.

(* ===================================================================== *)
(** * Shapes of statements the facts about the passes speak of            *)
(* ===================================================================== *)

Module Shapes.
Import IR.

(** A statement without [slice_buffer], [slice_dim] and [truncate_rank]
    nodes. *)
Fixpoint slice_free (s : stmt) : bool :=
  match s with
  | block a b => slice_free a && slice_free b
  | let_stmt _ _ body => slice_free body
  | loop _ _ _ _ body => slice_free body
  | if_then_else _ t e => slice_free t && slice_free e
  | allocate _ _ _ _ body => slice_free body
  | make_buffer _ _ _ _ body => slice_free body
  | crop_buffer _ _ body => slice_free body
  | crop_dim _ _ _ body => slice_free body
  | slice_buffer _ _ _ => false
  | slice_dim _ _ _ _ => false
  | truncate_rank _ _ _ => false
  | _ => true
  end.

(** The calls, copies and checks of a statement, in program order. *)
Fixpoint operations (s : stmt) : list stmt :=
  match s with
  | stmt_undef => []
  | block a b => operations a ++ operations b
  | let_stmt _ _ body => operations body
  | loop _ _ _ _ body => operations body
  | if_then_else _ t e => operations t ++ operations e
  | call_stmt _ _ _ => [s]
  | copy_stmt _ _ _ _ => [s]
  | allocate _ _ _ _ body => operations body
  | make_buffer _ _ _ _ body => operations body
  | crop_buffer _ _ body => operations body
  | crop_dim _ _ _ body => operations body
  | slice_buffer _ _ body => operations body
  | slice_dim _ _ _ body => operations body
  | truncate_rank _ _ body => operations body
  | check _ => [s]
  end.

(** [r] is [s] up to allocations rebound by the aliaser: every node of [s]
    is in [r] with the same fields, except that an [allocate] of [sym] may
    have become [let sym = target] for an output [target] of a call inside
    that allocation. *)
Fixpoint aliased_from (s r : stmt) {struct s} : Prop :=
  match s with
  | stmt_undef => r = stmt_undef
  | block a b =>
      exists a' b', r = block a' b' /\ aliased_from a a' /\ aliased_from b b'
  | let_stmt sym value body =>
      exists body', r = let_stmt sym value body' /\ aliased_from body body'
  | loop sym mode bnds step body =>
      exists body', r = loop sym mode bnds step body' /\ aliased_from body body'
  | if_then_else c t e =>
      exists t' e', r = if_then_else c t' e' /\ aliased_from t t' /\ aliased_from e e'
  | call_stmt _ _ _ => r = s
  | copy_stmt _ _ _ _ => r = s
  | allocate sym storage elem_size dims body =>
      exists body',
        aliased_from body body'
        /\ (r = allocate sym storage elem_size dims body'
            \/ exists target,
                 In target (Aliaser.outputs_of body)
                 /\ r = let_stmt sym (variable target) body')
  | make_buffer sym base elem_size dims body =>
      exists body', r = make_buffer sym base elem_size dims body'
                    /\ aliased_from body body'
  | crop_buffer sym cb body =>
      exists body', r = crop_buffer sym cb body' /\ aliased_from body body'
  | crop_dim sym d db body =>
      exists body', r = crop_dim sym d db body' /\ aliased_from body body'
  | slice_buffer _ _ _ => False
  | slice_dim _ _ _ _ => False
  | truncate_rank _ _ _ => False
  | check _ => r = s
  end.

(** Where a candidate of a buffer can come from: it was a candidate
    before, or it is one of [produced]. *)
Definition candidates_from (st st' : Aliaser.state) (produced : list symbol_id) : Prop :=
  forall b info' c,
    SymbolMap.lookup (Aliaser.alias_info st') b = Some info' -> In c (Aliaser.alias_candidates info') ->
    In c produced
    \/ exists info, SymbolMap.lookup (Aliaser.alias_info st) b = Some info /\ In c (Aliaser.alias_candidates info).

(** What a call or copy producing [outputs] may change in the state of
    slide-and-fold: loop mins, the mins of the regions of [outputs] and
    the fold factors of [outputs].  The loops on the stack, the context,
    every max and the rank of every region, and the regions and fold
    factors of the other buffers stay. *)
Definition slid_from (outputs : list symbol_id) (st st' : SlideAndFold.state)
  : Prop :=
  map SlideAndFold.shape (SlideAndFold.loops st')
  = map SlideAndFold.shape (SlideAndFold.loops st)
  /\ SlideAndFold.ctx st' = SlideAndFold.ctx st
  /\ (forall b,
        option_map (map imax) (SymbolMap.lookup (SlideAndFold.buffer_bounds st') b)
        = option_map (map imax) (SymbolMap.lookup (SlideAndFold.buffer_bounds st) b))
  /\ (forall b, ~ In b outputs ->
        SymbolMap.lookup (SlideAndFold.buffer_bounds st') b
        = SymbolMap.lookup (SlideAndFold.buffer_bounds st) b
        /\ SymbolMap.lookup (SlideAndFold.fold_factors st') b
           = SymbolMap.lookup (SlideAndFold.fold_factors st) b).

(** [t + c + ... + c] with [k] summands [c]. *)
Fixpoint padded (t : expr) (c : Z) (k : nat) : expr :=
  match k with
  | O => t
  | S k' => op_add (padded t c k') (constant c)
  end.

End Shapes.

(* ===================================================================== *)
(** * A small instance of the simplifier's entry points                   *)
(* ===================================================================== *)

(** simplify.h is not part of the tree.  The concrete runs of slide-and-fold
    below use this instance: linear arithmetic with constant folding, sound
    for the evaluation of [ExprOps] (see [SampleSimplifierFacts]) and far
    weaker than the real simplifier. *)
Module SampleSimplifier.
Import IR.

(** A linear form: the coefficient of each listed variable, and a
    constant. *)
Definition linear := (list (symbol_id * Z) * Z)%type.

Definition scale (k : Z) (l : linear) : linear :=
  (map (fun t => (fst t, (k * snd t)%Z)) (fst l), (k * snd l)%Z).

Definition plus (a b : linear) : linear :=
  ((fst a ++ fst b)%list, (snd a + snd b)%Z).

Fixpoint linearize (e : expr) : option linear :=
  match e with
  | variable v => Some ([(v, 1%Z)], 0%Z)
  | constant c => Some ([], c)
  | binary add a b =>
      match linearize a, linearize b with
      | Some la, Some lb => Some (plus la lb)
      | _, _ => None
      end
  | binary sub a b =>
      match linearize a, linearize b with
      | Some la, Some lb => Some (plus la (scale (-1) lb))
      | _, _ => None
      end
  | binary mul a (constant k) =>
      match linearize a with
      | Some la => Some (scale k la)
      | None => None
      end
  | _ => None
  end.

Fixpoint find_term (ts : list (symbol_id * Z)) (v : symbol_id)
  : option Z :=
  match ts with
  | [] => None
  | (w, k) :: ts' => if Nat.eqb w v then Some k else find_term ts' v
  end.

(** Adds a term to a list of terms with distinct variables. *)
Fixpoint add_term (t : symbol_id * Z) (ts : list (symbol_id * Z))
  : list (symbol_id * Z) :=
  match ts with
  | [] => [t]
  | (w, j) :: ts' =>
      if Nat.eqb w (fst t) then (w, (j + snd t)%Z) :: ts'
      else (w, j) :: add_term t ts'
  end.

(** One term per variable. *)
Definition normalize (ts : list (symbol_id * Z)) : list (symbol_id * Z) :=
  fold_right add_term [] ts.

Definition found (o : option Z) : Z :=
  match o with Some k => k | None => 0%Z end.

(** The coefficient of [v] in a list of terms. *)
Definition coefficient (ts : list (symbol_id * Z)) (v : symbol_id) : Z :=
  found (find_term (normalize ts) v).

(** Every variable of the form has coefficient 0. *)
Definition constant_form (l : linear) : bool :=
  forallb (fun t => (snd t =? 0)%Z) (normalize (fst l)).

(** No variable, no buffer metadata: the expression has one value. *)
Fixpoint closed (e : expr) : bool :=
  match e with
  | constant _ => true
  | binary _ a b => closed a && closed b
  | logical_not a => closed a
  | select c t f => closed c && closed t && closed f
  | _ => false
  end.

(** [simplify(e)]: a constant when the expression is closed or its linear
    form is constant, the expression itself otherwise. *)
Definition simplify (e : expr) : expr :=
  if closed e then
    match ExprOps.eval (fun _ => 0%Z) e with
    | Some c => constant c
    | None => e
    end
  else
    match linearize e with
    | Some l => if constant_form l then constant (snd l) else e
    | None => e
    end.

(** [prove_true(e)]: conjunctions of [a <= b] with [b - a] a non-negative
    constant. *)
Fixpoint prove_true (e : expr) : bool :=
  match e with
  | binary logical_and a b => prove_true a && prove_true b
  | binary less_equal a b =>
      match linearize (binary sub b a) with
      | Some l => constant_form l && (0 <=? snd l)%Z
      | None => false
      end
  | _ => false
  end.

(** [bounds_of(e)]: the point interval [[e, e]]. *)
Definition bounds_of (e : expr) : interval_expr := {| imin := e; imax := e |}.

(** [where_true(e, x)] for [e1 <= e2] with [x] of coefficient 1 in [e1]
    and absent from [e2]: [x <= e2 - e1[x := 0]]; nothing is found
    otherwise ([[+oo, -oo]]). *)
Definition where_true (e : expr) (x : symbol_id) : interval_expr :=
  match e with
  | binary less_equal e1 e2 =>
      match linearize e1 with
      | Some l =>
          if (coefficient (fst l) x =? 1)%Z && negb (ExprOps.depends_on e2 x)
          then {| imin := negative_infinity;
                  imax := op_sub e2 (ExprOps.substitute e1 x (constant 0%Z)) |}
          else {| imin := positive_infinity; imax := negative_infinity |}
      | None => {| imin := positive_infinity; imax := negative_infinity |}
      end
  | _ => {| imin := positive_infinity; imax := negative_infinity |}
  end.

(** [align_up(x, a)]: [((x + a - 1) / a) * a]. *)
Definition align_up (x a : expr) : expr :=
  op_mul (binary div (op_sub (op_add x a) (constant 1%Z)) a) a.

(** The value of a list of terms and of a linear form under an
    assignment. *)
Definition terms_value (env : symbol_id -> index_t) (ts : list (symbol_id * Z)) : Z :=
  fold_right (fun t acc => (snd t * env (fst t) + acc)%Z) 0%Z ts.

Definition linear_value (env : symbol_id -> index_t) (l : linear) : Z :=
  (terms_value env (fst l) + snd l)%Z.

End SampleSimplifier.

(* ===================================================================== *)
(** * src/src/print.cc : printing expressions                             *)
(* ===================================================================== *)

Module Printer.
Import IR NodeContext.
Local Open Scope string_scope.

(** [std::ostream& operator<<(std::ostream& os, memory_type type)] *)
Definition print_memory_type (type : memory_type) : string :=
  match type with
  | stack => "stack"
  | heap => "heap"
  end.

(** [std::ostream& operator<<(std::ostream& os, intrinsic i)] *)
Definition print_intrinsic (i : intrinsic.t) : string :=
  match i with
  | intrinsic.positive_infinity => "oo"
  | intrinsic.negative_infinity => "-oo"
  | intrinsic.indeterminate => "indeterminate"
  | intrinsic.abs => "abs"
  | intrinsic.buffer_rank => "buffer_rank"
  | intrinsic.buffer_base => "buffer_base"
  | intrinsic.buffer_elem_size => "buffer_elem_size"
  | intrinsic.buffer_size_bytes => "buffer_size_bytes"
  | intrinsic.buffer_min => "buffer_min"
  | intrinsic.buffer_max => "buffer_max"
  | intrinsic.buffer_stride => "buffer_stride"
  | intrinsic.buffer_fold_factor => "buffer_fold_factor"
  | intrinsic.buffer_extent => "buffer_extent"
  | intrinsic.buffer_at => "buffer_at"
  end.

(** [os << x] for an [index_t]: the decimal digits, after a minus sign
    for a negative value. *)
Definition print_index (x : index_t) : string :=
  DecimalString.NilZero.string_of_int (Z.to_int x).

(** [printer& operator<<(symbol_id id)]: the name the context has for the
    id, ["<id>"] when the printer has no context. *)
Definition print_symbol (context : option node_context) (id : symbol_id) : string :=
  match context with
  | Some ctx => name ctx id
  | None => "<" ++ to_string id ++ ">"
  end.

(** [print_vector(const std::vector<T>& v, const std::string& sep)], given
    the text of the elements: [sep] stands between two elements. *)
Fixpoint print_vector (v : list string) (sep : string) : string :=
  match v with
  | [] => ""
  | [x] => x
  | x :: rest => x ++ sep ++ print_vector rest sep
  end.

(** The text [visit_bin_op] puts between the operands. *)
Definition bin_op_text (op : binary_op) : string :=
  match op with
  | add => " + "
  | sub => " - "
  | mul => " * "
  | div => " / "
  | mod_ => " % "
  | equal => " == "
  | not_equal => " != "
  | less => " < "
  | less_equal => " <= "
  | logical_and => " && "
  | logical_or => " || "
  | min => ", "
  | max => ", "
  end.

(** [printer& operator<<(const expr& e)] with the [visit] members of the
    expression nodes: an undefined expression prints as ["<>"]. *)
Fixpoint print_expr (context : option node_context) (e : expr) {struct e} : string :=
  match e with
  | expr_undef => "<>"
  | variable sym => print_symbol context sym
  | wildcard sym => print_symbol context sym
  | constant value => print_index value
  | let_ sym value body =>
      "let " ++ print_symbol context sym ++ " = " ++ print_expr context value
      ++ " in " ++ print_expr context body
  | binary op a b =>
      match op with
      | min => "min(" ++ print_expr context a ++ ", " ++ print_expr context b ++ ")"
      | max => "max(" ++ print_expr context a ++ ", " ++ print_expr context b ++ ")"
      | _ => "(" ++ print_expr context a ++ bin_op_text op
                 ++ print_expr context b ++ ")"
      end
  | logical_not x => "!" ++ print_expr context x
  | select c t f =>
      "select(" ++ print_expr context c ++ ", " ++ print_expr context t ++ ", "
      ++ print_expr context f ++ ")"
  | call fn args =>
      print_intrinsic fn ++ "("
      ++ print_vector (map (print_expr context) args) ", " ++ ")"
  end.

(** [printer& operator<<(const interval_expr& e)] *)
Definition print_interval (context : option node_context) (i : interval_expr)
  : string :=
  "[" ++ print_expr context (imin i) ++ ", " ++ print_expr context (imax i) ++ "]".

(** [printer& operator<<(const dim_expr& d)] *)
Definition print_dim (context : option node_context) (d : dim_expr) : string :=
  "{" ++ print_interval context (bounds d) ++ ", " ++ print_expr context (stride d)
  ++ ", " ++ print_expr context (fold_factor d) ++ "}".

(** [void print(std::ostream& os, const expr& e, const node_context* ctx)] *)
Definition print (e : expr) (ctx : option node_context) : string :=
  print_expr ctx e.

(** Every symbol of the expression is at least [n]. *)
Fixpoint symbols_from (n : nat) (e : expr) {struct e} : bool :=
  match e with
  | expr_undef => true
  | variable sym => Nat.leb n sym
  | wildcard sym => Nat.leb n sym
  | constant _ => true
  | let_ sym value body =>
      Nat.leb n sym && symbols_from n value && symbols_from n body
  | binary _ a b => symbols_from n a && symbols_from n b
  | logical_not x => symbols_from n x
  | select c t f => symbols_from n c && symbols_from n t && symbols_from n f
  | call _ args => forallb (symbols_from n) args
  end.

(** How often a character occurs in a string. *)
Fixpoint count (c : Ascii.ascii) (s : string) : nat :=
  match s with
  | EmptyString => 0
  | String x rest => (if Ascii.eqb x c then 1 else 0) + count c rest
  end.

End Printer.

(* ===================================================================== *)
(** * Concrete pipelines                                                  *)
(* ===================================================================== *)

(** The statements and states the concrete runs below are made on. *)
Module Pipelines.
Import IR.

(** The single-stage pipeline of the tests ([in -> out], ids [in = 0],
    [out = 1], [x = 2]) after lowering: a loop over [x] around the crop of
    the formal input [in] to [[x, x]] and the call. *)
Definition trivial_pipeline : stmt :=
  loop 2 serial
    {| imin := buffer_min (variable 1) 0; imax := buffer_max (variable 1) 0 |}
    (constant 1%Z)
    (crop_buffer 0 [interval_point (variable 2)] (call_stmt 0 [0] [1])).

(** The two-stage pipeline's consumer: [intm = 1] allocated with the
    bounds of [out = 2] and consumed by one call producing [out]. *)
Definition aliasable_allocate : stmt :=
  allocate 1 heap 4
    [ {| bounds := {| imin := buffer_min (variable 2) 0;
                      imax := buffer_max (variable 2) 0 |};
         stride := constant 4%Z; fold_factor := expr_undef |} ]
    (call_stmt 0 [1] [2]).

(** A dimension whose bounds are the buffer's own [buffer_min] and
    [buffer_max], as the builder emits them. *)
Definition sample_dim (buf : symbol_id) : dim_expr :=
  {| bounds := {| imin := buffer_min (variable buf) 0;
                  imax := buffer_max (variable buf) 0 |};
     stride := constant 4%Z; fold_factor := expr_undef |}.

(** Four statements, of which the second and third use buffer 1, and an
    allocation of buffer 1 around them. *)
Definition sample_body : stmt :=
  block (check (variable 7))
    (block (call_stmt 0 [0] [1])
       (block (call_stmt 1 [1] [2]) (check (variable 8)))).

Definition sample_allocate : stmt := allocate 1 heap 4 [sample_dim 1] sample_body.

(** An allocation whose buffer (3) no statement of the body uses. *)
Definition dead_allocate : stmt :=
  allocate 3 heap 4 [sample_dim 3] (call_stmt 0 [0] [1]).

(** The loop of the single-stage pipeline over [x = 2] in [[0, 9]], the
    formal input [0] cropped to [[x, x]]. *)
Definition point_loop : stmt :=
  loop 2 serial {| imin := constant 0%Z; imax := constant 9%Z |} (constant 1%Z)
    (crop_buffer 0 [interval_point (variable 2)] (call_stmt 7 [0] [1])).

(** The region inferred for the formal input on leaving that loop. *)
Definition point_loop_region : box_expr :=
  [ {| imin := slinky_min (constant 0%Z) (constant 9%Z);
       imax := slinky_max (constant 0%Z) (constant 9%Z) |} ].

(** A loop over [x = 2] in [[-1, 1]] whose body needs the point [x * x] of
    the formal input [0]. *)
Definition square_loop : stmt :=
  loop 2 serial {| imin := constant (-1)%Z; imax := constant 1%Z |} (constant 1%Z)
    (crop_buffer 0 [interval_point (op_mul (variable 2) (variable 2))]
       (call_stmt 7 [0] [1])).

(** An allocation whose buffer (3) is consumed by nothing. *)
Definition unconsumed_allocate : stmt :=
  allocate 3 heap 4
    [ {| bounds := {| imin := buffer_min (variable 3) 0;
                      imax := buffer_max (variable 3) 0 |};
         stride := buffer_stride (variable 3) 0;
         fold_factor := buffer_fold_factor (variable 3) 0 |} ]
    (call_stmt 7 [0] [1]).

(** The bounds of dimension 0 of the buffer [o], as a consumer that is
    elementwise for the output [o] requires them of its input. *)
Definition elementwise_for (o : symbol_id) : interval_expr :=
  {| imin := buffer_min (variable o) 0; imax := buffer_max (variable o) 0 |}.

(** Two intermediate buffers, [2] allocated around [1]: after their
    producers, [1] is consumed elementwise by the call producing [9] and,
    together with [2], by the call producing [8]. *)
Definition two_consumers : stmt :=
  block (call_stmt 0 [] [1])
    (block (crop_buffer 1 [elementwise_for 9] (call_stmt 1 [1] [9]))
           (crop_buffer 1 [elementwise_for 8] (call_stmt 2 [1; 2] [8]))).

Definition outer_dim : dim_expr :=
  {| bounds := elementwise_for 8; stride := constant 4%Z; fold_factor := expr_undef |}.

Definition nested_allocations : stmt :=
  allocate 2 heap 4 [outer_dim]
    (block (call_stmt 3 [] [2]) (allocate 1 heap 4 [sample_dim 1] two_consumers)).


(** Buffer [2] allocated inside buffer [1]: the call producing [9] reads
    [1] and [2] and is elementwise for neither, the call producing [8]
    reads [2] elementwise. *)
Definition early_return_pipeline : stmt :=
  allocate 1 heap 4 [sample_dim 1]
    (allocate 2 heap 4 [sample_dim 2]
       (block (call_stmt 4 [] [1])
          (block (call_stmt 5 [] [2])
             (block (call_stmt 0 [1; 2] [9])
                (crop_buffer 2 [elementwise_for 8] (call_stmt 1 [2] [8])))))).







End Pipelines.

Module SlidePipelines.
Import IR SymbolMap NodeContext SlideAndFold.

(** Symbols: [in = 0], [out = 1], the loop variable [x = 2], the
    intermediate buffer [p = 3]; [5] stands for the pushed [x.min_orig]
    and [9] for the unknown of the pass. *)
Definition loop_x : loop_info :=
  {| li_sym := 2; orig_min := variable 5;
     li_bounds := {| imin := variable 5; imax := buffer_max (variable 1) 0 |};
     li_step := constant 1%Z |}.

Definition empty_context : node_context := {| name_to_id := []; id_to_name := [] |}.

Definition inside_loop (region : box_expr) : state :=
  {| ctx := empty_context;
     buffer_bounds := [None; None; None; Some region];
     fold_factors := [];
     loops := [loop_x] |}.

(** The three-point stencil: iteration [x] needs [[x - 1, x + 1]] of [p]. *)
Definition stencil_bounds : interval_expr :=
  {| imin := op_sub (variable 2) (constant 1%Z);
     imax := op_add (variable 2) (constant 1%Z) |}.

(** A growing window: iteration [x] needs [[0, x]] of [p]. *)
Definition prefix_bounds : interval_expr :=
  {| imin := constant 0%Z; imax := variable 2 |}.

(** The lowered stencil pipeline: [p] allocated around a serial loop over
    [x] in which the producer of [p] is cropped to [[x - 1, x + 1]] and
    followed by the consumer. *)
Definition pipeline_context : node_context :=
  {| name_to_id := [("p", 3); ("x", 2); ("out", 1); ("in", 0)]%string;
     id_to_name := ["in"; "out"; "x"; "p"]%string |}.

(** The pass starts on the lowered pipeline with empty maps. *)
Definition stencil_initial : state :=
  {| ctx := pipeline_context; buffer_bounds := []; fold_factors := []; loops := [] |}.

Definition p_dim : dim_expr :=
  {| bounds := {| imin := buffer_min (variable 3) 0;
                  imax := buffer_max (variable 3) 0 |};
     stride := constant 4%Z;
     fold_factor := buffer_fold_factor (variable 3) 0 |}.

Definition out_bounds : interval_expr :=
  {| imin := buffer_min (variable 1) 0; imax := buffer_max (variable 1) 0 |}.

Definition stencil_body : stmt :=
  block (crop_buffer 3 [stencil_bounds] (call_stmt 0 [0] [3]))
        (call_stmt 1 [3] [1]).

Definition stencil_pipeline (mode : loop_mode) : stmt :=
  allocate 3 heap 4 [p_dim] (loop 2 mode out_bounds (constant 1%Z) stencil_body).


End SlidePipelines.

(* ===================================================================== *)
(** * Facts about symbol maps, id sets and structural equality            *)
(* ===================================================================== *)

Module SymbolMapFacts.
Import SymbolMap.
Section Map.
Variable T : Type.
Implicit Types m : symbol_map T.


Lemma lookup_assign_eq m sym v : lookup (assign m sym v) sym = v.
Proof.
  unfold lookup.
  revert m. induction sym as [|n IH]; intros [|x m]; simpl; auto.
Qed.

Lemma lookup_assign_ne m sym sym' v :
  sym <> sym' -> lookup (assign m sym v) sym' = lookup m sym'.
Proof.
  unfold lookup.
  revert m sym'. induction sym as [|n IH]; intros [|x m] [|n']; simpl; intro H;
    try congruence; auto.
  - destruct n'; reflexivity.
  - rewrite (IH [] n') by congruence. destruct n'; reflexivity.
Qed.

Lemma lookup_update_all (f : T -> T) m sym :
  lookup (update_all f m) sym = option_map f (lookup m sym).
Proof.
  unfold lookup, update_all. revert sym.
  induction m as [|x m IH]; intros [|n]; simpl; auto.
Qed.

End Map.
End SymbolMapFacts.

Module IdSetFacts.
Import IdSet.

Lemma in_insert x y s : In y (insert x s) <-> y = x \/ In y s.
Proof.
  induction s as [|z s IH]; simpl.
  - intuition.
  - destruct (x <? z) eqn:E1; [simpl; intuition|].
    destruct (x =? z) eqn:E2.
    + apply Nat.eqb_eq in E2. subst. simpl. intuition.
    + simpl. rewrite IH. intuition.
Qed.


Lemma in_erase x y s : In y (erase x s) <-> In y s /\ y <> x.
Proof.
  unfold erase. rewrite filter_In. rewrite negb_true_iff, Nat.eqb_neq. tauto.
Qed.



End IdSetFacts.
(* ===================================================================== *)
(** * Theorems: expr.h and interval.h                                     *)
(* ===================================================================== *)

Module ExprHFacts.
Import ExprH.

Lemma node_type_eqb_eq a b : node_type.eqb a b = true <-> a = b.
Proof.
  unfold node_type.eqb; destruct (node_type.eq_dec a b); split; congruence.
Qed.

Lemma binary_static_type_inj op1 op2 :
  binary_static_type op1 = binary_static_type op2 -> op1 = op2.
Proof. destruct op1, op2; simpl; congruence. Qed.

Lemma as_some_iff T n :
  as_ T n <> None <-> static_type (class_of n) = static_type T.
Proof.
  unfold as_, type.
  destruct (node_type.eqb (static_type (class_of n)) (static_type T)) eqn:E.
  - apply node_type_eqb_eq in E. split; congruence.
  - split; [congruence|]. intro H. apply node_type_eqb_eq in H. congruence.
Qed.

(** Where the tags do separate classes: every class other than
    [constant]/[variable] is recognised exactly. *)
Lemma as_exact_outside_leaves T n :
  T <> class_variable -> T <> class_constant ->
  (as_ T n <> None <-> class_of n = T).
Proof.
  intros Hv Hc. rewrite as_some_iff.
  destruct T as [| | |op]; try congruence;
    destruct (class_of n) as [| | |op']; simpl; split; intro H;
    try congruence; try (destruct op; discriminate);
    try (destruct op'; discriminate).
  apply binary_static_type_inj in H. congruence.
Qed.

(** C9 (the code at the failing input): [constant] declares
    [static_type = node_type::variable], so a constant node carries the tag
    of a variable; [as<variable>()] on a constant node returns the node (not
    null), and [as<constant>()] on a variable node returns the node as
    well, although the two classes differ. *)
Theorem constant_identified_as_variable :
  forall (v : index_t) (x : symbol_id),
    type (constant v) = node_type.variable
    /\ as_ class_variable (constant v) = Some (constant v)
    /\ as_ class_constant (variable x) = Some (variable x)
    /\ class_of (constant v) <> class_variable
    /\ class_of (variable x) <> class_constant.
Proof.
  intros v x. repeat split; try reflexivity; simpl; discriminate.
Qed.

End ExprHFacts.

Module IntervalFacts.
Import ExprH Interval.

Lemma interval_and_is_interval_or l r : interval_and l r = interval_or l r.
Proof. reflexivity. Qed.

Lemma contains_point env lo hi x :
  contains env (point lo hi) x <-> (lo <= x <= hi)%Z.
Proof.
  unfold contains, point; simpl. split.
  - intros (l & h & Hl & Hh & Hx). injection Hl as <-. injection Hh as <-. exact Hx.
  - intro Hx. exists lo, hi. auto.
Qed.

(** What [operator&=] computes on constant intervals: the hull. *)
Lemma interval_and_points env a b c d x :
  contains env (interval_and (point a b) (point c d)) x
  <-> (Z.min a c <= x <= Z.max b d)%Z.
Proof.
  unfold contains, interval_and, point; simpl. split.
  - intros (l & h & Hl & Hh & Hx). injection Hl as <-. injection Hh as <-. exact Hx.
  - intro Hx. eexists _, _. repeat split; try reflexivity; apply Hx.
Qed.

(** C1 (the code at the failing input): on [a = [0, 10]] and
    [b = [5, 20]] the intersection operator [operator&=] returns
    [[min(0, 5), max(10, 20)]], not [[max(0, 5), min(10, 20)]]; the result
    contains 15, which is outside [a], and 0, which is outside [b], so the
    operator expands the region instead of intersecting. *)
Theorem interval_and_expands :
  let a := point 0%Z 10%Z in
  let b := point 5%Z 20%Z in
  interval_and a b
    = {| imin := binary min (constant 0%Z) (constant 5%Z);
         imax := binary max (constant 10%Z) (constant 20%Z) |}
  /\ interval_and a b <> intersection_spec a b
  /\ (forall env, contains env (interval_and a b) 15%Z /\ ~ contains env a 15%Z)
  /\ (forall env, contains env (interval_and a b) 0%Z /\ ~ contains env b 0%Z)
  /\ (forall env x, contains env (intersection_spec a b) x <-> (5 <= x <= 10)%Z).
Proof.
  cbv zeta. split; [reflexivity|]. split; [discriminate|].
  split; [|split].
  - intro env. split.
    + apply interval_and_points. simpl. lia.
    + rewrite contains_point. lia.
  - intro env. split.
    + apply interval_and_points. simpl. lia.
    + rewrite contains_point. lia.
  - intros env x. unfold contains, intersection_spec, point; simpl. split.
    + intros (l & h & Hl & Hh & Hx). injection Hl as <-. injection Hh as <-.
      simpl in Hx. exact Hx.
    + intro Hx. eexists _, _. repeat split; try reflexivity; simpl; apply Hx.
Qed.

End IntervalFacts.


Module IRFacts.
Import IR.

Lemma binary_op_eqb_eq a b : binary_op_eqb a b = true <-> a = b.
Proof. unfold binary_op_eqb; destruct (binary_op_eq_dec a b); split; congruence. Qed.

Lemma intrinsic_eqb_eq a b : intrinsic.eqb a b = true <-> a = b.
Proof.
  unfold intrinsic.eqb; destruct (intrinsic.eq_dec a b); split; congruence.
Qed.

Lemma list_eqb_eq {A} (eqb : A -> A -> bool) (xs : list A) :
  Forall (fun x => forall y, eqb x y = true <-> x = y) xs ->
  forall ys, list_eqb eqb xs ys = true <-> xs = ys.
Proof.
  induction 1 as [|x xs Hx _ IH]; intros [|y ys]; simpl;
    try (split; congruence).
  rewrite andb_true_iff, Hx, IH. split; [intros [-> ->]; reflexivity|].
  intros [= -> ->]; auto.
Qed.

Lemma list_eqb_eq_all {A} (eqb : A -> A -> bool) :
  (forall x y, eqb x y = true <-> x = y) ->
  forall xs ys, list_eqb eqb xs ys = true <-> xs = ys.
Proof.
  intros H xs. apply list_eqb_eq. apply Forall_forall. intros x _. apply H.
Qed.

Lemma expr_eqb_eq (a : expr) : forall b, expr_eqb a b = true <-> a = b.
Proof.
  induction a using expr_ind'; intros [] ; simpl; try (split; congruence).
  - rewrite Nat.eqb_eq. split; congruence.
  - rewrite Nat.eqb_eq. split; congruence.
  - rewrite Z.eqb_eq. split; congruence.
  - rewrite !andb_true_iff, Nat.eqb_eq, IHa1, IHa2.
    split; [intros [[-> ->] ->]; reflexivity|intros [= -> -> ->]; auto].
  - rewrite !andb_true_iff, binary_op_eqb_eq, IHa1, IHa2.
    split; [intros [[-> ->] ->]; reflexivity|intros [= -> -> ->]; auto].
  - rewrite IHa. split; congruence.
  - rewrite !andb_true_iff, IHa1, IHa2, IHa3.
    split; [intros [[-> ->] ->]; reflexivity|intros [= -> -> ->]; auto].
  - rewrite andb_true_iff, intrinsic_eqb_eq.
    change ((fix go (xs ys : list expr) {struct xs} : bool :=
               match xs, ys with
               | [], [] => true
               | x :: xs', y :: ys' => expr_eqb x y && go xs' ys'
               | _, _ => false
               end) args args0) with (list_eqb expr_eqb args args0).
    rewrite (list_eqb_eq expr_eqb H).
    split; [intros [-> ->]; reflexivity|intros [= -> ->]; auto].
Qed.

Lemma expr_eqb_refl a : expr_eqb a a = true.
Proof. apply expr_eqb_eq. reflexivity. Qed.

Lemma interval_eqb_eq a b : interval_eqb a b = true <-> a = b.
Proof.
  unfold interval_eqb. rewrite andb_true_iff, !expr_eqb_eq.
  destruct a, b; simpl. split; [intros [-> ->]; reflexivity|intros [= -> ->]; auto].
Qed.

Lemma leaves_block_make l : leaves (block_make l) = List.concat (map leaves l).
Proof.
  induction l as [|s l IH]; simpl; [reflexivity|].
  destruct s; simpl; try exact IH;
    (destruct (block_make l) eqn:E; simpl in *; rewrite <- IH;
     try reflexivity; try (rewrite app_nil_r; reflexivity)).
Qed.


Lemma dim_eqb_eq a b : dim_eqb a b = true <-> a = b.
Proof.
  unfold dim_eqb. rewrite !andb_true_iff, interval_eqb_eq, !expr_eqb_eq.
  destruct a, b; simpl.
  split; [intros [[-> ->] ->]; reflexivity|intros [= -> -> ->]; auto].
Qed.

Lemma memory_type_eqb_eq a b : memory_type_eqb a b = true <-> a = b.
Proof. destruct a, b; simpl; split; congruence. Qed.

Lemma loop_mode_eqb_eq a b : loop_mode_eqb a b = true <-> a = b.
Proof. destruct a, b; simpl; split; congruence. Qed.

(** Rewrites every boolean equality test of the IR into an equation. *)
Ltac eqb_to_eq :=
  rewrite ?andb_true_iff, ?Nat.eqb_eq, ?Z.eqb_eq, ?expr_eqb_eq,
    ?interval_eqb_eq, ?memory_type_eqb_eq, ?loop_mode_eqb_eq,
    ?(list_eqb_eq_all Nat.eqb Nat.eqb_eq), ?(list_eqb_eq_all Z.eqb Z.eqb_eq),
    ?(list_eqb_eq_all expr_eqb expr_eqb_eq),
    ?(list_eqb_eq_all dim_eqb dim_eqb_eq),
    ?(list_eqb_eq_all interval_eqb interval_eqb_eq).

Lemma stmt_eqb_eq (s : stmt) : forall t, stmt_eqb s t = true <-> s = t.
Proof.
  induction s; intros []; simpl; try (split; congruence);
    eqb_to_eq; rewrite ?IHs, ?IHs1, ?IHs2;
    (split; [intuition congruence|intros [=]; subst; intuition]).
Qed.

Lemma stmt_eqb_refl s : stmt_eqb s s = true.
Proof. apply stmt_eqb_eq. reflexivity. Qed.

End IRFacts.

(* ===================================================================== *)
(** * Facts about substitution and evaluation                             *)
(* ===================================================================== *)

Module ExprOpsFacts.
Import IR ExprOps.

Lemma eval_ext e : forall env1 env2,
  (forall x, env1 x = env2 x) -> eval env1 e = eval env2 e.
Proof.
  induction e using expr_ind'; intros env1 env2 He; simpl; auto.
  - rewrite He. reflexivity.
  - rewrite (IHe1 env1 env2 He). destruct (eval env2 e1) as [vv|]; [|reflexivity].
    apply IHe2. intro x. unfold env_set. rewrite He. reflexivity.
  - rewrite (IHe1 env1 env2 He), (IHe2 env1 env2 He). reflexivity.
  - rewrite (IHe env1 env2 He). reflexivity.
  - rewrite (IHe1 env1 env2 He), (IHe2 env1 env2 He), (IHe3 env1 env2 He).
    reflexivity.
  - destruct fn; try reflexivity.
    destruct args as [|x [|y rest]]; try reflexivity.
    apply Forall_inv in H. rewrite (H env1 env2 He). reflexivity.
Qed.

(** Substituting an expression of constant value [v] for [sym] is
    evaluating with [sym] bound to [v]. *)
Lemma eval_substitute e sym r v :
  (forall env, eval env r = Some v) ->
  forall env, eval env (substitute e sym r) = eval (env_set env sym v) e.
Proof.
  intro Hr. induction e using expr_ind'; intro env; simpl; auto.
  - unfold env_set. destruct (Nat.eqb s sym); [apply Hr|reflexivity].
  - rewrite IHe1. destruct (eval (env_set env sym v) e1) as [vv|]; [|reflexivity].
    destruct (Nat.eqb s sym) eqn:E.
    + apply Nat.eqb_eq in E. subst s. apply eval_ext. intro x.
      unfold env_set. destruct (Nat.eqb x sym); reflexivity.
    + rewrite IHe2. apply eval_ext. intro x. unfold env_set.
      destruct (Nat.eqb x sym) eqn:E1; destruct (Nat.eqb x s) eqn:E2; try reflexivity.
      apply Nat.eqb_eq in E1, E2. subst. rewrite Nat.eqb_refl in E. discriminate.
  - rewrite IHe1, IHe2. reflexivity.
  - rewrite IHe. reflexivity.
  - rewrite IHe1, IHe2, IHe3. reflexivity.
  - destruct fn; try reflexivity.
    destruct args as [|x [|y rest]]; try reflexivity.
    apply Forall_inv in H. simpl. rewrite H. reflexivity.
Qed.

(** An expression that does not mention [sym] has the same value whatever
    [sym] is bound to. *)
Lemma eval_independent e sym v :
  depends_on e sym = false ->
  forall env, eval (env_set env sym v) e = eval env e.
Proof.
  induction e using expr_ind'; simpl; intros Hd env; auto.
  - unfold env_set. rewrite Hd. reflexivity.
  - apply orb_false_iff in Hd. destruct Hd as [H1 H2].
    rewrite (IHe1 H1). destruct (eval env e1) as [vv|]; [|reflexivity].
    destruct (Nat.eqb s sym) eqn:E.
    + apply Nat.eqb_eq in E. subst s. apply eval_ext. intro x.
      unfold env_set. destruct (Nat.eqb x sym); reflexivity.
    + simpl in H2. rewrite <- (IHe2 H2 (env_set env s vv)).
      apply eval_ext. intro x. unfold env_set.
      destruct (Nat.eqb x sym) eqn:E1; destruct (Nat.eqb x s) eqn:E2; try reflexivity.
      apply Nat.eqb_eq in E1, E2. subst. rewrite Nat.eqb_refl in E. discriminate.
  - apply orb_false_iff in Hd. destruct Hd as [H1 H2].
    rewrite (IHe1 H1), (IHe2 H2). reflexivity.
  - rewrite (IHe Hd). reflexivity.
  - apply orb_false_iff in Hd. destruct Hd as [Hd H3].
    apply orb_false_iff in Hd. destruct Hd as [H1 H2].
    rewrite (IHe1 H1), (IHe2 H2), (IHe3 H3). reflexivity.
  - destruct fn; try reflexivity.
    destruct args as [|x [|y rest]]; try reflexivity.
    apply Forall_inv in H. simpl in Hd. rewrite orb_false_r in Hd.
    rewrite (H Hd). reflexivity.
Qed.

End ExprOpsFacts.

Module ResultFacts.

Lemma bind_ok {A B} (c : result A) (k : A -> result B) (r : B) :
  bind c k = ok r -> exists a, c = ok a /\ k a = ok r.
Proof. destruct c as [a|e]; simpl; [eauto|discriminate]. Qed.

Lemma bind_failed {A B} (c : result A) (k : A -> result B) (e : error) :
  c = failed e -> bind c k = failed e.
Proof. intros ->. reflexivity. Qed.

End ResultFacts.

(** Split a hypothesis [bind c k = ok r] into the two runs. *)
Ltac bind_inv H a Hrun :=
  apply ResultFacts.bind_ok in H; destruct H as (a & Hrun & H).

Ltac bind_inv2 H x st Hrun :=
  apply ResultFacts.bind_ok in H; destruct H as ([x st] & Hrun & H).

(* ===================================================================== *)
(** * Facts about merge_crop                                              *)
(* ===================================================================== *)

Module CropFacts.
Import IR Crop.

(** A crop with both bounds defined replaces the bounds recorded for its
    dimension, whatever they were. *)
Lemma merge_crop_dim_overwrites (existing new_bounds : interval_expr) rest :
  defined (imin new_bounds) = true -> defined (imax new_bounds) = true ->
  merge_crop_dim (Some (existing :: rest)) 0 new_bounds
  = Some ({| imin := imin new_bounds; imax := imax new_bounds |} :: rest).
Proof.
  intros Hmin Hmax. unfold merge_crop_dim. rewrite Hmin, Hmax. reflexivity.
Qed.

(** A bound the crop leaves undefined is kept. *)
Lemma merge_crop_dim_keeps_undefined (existing : interval_expr) e rest :
  defined e = true ->
  merge_crop_dim (Some (existing :: rest)) 0 {| imin := e; imax := expr_undef |}
  = Some ({| imin := e; imax := imax existing |} :: rest).
Proof. intro H. unfold merge_crop_dim. simpl. rewrite H. reflexivity. Qed.

(** Entering a crop to [[-5, 20]] inside a crop to [[0, 10]] records
    [[-5, 20]]. *)
Lemma merge_crop_nested_example :
  merge_crop
    (Some [ {| imin := constant 0%Z; imax := constant 10%Z |} ])
    [ {| imin := constant (-5)%Z; imax := constant 20%Z |} ]
  = Some [ {| imin := constant (-5)%Z; imax := constant 20%Z |} ].
Proof. reflexivity. Qed.

Lemma nth_nil_default (n : nat) :
  nth n (@nil interval_expr) interval_default = interval_default.
Proof. destruct n; reflexivity. Qed.

Lemma nth_vector_update_nil n f : forall d,
  nth d (vector_update [] n f) interval_default
  = if Nat.eqb d n then f interval_default else interval_default.
Proof.
  induction n as [|n IHn]; intros [|d]; simpl; try reflexivity.
  - destruct d; reflexivity.
  - apply IHn.
Qed.

Lemma nth_vector_update v : forall n f d,
  nth d (vector_update v n f) interval_default
  = if Nat.eqb d n then f (nth n v interval_default) else nth d v interval_default.
Proof.
  induction v as [|x v IH]; intros n f d.
  - rewrite nth_vector_update_nil, !nth_nil_default. reflexivity.
  - destruct n as [|n], d as [|d]; simpl; try reflexivity. apply IH.
Qed.

Lemma bounds_at_optional_vector_update b n f d :
  bounds_at (optional_vector_update b n f) d
  = if Nat.eqb d n then f (bounds_at b n) else bounds_at b d.
Proof. unfold bounds_at, optional_vector_update. apply nth_vector_update. Qed.

Lemma bounds_at_merge_crop_dim b n nb d :
  bounds_at (merge_crop_dim b n nb) d
  = if Nat.eqb d n
    then {| imin := override (imin nb) (imin (bounds_at b n));
            imax := override (imax nb) (imax (bounds_at b n)) |}
    else bounds_at b d.
Proof.
  unfold merge_crop_dim, override.
  destruct (defined (imin nb)), (defined (imax nb));
    rewrite ?bounds_at_optional_vector_update;
    destruct (Nat.eqb d n) eqn:E; try reflexivity;
    try (rewrite ?bounds_at_optional_vector_update, ?Nat.eqb_refl; reflexivity).
  apply Nat.eqb_eq in E. subst d. destruct (bounds_at b n); reflexivity.
Qed.

Lemma bounds_at_merge_crop_from nbs : forall d0 b d,
  bounds_at (merge_crop_from d0 b nbs) d
  = if d <? d0 then bounds_at b d
    else {| imin := override (imin (nth (d - d0) nbs interval_default))
                             (imin (bounds_at b d));
            imax := override (imax (nth (d - d0) nbs interval_default))
                             (imax (bounds_at b d)) |}.
Proof.
  induction nbs as [|nb nbs IH]; intros d0 b d; cbn [merge_crop_from].
  - destruct (d <? d0); [reflexivity|].
    rewrite nth_nil_default. unfold override. simpl.
    destruct (bounds_at b d); reflexivity.
  - rewrite IH. rewrite !bounds_at_merge_crop_dim.
    destruct (Nat.ltb_spec d (S d0)) as [H1|H1];
      destruct (Nat.ltb_spec d d0) as [H0|H0];
      destruct (Nat.eqb_spec d d0) as [He|He]; try lia.
    + reflexivity.
    + subst d. rewrite Nat.sub_diag. reflexivity.
    + destruct (d - d0) as [|k] eqn:Ek; [lia|].
      replace (d - S d0) with k by lia. reflexivity.
Qed.

Lemma merge_crop_dim_none b n nb :
  merge_crop_dim b n nb = None
  <-> b = None /\ defined (imin nb) = false /\ defined (imax nb) = false.
Proof.
  unfold merge_crop_dim, optional_vector_update.
  destruct (defined (imin nb)), (defined (imax nb)); split;
    try discriminate; try (intros (_ & H1 & H2); discriminate); auto.
  intros (H & _). exact H.
Qed.

Lemma merge_crop_from_none nbs : forall d0 b,
  merge_crop_from d0 b nbs = None <-> b = None /\ defines_nothing nbs = true.
Proof.
  induction nbs as [|nb nbs IH]; intros d0 b; simpl.
  - split; [auto | intros [H _]; exact H].
  - rewrite IH, merge_crop_dim_none. unfold defines_nothing. simpl.
    rewrite andb_true_iff, andb_true_iff, !negb_true_iff. tauto.
Qed.

(** X10: [merge_crop] overrides bound by bound.  After
    [merge_crop(bounds, new_bounds)], each end of each dimension is the one
    of [new_bounds] where [new_bounds] defines it and the recorded one
    otherwise (a dimension [new_bounds] does not reach is untouched), and
    the optional stays empty exactly when it was empty and [new_bounds]
    defines no bound at all.  The bounds are never intersected with the
    recorded ones. *)
Theorem merge_crop_overrides (b : option box_expr) (new_bounds : box_expr) :
  (forall d,
     imin (bounds_at (merge_crop b new_bounds) d)
     = override (imin (nth d new_bounds interval_default)) (imin (bounds_at b d))
     /\ imax (bounds_at (merge_crop b new_bounds) d)
        = override (imax (nth d new_bounds interval_default)) (imax (bounds_at b d)))
  /\ (merge_crop b new_bounds = None
      <-> b = None /\ defines_nothing new_bounds = true).
Proof.
  split.
  - intro d. unfold merge_crop. rewrite bounds_at_merge_crop_from.
    simpl. rewrite Nat.sub_0_r. split; reflexivity.
  - apply merge_crop_from_none.
Qed.

End CropFacts.

(* ===================================================================== *)
(** * Facts about the buffer aliaser                                      *)
(* ===================================================================== *)

Module AliaserFacts.
Import IR SymbolMap Crop Aliaser SymbolMapFacts IdSetFacts Pipelines.
Local Open Scope result_scope.










(** A call whose first input has no [alias_info] entry: the guard
    [!in_x || !info] holds and [info->elementwise = false] dereferences the
    empty optional. *)
Lemma visit_inputs_absent_info o i rest st :
  lookup (alias_info st) i = None ->
  visit_inputs o (i :: rest) st = failed null_dereference.
Proof.
  intro H. simpl. rewrite H. destruct (lookup (buffer_bounds st) i); reflexivity.
Qed.

Lemma visit_call_stmt_absent_info i o inputs outputs st :
  lookup (alias_info st) i = None ->
  visit_call_stmt (i :: inputs) (o :: outputs) st = failed null_dereference.
Proof.
  intro H. cbn [visit_call_stmt]. rewrite (@visit_inputs_absent_info o i inputs st H).
  reflexivity.
Qed.

(** C10 (the code at the failing input): on the single-stage pipeline the
    call consumes the formal input [in], which no enclosing [allocate] gave
    an [alias_info] entry; the visit of the call does not complete: it
    dereferences the empty optional, and so does [alias_buffers]. *)
Theorem call_stmt_visit_dereferences_absent_info :
  visit_call_stmt [0] [1] initial = failed null_dereference
  /\ alias_buffers trivial_pipeline = failed null_dereference.
Proof. split; reflexivity. Qed.





Lemma invariant_buffer_bounds_inv st m V Enc Done :
  invariant (with_buffer_bounds st m) V Enc Done -> invariant st V Enc Done.
Proof. intros [Hc Ht Ho Hd Hs]. constructor; assumption. Qed.

















(** The elementwise flag does not say that every consumption is
    elementwise: the visit of a call returns at the first input that is not
    consumed elementwise, so the inputs after it are not examined.  Here
    the call producing 9 reads buffers 1 and 2, elementwise for neither;
    only buffer 1 is marked, and buffer 2 is aliased to 8 all the same. *)
Lemma later_inputs_are_not_examined :
  consumed_elementwise 2 (Some (map bounds [sample_dim 2]))
    (block (call_stmt 4 [] [1])
       (block (call_stmt 5 [] [2])
          (block (call_stmt 0 [1; 2] [9])
             (crop_buffer 2 [elementwise_for 8] (call_stmt 1 [2] [8])))))
  = false
  /\ exists body' st',
       mutate early_return_pipeline initial
       = ok (allocate 1 heap 4 [sample_dim 1] (let_stmt 2 (variable 8) body'), st')
       /\ lookup (aliases st') 2 = Some 8.
Proof.
  split; [reflexivity|]. eexists _, _. split; reflexivity.
Qed.

End AliaserFacts.

(* ===================================================================== *)
(** * Facts about the scope reducer                                       *)
(* ===================================================================== *)

Module ScopeReducerFacts.
Import IR ScopeReducer IRFacts Pipelines.

Lemma flat_app l1 l2 : flat (l1 ++ l2) = flat l1 ++ flat l2.
Proof. unfold flat. rewrite map_app, concat_app. reflexivity. Qed.

Lemma flat_visited_forward s : flat (visited_forward s) = leaves s.
Proof.
  induction s; simpl; try (unfold flat; simpl; reflexivity).
  rewrite flat_app. congruence.
Qed.

Lemma visited_backward_rev s : visited_backward s = rev (visited_forward s).
Proof.
  induction s; simpl; try reflexivity.
  rewrite rev_app_distr. congruence.
Qed.

Lemma flat_rev_visited_backward s : flat (rev (visited_backward s)) = leaves s.
Proof.
  rewrite visited_backward_rev, rev_involutive. apply flat_visited_forward.
Qed.

Lemma visited_forward_not_block s : Forall not_block (visited_forward s).
Proof.
  induction s; simpl; try (repeat constructor).
  apply Forall_app. split; assumption.
Qed.

Lemma not_block_compact s : not_block s -> compact s.
Proof. destruct s; simpl; intros H E; try discriminate; [reflexivity|contradiction]. Qed.

Lemma undefined_iff s : stmt_defined s = false <-> s = stmt_undef.
Proof. destruct s; simpl; split; congruence. Qed.

Lemma leaves_pair a s : leaves (block_make [a; s]) = leaves a ++ leaves s.
Proof. rewrite leaves_block_make. simpl. rewrite app_nil_r. reflexivity. Qed.

Lemma block_make_compact l : Forall compact l -> compact (block_make l).
Proof.
  induction 1 as [|s l Hs _ IH]; simpl; [intros _; reflexivity|].
  destruct (stmt_defined s) eqn:Ds; [|exact IH].
  destruct (stmt_defined (block_make l)) eqn:Dr.
  - intro E. simpl in E. apply app_eq_nil in E. destruct E as [E _].
    apply Hs in E. subst. discriminate.
  - exact Hs.
Qed.

Lemma compact_undef : compact stmt_undef.
Proof. intros _. reflexivity. Qed.

Lemma leaves_not_block s : not_block s -> forall x, In x (leaves s) -> x = s.
Proof.
  destruct s; simpl; intros H x Hx; try contradiction;
    destruct Hx as [<-|[]]; reflexivity.
Qed.

Section WithDependsOn.
Variable depends_on : stmt -> list symbol_id -> bool.
Variable vars : list symbol_id.

(** Once a dependent statement was seen, everything goes to
    [new_body_after]. *)
Lemma forward_depended l : forall acc,
  fwd_depended_on acc = true ->
  before (fold_left (forward_step depends_on vars) l acc) = before acc
  /\ leaves (new_body_after (fold_left (forward_step depends_on vars) l acc))
     = leaves (new_body_after acc) ++ flat l.
Proof.
  induction l as [|s l IH]; intros acc Hd; simpl.
  - rewrite app_nil_r. auto.
  - assert (E : forward_step depends_on vars acc s =
                {| before := before acc;
                   new_body_after := block_make [new_body_after acc; s];
                   fwd_depended_on := true |}).
    { unfold forward_step. rewrite Hd. reflexivity. }
    rewrite E.
    match goal with |- context [fold_left _ l ?a] =>
      destruct (IH a eq_refl) as [Hb Hn] end.
    cbn [before new_body_after] in Hb, Hn.
    split; [exact Hb|]. rewrite Hn, leaves_pair.
    unfold flat. simpl. rewrite <- app_assoc. reflexivity.
Qed.

Lemma forward_split l : forall acc,
  Forall not_block l ->
  fwd_depended_on acc = false ->
  new_body_after acc = stmt_undef ->
  leaves (before (fold_left (forward_step depends_on vars) l acc))
    ++ leaves (new_body_after (fold_left (forward_step depends_on vars) l acc))
  = leaves (before acc) ++ flat l
  /\ ((forall s, In s (leaves (before acc)) -> depends_on s vars = false) ->
      forall s, In s (leaves (before (fold_left (forward_step depends_on vars) l acc))) ->
                depends_on s vars = false).
Proof.
  induction l as [|s l IH]; intros acc Hnb Hd Hn; simpl.
  - rewrite Hn. simpl. unfold flat. simpl. auto.
  - apply Forall_cons_iff in Hnb. destruct Hnb as [Hs Hnb].
    destruct (depends_on s vars) eqn:Es.
    + assert (E : forward_step depends_on vars acc s =
                  {| before := before acc;
                     new_body_after := block_make [new_body_after acc; s];
                     fwd_depended_on := true |}).
      { unfold forward_step. rewrite Hd, Es. reflexivity. }
      rewrite E.
      match goal with |- context [fold_left _ l ?a] =>
        destruct (@forward_depended l a eq_refl) as [Hb Hl] end.
      rewrite Hb, Hl. cbn [before new_body_after].
      rewrite leaves_pair, Hn. simpl. split; [|auto].
      unfold flat. simpl. reflexivity.
    + assert (E : forward_step depends_on vars acc s =
                  {| before := block_make [before acc; s];
                     new_body_after := new_body_after acc;
                     fwd_depended_on := fwd_depended_on acc |}).
      { unfold forward_step. rewrite Hd, Es. reflexivity. }
      rewrite E.
      match goal with |- context [fold_left _ l ?a] =>
        destruct (IH a Hnb Hd Hn) as [Hl Hnd] end.
      cbn [before new_body_after] in Hl, Hnd.
      rewrite leaves_pair in Hl, Hnd. split.
      * rewrite Hl. unfold flat. simpl. rewrite <- app_assoc. reflexivity.
      * intros Hacc. apply Hnd. intros x Hx. apply in_app_or in Hx.
        destruct Hx as [Hx|Hx]; [auto|].
        apply (leaves_not_block _ Hs) in Hx. subst. exact Es.
Qed.

(** The backward loop, once a dependent statement was seen. *)
Lemma backward_depended l : forall acc,
  bwd_depended_on acc = true ->
  after (fold_left (backward_step depends_on vars) l acc) = after acc
  /\ leaves (new_body (fold_left (backward_step depends_on vars) l acc))
     = flat (rev l) ++ leaves (new_body acc).
Proof.
  induction l as [|s l IH]; intros acc Hd; simpl.
  - auto.
  - assert (E : backward_step depends_on vars acc s =
                {| new_body := block_make [s; new_body acc];
                   after := after acc;
                   bwd_depended_on := true |}).
    { unfold backward_step. rewrite Hd. reflexivity. }
    rewrite E.
    match goal with |- context [fold_left _ l ?a] =>
      destruct (IH a eq_refl) as [Ha Hn] end.
    cbn [after new_body] in Ha, Hn.
    split; [exact Ha|]. rewrite Hn, leaves_pair, flat_app.
    unfold flat. simpl. rewrite app_nil_r, <- app_assoc. reflexivity.
Qed.

Lemma backward_split l : forall acc,
  Forall not_block l ->
  bwd_depended_on acc = false ->
  new_body acc = stmt_undef ->
  leaves (new_body (fold_left (backward_step depends_on vars) l acc))
    ++ leaves (after (fold_left (backward_step depends_on vars) l acc))
  = flat (rev l) ++ leaves (after acc)
  /\ ((forall s, In s (leaves (after acc)) -> depends_on s vars = false) ->
      forall s, In s (leaves (after (fold_left (backward_step depends_on vars) l acc))) ->
                depends_on s vars = false)
  /\ ((forall s, In s l -> depends_on s vars = false) ->
      new_body (fold_left (backward_step depends_on vars) l acc) = stmt_undef).
Proof.
  induction l as [|s l IH]; intros acc Hnb Hd Hn; simpl.
  - rewrite Hn. simpl. auto.
  - apply Forall_cons_iff in Hnb. destruct Hnb as [Hs Hnb].
    destruct (depends_on s vars) eqn:Es.
    + assert (E : backward_step depends_on vars acc s =
                  {| new_body := block_make [s; new_body acc];
                     after := after acc;
                     bwd_depended_on := true |}).
      { unfold backward_step. rewrite Hd, Es. reflexivity. }
      rewrite E.
      match goal with |- context [fold_left _ l ?a] =>
        destruct (@backward_depended l a eq_refl) as [Ha Hl] end.
      rewrite Ha, Hl. cbn [after new_body].
      rewrite leaves_pair, Hn, flat_app. simpl.
      split; [|split; [auto|]].
      * unfold flat. simpl. rewrite !app_nil_r, <- app_assoc. reflexivity.
      * intro H. specialize (H s (or_introl eq_refl)). congruence.
    + assert (E : backward_step depends_on vars acc s =
                  {| new_body := new_body acc;
                     after := block_make [s; after acc];
                     bwd_depended_on := bwd_depended_on acc |}).
      { unfold backward_step. rewrite Hd, Es. reflexivity. }
      rewrite E.
      match goal with |- context [fold_left _ l ?a] =>
        destruct (IH a Hnb Hd Hn) as (Hl & Hnd & Hu) end.
      cbn [after new_body] in Hl, Hnd, Hu.
      rewrite leaves_pair in Hl, Hnd. split; [|split].
      * rewrite Hl, flat_app. unfold flat. simpl.
        rewrite app_nil_r, <- app_assoc. reflexivity.
      * intros Hacc. apply Hnd. intros x Hx. apply in_app_or in Hx.
        destruct Hx as [Hx|Hx]; [|auto].
        apply (leaves_not_block _ Hs) in Hx. subst. exact Es.
      * intro H. apply Hu. intros x Hx. apply H. right. exact Hx.
Qed.

Lemma visited_forward_in s x :
  In x (visited_forward s) -> In x (leaves s) \/ x = stmt_undef.
Proof.
  induction s; simpl; intros H;
    try (destruct H as [<-|[]]; auto; left; left; reflexivity).
  apply in_app_or in H. rewrite in_app_iff. destruct H as [H|H]; [apply IHs1 in H|apply IHs2 in H]; tauto.
Qed.

(** [split_body]: the three parts are the body's leaves in order, cut in
    two places; no leaf of [before] or [after] depends on [vars]; when no
    leaf at all depends on [vars], [new_body] is undefined. *)
Lemma split_body_spec body :
  forall b nb a, split_body depends_on body vars = (b, nb, a) ->
  leaves b ++ leaves nb ++ leaves a = leaves body
  /\ (forall s, In s (leaves b) -> depends_on s vars = false)
  /\ (forall s, In s (leaves a) -> depends_on s vars = false)
  /\ (depends_on stmt_undef vars = false ->
      (forall s, In s (leaves body) -> depends_on s vars = false) ->
      nb = stmt_undef).
Proof.
  unfold split_body. intros b nb a E. injection E as <- <- <-.
  set (f := fold_left (forward_step depends_on vars) (visited_forward body) _).
  destruct (@forward_split (visited_forward body)
              {| before := stmt_undef; new_body_after := stmt_undef;
                 fwd_depended_on := false |}
              (visited_forward_not_block body) eq_refl eq_refl) as [Hf Hfb].
  fold f in Hf, Hfb. simpl in Hf, Hfb. rewrite flat_visited_forward in Hf.
  destruct (@backward_split (visited_backward (new_body_after f))
              {| new_body := stmt_undef; after := stmt_undef;
                 bwd_depended_on := false |}) as (Hb & Hba & Hbu);
    [rewrite visited_backward_rev; apply Forall_rev, visited_forward_not_block
    |reflexivity|reflexivity|].
  simpl in Hb, Hba. rewrite flat_rev_visited_backward, app_nil_r in Hb.
  split; [|split; [|split]].
  - rewrite Hb. exact Hf.
  - apply Hfb. intros s [].
  - apply Hba. intros s [].
  - intros Hu Hnone. apply Hbu. intros s Hs.
    rewrite visited_backward_rev in Hs. apply in_rev in Hs.
    apply visited_forward_in in Hs. destruct Hs as [Hs| ->]; [|exact Hu].
    apply Hnone. rewrite <- Hf. apply in_or_app. right. exact Hs.
Qed.

End WithDependsOn.

Lemma clone_with_own_body op sym body :
  scoping_node op = Some (sym, body) -> clone_with_new_body op body = op.
Proof. destruct op; simpl; intros [= <- <-]; reflexivity. Qed.

Lemma clone_not_block op sym body nb :
  scoping_node op = Some (sym, body) -> leaves (clone_with_new_body op nb) = [clone_with_new_body op nb].
Proof. destruct op; simpl; intros [= <- <-]; reflexivity. Qed.

Lemma mutate_scoping_node depends_on op sym body :
  scoping_node op = Some (sym, body) ->
  mutate depends_on op = visit_stmt depends_on op sym body (mutate depends_on body).
Proof. destruct op; simpl; intros [= <- <-]; reflexivity. Qed.

(** C8, as the code has it: for a scoping node [op] binding [sym], with
    [body] the reduced body and [(before, new_body, after)] its split, the
    leaves of the three parts are the leaves of [body] in their order, so
    [new_body] is a contiguous run of them; no leaf of [before] or [after]
    depends on [sym], so [new_body] holds every leaf that does.  When some
    leaf depends on [sym] the result is [before; op{nb}; after] with [nb]
    having the leaves of [new_body].  When no leaf depends on [sym] (and
    the body is not empty) the node is dropped: the result has exactly the
    leaves of the body. *)
Theorem scoping_node_reduced :
  forall depends_on op sym op_body before new_body after,
    scoping_node op = Some (sym, op_body) ->
    split_body depends_on (mutate depends_on op_body) [sym]
      = (before, new_body, after) ->
    leaves before ++ leaves new_body ++ leaves after
      = leaves (mutate depends_on op_body)
    /\ (forall s, In s (leaves before) -> depends_on s [sym] = false)
    /\ (forall s, In s (leaves after) -> depends_on s [sym] = false)
    /\ ((exists s, In s (leaves (mutate depends_on op_body))
                   /\ depends_on s [sym] = true) ->
        exists nb,
          leaves (reduce_scopes depends_on op)
            = leaves before ++ [clone_with_new_body op nb] ++ leaves after
          /\ leaves nb = leaves new_body)
    /\ (depends_on stmt_undef [sym] = false ->
        (forall s, In s (leaves (mutate depends_on op_body)) ->
                   depends_on s [sym] = false) ->
        leaves (mutate depends_on op_body) <> [] ->
        reduce_scopes depends_on op = block_make [before; after]
        /\ leaves (reduce_scopes depends_on op)
           = leaves (mutate depends_on op_body)).
Proof.
  intros depends_on op sym op_body before new_body after Hop Hsplit.
  destruct (@split_body_spec depends_on [sym] _ _ _ _ Hsplit) as (Hl & Hb & Ha & Hdead).
  split; [exact Hl|]. split; [exact Hb|]. split; [exact Ha|].
  unfold reduce_scopes. rewrite (@mutate_scoping_node depends_on _ _ _ Hop).
  unfold visit_stmt. rewrite Hsplit. split.
  - intros (s & Hs & Hdep).
    assert (Hnb : In s (leaves new_body)).
    { rewrite <- Hl in Hs. apply in_app_or in Hs. destruct Hs as [Hs|Hs].
      - apply Hb in Hs. congruence.
      - apply in_app_or in Hs. destruct Hs as [Hs|Hs]; [exact Hs|].
        apply Ha in Hs. congruence. }
    destruct (stmt_eqb (mutate depends_on op_body) op_body
              && negb (stmt_defined before) && negb (stmt_defined after)) eqn:Ec.
    + apply andb_true_iff in Ec. destruct Ec as [Ec Hda].
      apply andb_true_iff in Ec. destruct Ec as [Heq Hdb].
      apply stmt_eqb_eq in Heq.
      apply negb_true_iff, undefined_iff in Hda, Hdb. subst before after.
      exists op_body. simpl. simpl in Hl. rewrite app_nil_r in Hl.
      split; [|congruence].
      assert (E := @clone_not_block _ _ _ op_body Hop).
      rewrite (@clone_with_own_body _ _ _ Hop) in *. exact E.
    + destruct (stmt_defined new_body) eqn:Ed.
      * exists new_body. split; [|reflexivity].
        rewrite leaves_block_make. simpl.
        rewrite (@clone_not_block _ _ _ _ Hop), app_nil_r. reflexivity.
      * apply undefined_iff in Ed. subst new_body. destruct Hnb.
  - intros Hu Hnone Hne.
    specialize (Hdead Hu Hnone). subst new_body. simpl in Hl.
    assert (Ec : stmt_eqb (mutate depends_on op_body) op_body
                 && negb (stmt_defined before) && negb (stmt_defined after) = false).
    { destruct (stmt_defined before) eqn:Db; [simpl; rewrite andb_false_r; reflexivity|].
      destruct (stmt_defined after) eqn:Da; [simpl; rewrite andb_false_r; reflexivity|].
      apply undefined_iff in Db, Da. subst. simpl in Hl. congruence. }
    rewrite Ec. simpl. split; [reflexivity|].
    assert (E := leaves_block_make [before; after]). simpl in E.
    rewrite app_nil_r in E. rewrite <- Hl. exact E.
Qed.


Lemma scoping_node_reduced_witness :
  leaves (check (variable 7)) ++
    leaves (block (call_stmt 0 [0] [1]) (call_stmt 1 [1] [2])) ++
    leaves (check (variable 8))
  = leaves (mutate ExprOps.stmt_depends_on sample_body)
  /\ exists nb,
       leaves (reduce_scopes ExprOps.stmt_depends_on sample_allocate)
       = leaves (check (variable 7))
           ++ [clone_with_new_body sample_allocate nb]
           ++ leaves (check (variable 8))
       /\ leaves nb = leaves (block (call_stmt 0 [0] [1]) (call_stmt 1 [1] [2])).
Proof.
  destruct (@scoping_node_reduced ExprOps.stmt_depends_on sample_allocate 1
              sample_body (check (variable 7))
              (block (call_stmt 0 [0] [1]) (call_stmt 1 [1] [2]))
              (check (variable 8)) eq_refl eq_refl)
    as (H1 & _ & _ & H4 & _).
  split; [exact H1|]. apply H4.
  exists (call_stmt 0 [0] [1]). split; [simpl; auto|reflexivity].
Defined.

(** C8 (counterexample to the claim as stated): the scoping node
    [allocate(3) { call(0 -> 1) }], whose body never references buffer 3,
    is not rewritten to [before; allocate(3){new_body}; after]: the result
    is the call alone, and no choice of [before], [new_body] and [after]
    gives its leaves the shape [before ++ [allocate(3){new_body}] ++ after]. *)
Lemma dead_scoping_node_is_dropped :
  reduce_scopes ExprOps.stmt_depends_on dead_allocate = call_stmt 0 [0] [1]
  /\ forall before new_body after,
       leaves (reduce_scopes ExprOps.stmt_depends_on dead_allocate)
       <> leaves before ++ [clone_with_new_body dead_allocate new_body]
            ++ leaves after.
Proof.
  split; [reflexivity|].
  intros before new_body after H.
  assert (Hin : In (clone_with_new_body dead_allocate new_body)
                  (leaves (reduce_scopes ExprOps.stmt_depends_on dead_allocate))).
  { rewrite H. apply in_or_app. right. left. reflexivity. }
  simpl in Hin. destruct Hin as [Hin|[]]. discriminate.
Qed.

End ScopeReducerFacts.

(* ===================================================================== *)
(** * Facts about bounds inference                                        *)
(* ===================================================================== *)

Module BoundsInferrerFacts.
Import IR SymbolMap Crop Substitutions BoundsInferrer SymbolMapFacts IRFacts Pipelines.
Local Open Scope result_scope.

Lemma all_checks_leaves (l : list stmt) :
  Forall (fun s => exists c, s = check c) l -> leaves (block_make l) = l.
Proof.
  intro H. rewrite leaves_block_make.
  induction H as [|s l [c ->] _ IH]; simpl; [reflexivity|]. rewrite IH. reflexivity.
Qed.

Lemma region_checks_are_checks buf_var bnds : forall d,
  Forall (fun s => exists c, s = check c) (region_checks buf_var d bnds).
Proof.
  induction bnds as [|b rest IH]; intro d; simpl; [constructor|].
  repeat (constructor; [eexists; reflexivity|]). apply IH.
Qed.

Lemma input_checks_are_checks m inputs : forall cs,
  input_checks m inputs = ok cs ->
  Forall (fun s => exists c, s = check c) cs.
Proof.
  induction inputs as [|i rest IH]; simpl; intros cs H.
  - injection H as <-. constructor.
  - destruct (lookup m i) as [bnds|]; [|discriminate].
    bind_inv H cs' Hrest. injection H as <-.
    apply Forall_app. split; [apply region_checks_are_checks|auto].
Qed.

Lemma input_checks_spec m inputs : forall cs,
  input_checks m inputs = ok cs ->
  exists regions,
    Forall2 (fun i reg => lookup m i = Some reg) inputs regions
    /\ cs = checks_of inputs regions.
Proof.
  induction inputs as [|i rest IH]; simpl; intros cs H.
  - injection H as <-. exists []. split; [constructor|reflexivity].
  - destruct (lookup m i) as [bnds|] eqn:E; [|discriminate].
    bind_inv H cs' Hrest. injection H as <-.
    destruct (IH _ Hrest) as (regions & HF & ->).
    exists (bnds :: regions). split; [constructor; assumption|reflexivity].
Qed.

Lemma input_checks_total m inputs regions :
  Forall2 (fun i reg => lookup m i = Some reg) inputs regions ->
  input_checks m inputs = ok (checks_of inputs regions).
Proof.
  induction 1 as [|i reg inputs regions Hi _ IH]; simpl; [reflexivity|].
  rewrite Hi, IH. reflexivity.
Qed.

(** The three checks of dimension [d] sit at positions [3d], [3d+1] and
    [3d+2] of the checks of a region. *)
Lemma region_checks_nth buf_var bnds : forall d0 d b,
  nth_error bnds d = Some b ->
  nth_error (region_checks buf_var d0 bnds) (3 * d)
    = Some (check (op_le (buffer_min buf_var (d0 + d)) (imin b)))
  /\ nth_error (region_checks buf_var d0 bnds) (3 * d + 1)
    = Some (check (op_ge (buffer_max buf_var (d0 + d)) (imax b)))
  /\ nth_error (region_checks buf_var d0 bnds) (3 * d + 2)
    = Some (check (op_le (extent b) (buffer_fold_factor buf_var (d0 + d)))).
Proof.
  induction bnds as [|x rest IH]; intros d0 [|d] b H; simpl in H; try discriminate.
  - injection H as <-. rewrite Nat.add_0_r. simpl. auto.
  - destruct (IH (S d0) d b H) as (H1 & H2 & H3).
    replace (d0 + S d) with (S d0 + d) by lia.
    replace (3 * S d) with (S (S (S (3 * d)))) by lia.
    simpl region_checks. cbn [dim_checks app Nat.add nth_error].
    replace (d + S (d + S (d + 0))) with (S (S (3 * d))) in * by lia.
    auto.
Qed.

Section WithSimplifier.
Variable simplify_min : expr -> expr -> expr.
Variable simplify_max : expr -> expr -> expr.

(** C4: when the inferrer has transformed the body and holds a region for
    every formal input, [infer_bounds] returns a statement whose leaves are
    the checks of the inputs followed by the leaves of the transformed
    body: for every input [i], with [reg] the region inferred for it, and
    every dimension [d] of [reg], the three checks
    [buffer_min(i, d) <= reg[d].min], [buffer_max(i, d) >= reg[d].max] and
    [reg[d].extent() <= buffer_fold_factor(i, d)], in this order. *)
Theorem infer_bounds_checks_first :
  forall fuel s inputs body st regions,
    mutate simplify_min simplify_max fuel s (initial inputs) = ok (body, st) ->
    Forall2 (fun i reg => lookup (infer st) i = Some reg) inputs regions ->
    exists r,
      infer_bounds simplify_min simplify_max fuel s inputs = ok r
      /\ leaves r = checks_of inputs regions ++ leaves body
      /\ (forall i reg d b, nth_error reg d = Some b ->
            nth_error (region_checks (variable i) 0 reg) (3 * d)
              = Some (check (op_le (buffer_min (variable i) d) (imin b)))
            /\ nth_error (region_checks (variable i) 0 reg) (3 * d + 1)
              = Some (check (op_ge (buffer_max (variable i) d) (imax b)))
            /\ nth_error (region_checks (variable i) 0 reg) (3 * d + 2)
              = Some (check (op_le (extent b) (buffer_fold_factor (variable i) d)))).
Proof.
  intros fuel s inputs body st regions Hm HF.
  exists (block (block_make (checks_of inputs regions)) body).
  split; [|split].
  - unfold infer_bounds. rewrite Hm. cbn [bind].
    rewrite (@input_checks_total _ _ _ HF). reflexivity.
  - cbn [leaves].
    rewrite all_checks_leaves; [reflexivity|].
    eapply input_checks_are_checks. apply (@input_checks_total _ _ _ HF).
  - intros i reg d b Hb. apply (region_checks_nth (variable i) reg 0 d Hb).
Qed.

Lemma leave_loop_spec sym lb entries : forall buf r,
  leave_loop simplify_min simplify_max sym lb buf entries r
  = (update_all (map (widen simplify_min simplify_max sym lb)) entries,
     wrap_crops
       (engaged buf (update_all (map (widen simplify_min simplify_max sym lb)) entries))
       r).
Proof.
  induction entries as [|[x|] rest IH]; intros buf r; simpl.
  - reflexivity.
  - rewrite IH. reflexivity.
  - rewrite IH. reflexivity.
Qed.




Lemma substitute_dim_nil d : substitute_dim [] d = d.
Proof. reflexivity. Qed.

Lemma list_eqb_dim_refl (dims : list dim_expr) : list_eqb dim_eqb dims dims = true.
Proof. apply (list_eqb_eq_all dim_eqb dim_eqb_eq). reflexivity. Qed.

Lemma recursive_substitute_nil fuel dims :
  recursive_substitute (S fuel) dims [] = ok dims.
Proof.
  simpl. rewrite (map_ext _ (fun d => d)) by (intro; reflexivity).
  rewrite map_id, list_eqb_dim_refl. reflexivity.
Qed.

Lemma update_all_identity (m : symbol_map box_expr) :
  update_all (map (substitute_interval [])) m = m.
Proof.
  unfold update_all. induction m as [|o m IH]; [reflexivity|].
  simpl. rewrite IH. destruct o as [x|]; [|reflexivity]. simpl.
  rewrite (map_ext _ (fun j => j)) by (intro; reflexivity).
  rewrite map_id. reflexivity.
Qed.

(** C6, as the code has it: when the body of [allocate(sym, ...)] recorded
    no region for [sym] (the inferred bounds are still the empty box set on
    entry), bounds inference raises no error: no substitution is collected,
    the dims are returned as they were, the other inferred regions are
    kept, and the result is the block of the (empty, hence undefined) list
    of checks and the same allocation around the transformed body. *)
Theorem allocate_without_consumer_keeps_dims :
  forall fuel sym storage elem_size dims body st body' st1,
    mutate simplify_min simplify_max (S fuel) body
      (with_infer st (assign (infer st) sym (Some []))) = ok (body', st1) ->
    lookup (infer st1) sym = Some [] ->
    mutate simplify_min simplify_max (S fuel)
      (allocate sym storage elem_size dims body) st
    = ok (block stmt_undef (allocate sym storage elem_size dims body'),
          with_infer st1 (assign (infer st1) sym (lookup (infer st) sym))).
Proof.
  intros fuel sym storage elem_size dims body st body' st1 Hb Hi.
  cbn [mutate]. rewrite Hb. cbn [bind]. rewrite Hi.
  cbn [allocate_substitutions]. rewrite recursive_substitute_nil. cbn [bind].
  rewrite update_all_identity. reflexivity.
Qed.

End WithSimplifier.



Lemma infer_bounds_checks_first_witness :
  exists r,
    infer_bounds slinky_min slinky_max 1 point_loop [0] = ok r
    /\ leaves r
       = [ check (op_le (buffer_min (variable 0) 0)
                        (slinky_min (constant 0%Z) (constant 9%Z)));
           check (op_ge (buffer_max (variable 0) 0)
                        (slinky_max (constant 0%Z) (constant 9%Z)));
           check (op_le (extent (mk_interval (slinky_min (constant 0%Z) (constant 9%Z))
                                             (slinky_max (constant 0%Z) (constant 9%Z))))
                        (buffer_fold_factor (variable 0) 0));
           crop_buffer 0 point_loop_region point_loop ].
Proof.
  destruct (@infer_bounds_checks_first slinky_min slinky_max 1 point_loop [0]
              (crop_buffer 0 point_loop_region point_loop)
              {| infer := [Some point_loop_region]; crops := [None] |}
              [point_loop_region] eq_refl
              (Forall2_cons 0 point_loop_region eq_refl (Forall2_nil _)))
    as (r & Hr & Hl & _).
  exists r. split; [exact Hr|exact Hl].
Defined.



Lemma allocate_without_consumer_keeps_dims_witness :
  mutate slinky_min slinky_max 1 unconsumed_allocate (initial [])
  = ok (block stmt_undef unconsumed_allocate,
        with_infer {| infer := [None; None; None; Some []]; crops := [] |}
          [None; None; None; None]).
Proof.
  exact (@allocate_without_consumer_keeps_dims slinky_min slinky_max 0 3 heap 4%Z
           _ (call_stmt 7 [0] [1]) (initial []) _ _ eq_refl eq_refl).
Defined.

(** C6 (counterexample to the claim as stated): bounds inference of an
    allocation that no consumer demands any region of does not fail: it
    returns a statement, the (empty) checks of the inputs and of the
    allocation followed by the allocation unchanged, its dims still the
    unresolved [buffer_min]/[buffer_max] of the buffer itself. *)
Lemma unbounded_allocation_is_not_an_error :
  infer_bounds slinky_min slinky_max 1 unconsumed_allocate []
  = ok (block stmt_undef (block stmt_undef unconsumed_allocate))
  /\ leaves (block stmt_undef (block stmt_undef unconsumed_allocate))
     = [unconsumed_allocate].
Proof. split; reflexivity. Qed.

End BoundsInferrerFacts.

(* ===================================================================== *)
(** * Facts about slide-and-fold                                          *)
(* ===================================================================== *)

Module SlideAndFoldFacts.
Import IR SymbolMap Crop Substitutions NodeContext SlideAndFold SymbolMapFacts.
Local Open Scope result_scope.

Lemma list_update_length {A} (l : list A) n f :
  List.length (list_update l n f) = List.length l.
Proof. revert n. induction l as [|a l IH]; intros [|n]; simpl; auto. Qed.

Lemma nth_error_list_update_eq {A} (l : list A) n f a :
  nth_error l n = Some a -> nth_error (list_update l n f) n = Some (f a).
Proof.
  revert n. induction l as [|b l IH]; intros [|n]; simpl; try discriminate.
  - intros [= ->]. reflexivity.
  - apply IH.
Qed.

Lemma nth_error_list_update_ne {A} (l : list A) n m f :
  n <> m -> nth_error (list_update l n f) m = nth_error l m.
Proof.
  revert n m. induction l as [|b l IH]; intros [|n] [|m] H; simpl; try congruence; auto.
Qed.

Lemma map_list_update {A B} (g : A -> B) (f : A -> A) (l : list A) n :
  (forall a, g (f a) = g a) -> map g (list_update l n f) = map g l.
Proof.
  intro H. revert n. induction l as [|a l IH]; intros [|n]; simpl; auto.
  - rewrite H. reflexivity.
  - rewrite IH. reflexivity.
Qed.

Lemma shape_set_loop_min e l : shape (set_loop_min e l) = shape l.
Proof. reflexivity. Qed.

Lemma map_removelast_snoc {A B} (g : A -> B) (l1 l : list A) (y : B) :
  map g l1 = (map g l ++ [y])%list -> map g (removelast l1) = map g l.
Proof.
  intro H. destruct (exists_last (l := l1)) as (l1' & z & ->).
  - intros ->. destruct (map g l); discriminate.
  - rewrite removelast_last. rewrite map_app in H. simpl in H.
    apply app_inj_tail in H. tauto.
Qed.

Section WithOracles.
Variable prove_true : expr -> bool.
Variable simplify : expr -> expr.
Variable bounds_of : expr -> interval_expr.
Variable where_true : expr -> symbol_id -> interval_expr.
Variable align_up : expr -> expr -> expr.
Variable x : symbol_id.

Local Abbreviation slide_dim_ := (slide_dim prove_true simplify bounds_of where_true align_up x).
Local Abbreviation slide_dims_ := (slide_dims prove_true simplify bounds_of where_true align_up x).
Local Abbreviation slide_loops_ := (slide_loops prove_true simplify bounds_of where_true align_up x).
Local Abbreviation visit_ := (visit_call_or_copy prove_true simplify bounds_of where_true align_up x).
Local Abbreviation mutate_ := (mutate prove_true simplify bounds_of where_true align_up x).

Lemma slide_dim_shape output op l bnds d cur st :
  map shape (loops (fst (slide_dim_ output op l bnds d cur st))) = map shape (loops st).
Proof.
  unfold slide_dim.
  repeat match goal with
         | |- context [if ?c then _ else _] => destruct c
         end; simpl; try reflexivity;
    apply map_list_update; intro; apply shape_set_loop_min.
Qed.

Lemma slide_dims_shape output op count : forall d st,
  map shape (loops (slide_dims_ output op d count st)) = map shape (loops st).
Proof.
  induction count as [|c IH]; intros d st; simpl; [reflexivity|].
  destruct (lookup (buffer_bounds st) output) as [bnds|]; [|reflexivity].
  destruct (nth_error (loops st) op) as [l|]; [|reflexivity].
  destruct (nth_error bnds d) as [cur|]; [|reflexivity].
  pose proof (slide_dim_shape output op l bnds d cur st) as H.
  destruct (slide_dim_ output op l bnds d cur st) as [st' fl]. simpl in H.
  destruct fl; [rewrite IH|]; exact H.
Qed.

Lemma slide_loops_shape output count : forall op st,
  map shape (loops (slide_loops_ output op count st)) = map shape (loops st).
Proof.
  induction count as [|c IH]; intros op st; simpl; [reflexivity|].
  rewrite IH. apply slide_dims_shape.
Qed.

Lemma visit_call_or_copy_shape outputs : forall st,
  map shape (loops (visit_ outputs st)) = map shape (loops st).
Proof.
  unfold visit_call_or_copy.
  induction outputs as [|o rest IH]; intro st; simpl; [reflexivity|].
  rewrite IH. destruct (lookup (buffer_bounds st) o); [|reflexivity].
  apply slide_loops_shape.
Qed.

(** The pass keeps the stack of candidate loops: what a statement leaves
    on it is what it found, up to rewritten mins. *)
Lemma mutate_shape fuel s : forall st r st',
  mutate_ fuel s st = ok (r, st') ->
  map shape (loops st') = map shape (loops st).
Proof.
  induction s; intros st r st' H; cbn [mutate] in H; try discriminate;
    try (injection H as <- <-; reflexivity).
  - (* block *)
    bind_inv2 H b' st1 Hb. bind_inv2 H a' st2 Ha. injection H as <- <-.
    rewrite (IHs1 _ _ _ Ha). apply (IHs2 _ _ _ Hb).
  - bind_inv2 H b' st1 Hb. injection H as <- <-. eauto.
  - (* loop *)
    destruct mode.
    + destruct (insert (ctx st) (name (ctx st) sym ++ ".min_orig")%string)
        as [ctx1 orig_min_sym].
      bind_inv2 H b' st1 Hb.
      apply IHs in Hb. cbn [loops with_loops with_ctx] in Hb.
      rewrite map_app in Hb. simpl in Hb.
      apply map_removelast_snoc in Hb.
      match type of H with
      | (if ?c then _ else _) = _ => destruct c
      end; injection H as <- <-; exact Hb.
    + bind_inv2 H b' st1 Hb. injection H as <- <-. eauto.
  - bind_inv2 H t' st1 Ht. bind_inv2 H e' st2 He. injection H as <- <-.
    rewrite (IHs2 _ _ _ He). apply (IHs1 _ _ _ Ht).
  - injection H as <- <-. apply visit_call_or_copy_shape.
  - injection H as <- <-. exact (visit_call_or_copy_shape [dst] st).
  - (* allocate *)
    bind_inv2 H b' st1 Hb. bind_inv H dims' Hd. injection H as <- <-.
    apply IHs in Hb. exact Hb.
  - bind_inv2 H b' st1 Hb. injection H as <- <-. eauto.
  - (* crop_buffer *)
    bind_inv2 H b' st1 Hb. injection H as <- <-. apply IHs in Hb. exact Hb.
  - (* crop_dim *)
    destruct (merge_crop_dim (lookup (buffer_bounds st) sym) dim dbounds); [|discriminate].
    bind_inv2 H b' st1 Hb.
    destruct (lookup (buffer_bounds st1) sym) as [nb|]; [|discriminate].
    destruct (nth_error nb dim); [|discriminate].
    injection H as <- <-. apply IHs in Hb. exact Hb.
Qed.





(** Leaving a serial loop whose min was rewritten on the stack: the loop
    gets the min found there, under a [let] that binds the variable pushed
    on entry to the original min. *)
Lemma serial_loop_takes_min_from_stack fuel sym lb step body st body' st1 :
  let entered := insert (ctx st) (name (ctx st) sym ++ ".min_orig")%string in
  let pushed :=
    {| li_sym := sym; orig_min := variable (snd entered);
       li_bounds := {| imin := variable (snd entered); imax := imax lb |};
       li_step := step |} in
  let new_min := imin (li_bounds (last (loops st1) pushed)) in
  mutate_ fuel body (with_loops (with_ctx st (fst entered)) (loops st ++ [pushed]))
    = ok (body', st1) ->
  is_variable new_min (snd entered) = false ->
  mutate_ fuel (loop sym serial lb step body) st
  = ok (let_stmt (snd entered) (imin lb)
          (loop sym serial {| imin := new_min; imax := imax lb |} step body'),
        with_loops st1 (removelast (loops st1))).
Proof.
  cbv zeta. intros Hb Hv. cbn [mutate].
  destruct (insert (ctx st) (name (ctx st) sym ++ ".min_orig")%string)
    as [ctx1 orig] eqn:E.
  cbn [fst snd] in *. rewrite Hb. cbn [bind].
  assert (Hne : expr_eqb
                  (imin (li_bounds (last (loops st1)
                     {| li_sym := sym; orig_min := variable orig;
                        li_bounds := {| imin := variable orig; imax := imax lb |};
                        li_step := step |})))
                  (variable orig) = false).
  { destruct (imin (li_bounds (last (loops st1) _))) eqn:El; try reflexivity.
    simpl in Hv. simpl. exact Hv. }
  rewrite Hne, Hv. reflexivity.
Qed.

Lemma lookup_box_assign_eq (m : symbol_map box_expr) sym v :
  lookup (assign m sym v) sym = v.
Proof. apply lookup_assign_eq. Qed.

(** C3, as the code has it.  For the output [output] with bounds [bnds],
    the candidate loop [l = loops[op]] and the dimension [d] with bounds
    [cur] that depend on the loop variable: when the overlap of [prev] and
    [cur] is not proved empty and [prev.min <= cur.min && prev.max <=
    cur.max] is proved (both with infinity for the loop max), then
    - the fold factor [simplify(align_up(e, step))] is recorded for
      [(output, d)], with [e = simplify(bounds_of(extent).max)], provided
      [e] does not depend on the loop variable; otherwise nothing is
      recorded;
    - with [new_loop_min] the max of [where_true(new_min at x <= old_min at
      the loop min, x)]: if it is not minus infinity the loop min becomes
      [new_loop_min] and the min of the dimension becomes [new_min =
      simplify(prev.max + 1)]; otherwise the loop min is kept and the min of
      the dimension becomes [select(sym == orig_min, old_min, new_min)];
    - the loop over the dimensions is left: no other dimension of the
      output is changed for this loop. *)
Theorem monotonic_dimension_slid :
  forall output op l bnds d cur count st,
    lookup (buffer_bounds st) output = Some bnds ->
    nth_error (loops st) op = Some l ->
    nth_error bnds d = Some cur ->
    ExprOps.interval_depends_on cur (li_sym l) = true ->
    prove_true (ignore_loop_max (imax (li_bounds l))
                  (interval_empty (interval_and (prev_bounds cur l) cur))) = false ->
    prove_true (ignore_loop_max (imax (li_bounds l))
                  (is_monotonic_increasing (prev_bounds cur l) cur)) = true ->
    let st' := slide_dims_ output op d (S count) st in
    let ff := extent_bound simplify bounds_of cur l in
    let new_min := slid_min simplify cur l in
    let new_loop_min := solved_loop_min simplify where_true x cur l in
    lookup (fold_factors st') output
      = (if ExprOps.depends_on ff (li_sym l)
         then lookup (fold_factors st) output
         else Some (d, simplify (align_up ff (li_step l))))
    /\ (is_negative_infinity new_loop_min = false ->
        nth_error (loops st') op = Some (set_loop_min new_loop_min l)
        /\ lookup (buffer_bounds st') output
           = Some (list_update bnds d (set_min new_min)))
    /\ (is_negative_infinity new_loop_min = true ->
        loops st' = loops st
        /\ lookup (buffer_bounds st') output
           = Some (list_update bnds d
                     (set_min (select (op_eq (variable (li_sym l)) (orig_min l))
                                      (imin cur) new_min))))
    /\ (forall bnds' d', lookup (buffer_bounds st') output = Some bnds' ->
          d' <> d -> nth_error bnds' d' = nth_error bnds d').
Proof.
  intros output op l bnds d cur count st Hb Hl Hd Hdep Hov Hinc.
  cbv zeta. cbn [slide_dims]. unfold box_expr in *. rewrite Hb, Hl, Hd.
  unfold slide_dim. rewrite Hdep, Hov, Hinc. cbn [negb].
  destruct (is_negative_infinity (solved_loop_min simplify where_true x cur l)) eqn:En;
    cbn [negb];
    destruct (ExprOps.depends_on (extent_bound simplify bounds_of cur l) (li_sym l)) eqn:Ef;
    cbn [negb fst snd]; unfold set_bounds_min, record_fold;
    cbn [fold_factors buffer_bounds loops with_buffer_bounds with_fold_factors with_loops];
    rewrite ?lookup_assign_eq.
  all: split; [reflexivity|].
  all: split; [intro Hx; first [discriminate Hx|split;
               [apply nth_error_list_update_eq; exact Hl|reflexivity]]|].
  all: split; [intro Hx; first [discriminate Hx|split; reflexivity]|].
  all: intros bnds' d' Hb' Hne; injection Hb' as <-;
    apply nth_error_list_update_ne; congruence.
Qed.

End WithOracles.

End SlideAndFoldFacts.

(* ===================================================================== *)
(** * The sample simplifier is sound                                      *)
(* ===================================================================== *)

Module SampleSimplifierFacts.
Import IR ExprOps SampleSimplifier.
Local Open Scope Z_scope.

Lemma terms_value_app env a b :
  terms_value env (a ++ b) = terms_value env a + terms_value env b.
Proof. induction a as [|t a IH]; simpl; [reflexivity|]. rewrite IH. lia. Qed.

Lemma terms_value_scale env k ts :
  terms_value env (map (fun t => (fst t, k * snd t)) ts) = k * terms_value env ts.
Proof. induction ts as [|t ts IH]; simpl; [lia|]. rewrite IH. lia. Qed.

Lemma add_term_value env t ts :
  terms_value env (add_term t ts) = snd t * env (fst t) + terms_value env ts.
Proof.
  induction ts as [|[w j] ts IH]; simpl; [lia|].
  destruct (Nat.eqb w (fst t)) eqn:E; simpl.
  - apply Nat.eqb_eq in E. subst w. lia.
  - rewrite IH. lia.
Qed.

Lemma normalize_value env ts : terms_value env (normalize ts) = terms_value env ts.
Proof.
  induction ts as [|t ts IH]; [reflexivity|].
  change (normalize (t :: ts)) with (add_term t (normalize ts)).
  rewrite add_term_value, IH. reflexivity.
Qed.

Lemma all_zero_value env ts :
  forallb (fun t => snd t =? 0) ts = true -> terms_value env ts = 0.
Proof.
  induction ts as [|t ts IH]; simpl; [reflexivity|].
  intro H. apply andb_true_iff in H. destruct H as [H1 H2].
  apply Z.eqb_eq in H1. rewrite H1, (IH H2). lia.
Qed.

Lemma constant_form_value env l :
  constant_form l = true -> linear_value env l = snd l.
Proof.
  unfold constant_form, linear_value. intro H.
  rewrite <- normalize_value, (all_zero_value env _ H). lia.
Qed.

Lemma linearize_sound e : forall l env,
  linearize e = Some l -> eval env e = Some (linear_value env l).
Proof.
  induction e using expr_ind'; intros l env Hl; simpl in Hl; try discriminate.
  - injection Hl as <-. unfold linear_value, terms_value.
    cbn [fold_right fst snd eval]. f_equal. lia.
  - injection Hl as <-. reflexivity.
  - destruct op; try discriminate.
    + destruct (linearize e1) as [la|]; [|discriminate].
      destruct (linearize e2) as [lb|]; [|discriminate]. injection Hl as <-.
      cbn [eval]. rewrite (IHe1 la env eq_refl), (IHe2 lb env eq_refl).
      cbn [eval_binary]. unfold linear_value, plus. cbn [fst snd].
      rewrite terms_value_app. f_equal. lia.
    + destruct (linearize e1) as [la|]; [|discriminate].
      destruct (linearize e2) as [lb|]; [|discriminate]. injection Hl as <-.
      cbn [eval]. rewrite (IHe1 la env eq_refl), (IHe2 lb env eq_refl).
      cbn [eval_binary]. unfold linear_value, plus, scale. cbn [fst snd].
      rewrite terms_value_app, terms_value_scale. f_equal. lia.
    + destruct e2; try discriminate.
      destruct (linearize e1) as [la|]; [|discriminate]. injection Hl as <-.
      cbn [eval]. rewrite (IHe1 la env eq_refl).
      cbn [eval_binary]. unfold linear_value, scale. cbn [fst snd].
      rewrite terms_value_scale. f_equal. lia.
Qed.

Lemma closed_eval e : closed e = true ->
  forall env1 env2, eval env1 e = eval env2 e.
Proof.
  induction e using expr_ind'; simpl; intros Hc env1 env2; try discriminate.
  - reflexivity.
  - apply andb_true_iff in Hc. destruct Hc as [H1 H2].
    rewrite (IHe1 H1 env1 env2), (IHe2 H2 env1 env2). reflexivity.
  - rewrite (IHe Hc env1 env2). reflexivity.
  - apply andb_true_iff in Hc. destruct Hc as [Hc H3].
    apply andb_true_iff in Hc. destruct Hc as [H1 H2].
    rewrite (IHe1 H1 env1 env2), (IHe2 H2 env1 env2), (IHe3 H3 env1 env2).
    reflexivity.
Qed.

(** [simplify] returns a node of the same value. *)
Lemma simplify_sound e env : eval env (simplify e) = eval env e.
Proof.
  unfold simplify. destruct (closed e) eqn:Ec.
  - destruct (eval (fun _ => 0) e) as [c|] eqn:Ev; [|reflexivity].
    simpl. rewrite (closed_eval e Ec env (fun _ => 0)). congruence.
  - destruct (linearize e) as [l|] eqn:El; [|reflexivity].
    destruct (constant_form l) eqn:Ef; [|reflexivity].
    simpl. rewrite (linearize_sound e env El), (constant_form_value env l Ef).
    reflexivity.
Qed.

(** What [prove_true] accepts is true under every assignment. *)
Lemma prove_true_sound e :
  prove_true e = true -> forall env, eval env e = Some 1.
Proof.
  induction e using expr_ind'; simpl; try discriminate.
  destruct op; try discriminate.
  - (* less_equal *)
    intros Hp env.
    destruct (linearize e2) as [lb|] eqn:Eb; [|discriminate].
    destruct (linearize e1) as [la|] eqn:Ea; [|discriminate].
    apply andb_true_iff in Hp. destruct Hp as [Hf Hc].
    rewrite (linearize_sound e1 env Ea), (linearize_sound e2 env Eb).
    cbn [eval_binary].
    pose proof (constant_form_value env _ Hf) as Hv.
    unfold linear_value, plus, scale in Hv. cbn [fst snd] in Hv.
    rewrite terms_value_app, terms_value_scale in Hv.
    apply Z.leb_le in Hc. cbn [plus scale snd] in Hc.
    unfold linear_value.
    replace (terms_value env (fst la) + snd la <=? terms_value env (fst lb) + snd lb)
      with true; [reflexivity|].
    symmetry. apply Z.leb_le. lia.
  - (* logical_and *)
    intros Hp env. apply andb_true_iff in Hp. destruct Hp as [H1 H2].
    rewrite (IHe1 H1 env), (IHe2 H2 env). reflexivity.
Qed.

(** [bounds_of] encloses the expression. *)
Lemma bounds_of_sound e env v :
  eval env e = Some v ->
  eval env (imin (bounds_of e)) = Some v /\ eval env (imax (bounds_of e)) = Some v.
Proof. intro H. split; exact H. Qed.


Lemma find_add_term t ts v :
  found (find_term (add_term t ts) v)
  = (if Nat.eqb (fst t) v then snd t else 0) + found (find_term ts v).
Proof.
  destruct t as [w k]. cbn [fst snd].
  induction ts as [|[u j] ts IH]; cbn [add_term find_term fst snd].
  - destruct (Nat.eqb w v); simpl; lia.
  - destruct (Nat.eqb u w) eqn:Euw; cbn [find_term].
    + apply Nat.eqb_eq in Euw. subst u.
      destruct (Nat.eqb w v); simpl; lia.
    + destruct (Nat.eqb u v) eqn:Euv.
      * apply Nat.eqb_eq in Euv. subst u.
        rewrite Nat.eqb_sym, Euw. simpl. lia.
      * exact IH.
Qed.

Lemma coefficient_cons t ts v :
  coefficient (t :: ts) v
  = (if Nat.eqb (fst t) v then snd t else 0) + coefficient ts v.
Proof.
  unfold coefficient.
  change (normalize (t :: ts)) with (add_term t (normalize ts)).
  apply find_add_term.
Qed.

(** How the value of a list of terms depends on one variable. *)
Lemma terms_value_set env x v ts :
  terms_value (env_set env x v) ts
  = coefficient ts x * v + terms_value (env_set env x 0) ts.
Proof.
  induction ts as [|[w k] ts IH].
  - reflexivity.
  - rewrite coefficient_cons.
    change (terms_value (env_set env x v) ((w, k) :: ts))
      with (k * env_set env x v w + terms_value (env_set env x v) ts).
    change (terms_value (env_set env x 0) ((w, k) :: ts))
      with (k * env_set env x 0 w + terms_value (env_set env x 0) ts).
    rewrite IH. cbn [fst snd]. unfold env_set.
    destruct (Nat.eqb w x); lia.
Qed.

(** When [where_true] finds a bound, every [x] up to it satisfies the
    condition. *)
Lemma where_true_sound e1 e2 x env v bound :
  is_negative_infinity (imax (where_true (binary less_equal e1 e2) x)) = false ->
  eval env (imax (where_true (binary less_equal e1 e2) x)) = Some bound ->
  v <= bound ->
  eval (env_set env x v) (binary less_equal e1 e2) = Some 1.
Proof.
  cbn [where_true]. destruct (linearize e1) as [l|] eqn:El; [|discriminate].
  destruct ((coefficient (fst l) x =? 1) && negb (depends_on e2 x)) eqn:Ec;
    [|discriminate].
  apply andb_true_iff in Ec. destruct Ec as [Hk Hd].
  apply Z.eqb_eq in Hk. apply negb_true_iff in Hd.
  intros _ Hb Hv. cbn [imax op_sub eval] in Hb.
  rewrite (@ExprOpsFacts.eval_substitute e1 x (constant 0) 0 (fun _ => eq_refl)) in Hb.
  rewrite (linearize_sound e1 (env_set env x 0) El) in Hb.
  destruct (eval env e2) as [v2|] eqn:E2; [|discriminate].
  cbn [eval_binary] in Hb. injection Hb as <-.
  cbn [eval]. rewrite (linearize_sound e1 (env_set env x v) El).
  rewrite (@ExprOpsFacts.eval_independent e2 x v Hd env), E2.
  cbn [eval_binary]. unfold linear_value in *.
  rewrite terms_value_set, Hk.
  replace (1 * v + terms_value (env_set env x 0) (fst l) + snd l <=? v2) with true;
    [reflexivity|].
  symmetry. apply Z.leb_le. lia.
Qed.

End SampleSimplifierFacts.

(* ===================================================================== *)
(** * Slide-and-fold on concrete pipelines                                *)
(* ===================================================================== *)

Module SlideAndFoldExamples.
Import IR SymbolMap NodeContext SlideAndFold SlideAndFoldFacts SampleSimplifier
  SlidePipelines.

Lemma monotonic_dimension_slid_witness :
  let st' := slide_dims prove_true simplify bounds_of where_true align_up 9
               3 0 0 1 (inside_loop [stencil_bounds]) in
  lookup (fold_factors st') 3 = Some (0, constant 3%Z)
  /\ nth_error (loops st') 0
     = Some (set_loop_min
               (op_sub (op_sub (variable 5) (constant 1%Z))
                  (op_add (op_add (op_sub (constant 0%Z) (constant 1%Z))
                                  (constant 1%Z))
                          (constant 1%Z)))
               loop_x)
  /\ lookup (buffer_bounds st') 3
     = Some [ {| imin := op_add (op_add (op_sub (variable 2) (constant 1%Z))
                                        (constant 1%Z))
                                (constant 1%Z);
                 imax := op_add (variable 2) (constant 1%Z) |} ].
Proof.
  destruct (@monotonic_dimension_slid prove_true simplify bounds_of where_true
              align_up 9 3 0 loop_x [stencil_bounds] 0 stencil_bounds 0
              (inside_loop [stencil_bounds])
              eq_refl eq_refl eq_refl eq_refl eq_refl eq_refl)
    as (Hf & Hfound & _ & _).
  split; [exact Hf|]. exact (Hfound eq_refl).
Defined.

(** The prover's answers used above are right: the stencil's bounds move
    up with the loop variable under every assignment. *)
Lemma stencil_is_monotonic env :
  ExprOps.eval env
    (ignore_loop_max (imax (li_bounds loop_x))
       (is_monotonic_increasing (prev_bounds stencil_bounds loop_x) stencil_bounds))
  = Some 1%Z.
Proof. apply SampleSimplifierFacts.prove_true_sound. reflexivity. Qed.

(** C3 (counterexample to the claim as stated).  First, the dimension
    [[0, x]] of [p] depends on the loop variable and is proved monotone
    increasing, yet no fold factor is recorded for it: the bound of its
    extent depends on the loop variable.  Second, for a two-dimensional
    output whose dimensions both need [[x - 1, x + 1]], the first is slid
    and the second keeps its min [x - 1], although it satisfies the same
    conditions: the loop over the dimensions is left after the first. *)
Lemma sliding_skips_fold_factor_and_later_dimensions :
  (ExprOps.interval_depends_on prefix_bounds 2 = true
   /\ prove_true
        (ignore_loop_max (imax (li_bounds loop_x))
           (is_monotonic_increasing (prev_bounds prefix_bounds loop_x) prefix_bounds))
      = true
   /\ lookup
        (fold_factors
           (visit_call_or_copy prove_true simplify bounds_of where_true align_up 9
              [3] (inside_loop [prefix_bounds]))) 3
      = None)
  /\ (ExprOps.interval_depends_on stencil_bounds 2 = true
      /\ prove_true
           (ignore_loop_max (imax (li_bounds loop_x))
              (is_monotonic_increasing (prev_bounds stencil_bounds loop_x)
                 stencil_bounds))
         = true
      /\ exists first,
           lookup
             (buffer_bounds
                (visit_call_or_copy prove_true simplify bounds_of where_true
                   align_up 9 [3] (inside_loop [stencil_bounds; stencil_bounds]))) 3
           = Some [first; stencil_bounds]
           /\ imin first <> imin stencil_bounds).
Proof.
  split; [repeat split|].
  split; [reflexivity|]. split; [reflexivity|].
  eexists. split; [reflexivity|]. discriminate.
Qed.

(** Serial loop: the allocation is folded by 3, the producer computes only
    [[x + 1, x + 1]] and the loop starts two iterations early, the original
    min bound to [x.min_orig = 4]. *)
Lemma sliding_stencil :
  exists st',
    mutate prove_true simplify bounds_of where_true align_up 9 3
      (stencil_pipeline serial) stencil_initial
    = ok (allocate 3 heap 4
            [ {| bounds := bounds p_dim; stride := constant 4%Z;
                 fold_factor := constant 3%Z |} ]
            (let_stmt 4 (imin out_bounds)
               (loop 2 serial
                  {| imin := op_sub (op_sub (variable 4) (constant 1%Z))
                               (op_add (op_add (op_sub (constant 0%Z) (constant 1%Z))
                                               (constant 1%Z))
                                       (constant 1%Z));
                     imax := imax out_bounds |}
                  (constant 1%Z)
                  (block
                     (crop_buffer 3
                        [ {| imin := op_add (op_add (op_sub (variable 2) (constant 1%Z))
                                                    (constant 1%Z))
                                            (constant 1%Z);
                             imax := op_add (variable 2) (constant 1%Z) |} ]
                        (call_stmt 0 [0] [3]))
                     (call_stmt 1 [3] [1])))),
          st').
Proof. eexists. reflexivity. Qed.



(** The same pipeline with a parallel loop: nothing is folded (the fold
    factor of the allocation is erased) and the loop is as it was. *)
Lemma parallel_stencil_untouched :
  exists st',
    mutate prove_true simplify bounds_of where_true align_up 9 3
      (stencil_pipeline parallel) stencil_initial
    = ok (allocate 3 heap 4
            [ {| bounds := bounds p_dim; stride := constant 4%Z;
                 fold_factor := expr_undef |} ]
            (loop 2 parallel out_bounds (constant 1%Z) stencil_body),
          st').
Proof. eexists. reflexivity. Qed.

End SlideAndFoldExamples.

(* ===================================================================== *)
(** * Facts about node_context                                            *)
(* ===================================================================== *)

Module NodeContextFacts.
Import IR NodeContext NodeContextOps.

Lemma find_filter_other (m : list (string * symbol_id)) nm nm' :
  find (filter (fun kv => negb (String.eqb (fst kv) nm)) m) nm'
  = if String.eqb nm nm' then None else find m nm'.
Proof.
  induction m as [|[k v] m IH]; simpl.
  - destruct (String.eqb nm nm'); reflexivity.
  - destruct (String.eqb k nm) eqn:Ek; simpl.
    + apply String.eqb_eq in Ek. subst k. rewrite IH.
      destruct (String.eqb nm nm'); reflexivity.
    + rewrite IH. destruct (String.eqb k nm') eqn:Ek'; [|reflexivity].
      apply String.eqb_eq in Ek'. subst k. rewrite String.eqb_sym, Ek.
      reflexivity.
Qed.

Lemma consistent_bound ctx nm i :
  consistent ctx -> find (name_to_id ctx) nm = Some i ->
  i < List.length (id_to_name ctx).
Proof.
  intros Hc Hf. apply Hc in Hf. apply nth_error_Some. congruence.
Qed.

Lemma consistent_empty : consistent empty.
Proof.
  intros nm i. simpl. split; [discriminate|].
  destruct i; discriminate.
Qed.

(** Appending a name that the map does not hold, under the next id, keeps
    the two members in step. *)
Lemma consistent_extend m names nm :
  consistent {| name_to_id := m; id_to_name := names |} ->
  find m nm = None ->
  forall m',
    (forall nm', find m' nm'
                 = if String.eqb nm nm' then Some (List.length names) else find m nm') ->
    consistent {| name_to_id := m'; id_to_name := (names ++ [nm])%list |}.
Proof.
  intros Hc Hnone m' Hm' nm' i. simpl. rewrite Hm'.
  destruct (String.eqb nm nm') eqn:E.
  - apply String.eqb_eq in E. subst nm'. split.
    + intros [= <-]. rewrite nth_error_app2 by lia.
      rewrite Nat.sub_diag. reflexivity.
    + intro H. destruct (Nat.lt_ge_cases i (List.length names)) as [Hlt|Hge].
      * rewrite nth_error_app1 in H by exact Hlt.
        apply (Hc nm i) in H. simpl in H. congruence.
      * rewrite nth_error_app2 in H by exact Hge.
        destruct (i - List.length names) as [|k] eqn:Ek.
        -- f_equal. lia.
        -- simpl in H. destruct k; discriminate.
  - assert (Hne : nm <> nm') by (intro; subst; rewrite String.eqb_refl in E; discriminate).
    split.
    + intro H. apply (Hc nm' i) in H. simpl in H.
      rewrite nth_error_app1; [exact H|]. apply nth_error_Some. congruence.
    + intro H. destruct (Nat.lt_ge_cases i (List.length names)) as [Hlt|Hge].
      * rewrite nth_error_app1 in H by exact Hlt. apply (Hc nm' i). exact H.
      * rewrite nth_error_app2 in H by exact Hge.
        destruct (i - List.length names) as [|k].
        -- simpl in H. congruence.
        -- simpl in H. destruct k; discriminate.
Qed.

Lemma insert_consistent ctx nm :
  consistent ctx -> consistent (fst (insert ctx nm)).
Proof.
  intro Hc. unfold insert. destruct (find (name_to_id ctx) nm) eqn:Hf; simpl.
  - exact Hc.
  - destruct ctx as [m names]. simpl in *.
    apply consistent_extend with (m := m);
      [exact Hc | exact Hf | intro nm'; reflexivity].
Qed.

(** The context after the calls [insert(n)] for the names of a list. *)
Lemma inserts_snoc ctx names nm :
  fold_left (fun c n => fst (insert c n)) (names ++ [nm])%list ctx
  = fst (insert (fold_left (fun c n => fst (insert c n)) names ctx) nm).
Proof. rewrite fold_left_app. reflexivity. Qed.

(** X1: [node_context::insert(name)] keeps the name table and the id table
    one bijection: whatever names are inserted one after the other, every
    name of the map has exactly the id under which the vector holds it, and
    the other way round. *)
Theorem inserts_keep_consistent ctx names :
  consistent ctx ->
  consistent (fold_left (fun c n => fst (insert c n)) names ctx).
Proof.
  revert ctx. induction names as [|nm names IH]; intros ctx Hc; simpl.
  - exact Hc.
  - apply IH. apply insert_consistent. exact Hc.
Qed.

Lemma inserts_keep_consistent_witness :
  consistent
    (fold_left (fun c n => fst (insert c n)) ["in"; "out"; "in"; "x"]%string empty).
Proof.
  exact (@inserts_keep_consistent empty ["in"; "out"; "in"; "x"]%string
           consistent_empty).
Defined.

(** X2: the id [insert(name)] returns names the string again: [name] of it
    is the string, [lookup] of the string is the id, and the id is inside
    the vector. *)
Theorem insert_round_trip ctx nm :
  consistent ctx ->
  let r := insert ctx nm in
  name (fst r) (snd r) = nm
  /\ lookup (fst r) nm = Some (snd r)
  /\ snd r < List.length (id_to_name (fst r)).
Proof.
  intro Hc. cbv zeta. unfold insert, lookup, name.
  destruct (find (name_to_id ctx) nm) as [i|] eqn:Hf; simpl.
  - pose proof Hf as Hn. apply Hc in Hn.
    pose proof (@consistent_bound _ _ _ Hc Hf) as Hb.
    rewrite Hf. apply Nat.ltb_lt in Hb. rewrite Hb.
    split; [|split; [reflexivity|apply Nat.ltb_lt; exact Hb]].
    apply nth_error_nth. exact Hn.
  - rewrite String.eqb_refl. rewrite length_app. simpl.
    assert (Hb : (List.length (id_to_name ctx) <? List.length (id_to_name ctx) + 1) = true)
      by (apply Nat.ltb_lt; lia).
    rewrite Hb. split; [|split; [reflexivity|lia]].
    rewrite app_nth2 by lia. rewrite Nat.sub_diag. reflexivity.
Qed.

Lemma insert_round_trip_witness :
  let r := insert (fst (insert empty "in")) "out" in
  name (fst r) (snd r) = "out"%string
  /\ lookup (fst r) "out" = Some (snd r)
  /\ snd r < List.length (id_to_name (fst r)).
Proof.
  exact (@insert_round_trip (fst (insert empty "in")) "out"
           (@insert_consistent empty "in" consistent_empty)).
Defined.

Lemma insert_find_self ctx nm :
  find (name_to_id (fst (insert ctx nm))) nm = Some (snd (insert ctx nm)).
Proof.
  unfold insert. destruct (find (name_to_id ctx) nm) eqn:Hf; simpl.
  - exact Hf.
  - rewrite String.eqb_refl. reflexivity.
Qed.

Lemma insert_find ctx nm nm' i :
  find (name_to_id ctx) nm' = Some i ->
  find (name_to_id (fst (insert ctx nm))) nm' = Some i.
Proof.
  intro H. unfold insert.
  destruct (find (name_to_id ctx) nm) eqn:Hf; simpl; [exact H|].
  destruct (String.eqb nm nm') eqn:E; [|exact H].
  apply String.eqb_eq in E. subst nm'. congruence.
Qed.

(** X3: a symbol that is in the context keeps its id and its name when
    another name is inserted. *)
Theorem insert_keeps_symbols ctx nm nm' i :
  consistent ctx ->
  lookup ctx nm' = Some i ->
  lookup (fst (insert ctx nm)) nm' = Some i
  /\ name (fst (insert ctx nm)) i = nm'
  /\ name ctx i = nm'.
Proof.
  intros Hc Hl.
  assert (Hf : find (name_to_id ctx) nm' = Some i).
  { unfold lookup in Hl. destruct (find (name_to_id ctx) nm'); congruence. }
  pose proof (insert_consistent nm Hc) as Hc'.
  pose proof (@insert_find ctx nm nm' i Hf) as Hf'.
  split; [|split].
  - unfold lookup. rewrite Hf'. reflexivity.
  - unfold name. pose proof (@consistent_bound _ _ _ Hc' Hf') as Hb.
    apply Nat.ltb_lt in Hb. rewrite Hb. apply nth_error_nth. apply Hc'. exact Hf'.
  - unfold name. pose proof (@consistent_bound _ _ _ Hc Hf) as Hb.
    apply Nat.ltb_lt in Hb. rewrite Hb. apply nth_error_nth. apply Hc. exact Hf.
Qed.

Lemma insert_keeps_symbols_witness :
  lookup (fst (insert (fst (insert empty "in")) "out")) "in" = Some 0
  /\ name (fst (insert (fst (insert empty "in")) "out")) 0 = "in"%string
  /\ name (fst (insert empty "in")) 0 = "in"%string.
Proof.
  apply (@insert_keeps_symbols (fst (insert empty "in")) "out" "in" 0).
  - exact (@insert_consistent empty "in" consistent_empty).
  - reflexivity.
Defined.

(** X4: [make_variable] gives one variable per name: called for two names,
    one after the other, it returns the same variable exactly when the
    names are the same. *)
Theorem make_variable_same_iff_same_name ctx n1 n2 :
  consistent ctx ->
  let r1 := make_variable ctx n1 in
  let r2 := make_variable (fst r1) n2 in
  snd r1 = snd r2 <-> n1 = n2.
Proof.
  intro Hc. cbv zeta. unfold make_variable.
  destruct (insert ctx n1) as [ctx1 id1] eqn:E1. simpl.
  destruct (insert ctx1 n2) as [ctx2 id2] eqn:E2. simpl.
  pose proof (insert_consistent n1 Hc) as Hc1. rewrite E1 in Hc1. simpl in Hc1.
  pose proof (insert_consistent n2 Hc1) as Hc2. rewrite E2 in Hc2. simpl in Hc2.
  pose proof (insert_find_self ctx n1) as F1. rewrite E1 in F1. simpl in F1.
  pose proof (insert_find_self ctx1 n2) as F2. rewrite E2 in F2. simpl in F2.
  pose proof (@insert_find ctx1 n2 n1 id1 F1) as F1'. rewrite E2 in F1'. simpl in F1'.
  split.
  - intros [= ->]. apply Hc2 in F1'. apply Hc2 in F2. congruence.
  - intros <-. f_equal. congruence.
Qed.

Lemma make_variable_same_iff_same_name_witness :
  let r1 := make_variable empty "x" in
  let r2 := make_variable (fst r1) "y" in
  snd r1 = snd r2 <-> "x"%string = "y"%string.
Proof.
  exact (@make_variable_same_iff_same_name empty "x" "y" consistent_empty).
Defined.

(** X5: [node_context::insert()] returns the next id and registers it
    under the name ["t<id>"], which [name] and [lookup] then give back; the
    context stays a bijection exactly when that name was not in use: a
    symbol that was inserted under the name ["t<id>"] before loses it. *)
Theorem insert_unnamed_consistent_iff ctx :
  consistent ctx ->
  let id := List.length (id_to_name ctx) in
  let r := insert_unnamed ctx in
  snd r = id
  /\ name (fst r) id = ("t" ++ to_string id)%string
  /\ lookup (fst r) ("t" ++ to_string id) = Some id
  /\ (consistent (fst r) <-> lookup ctx ("t" ++ to_string id) = None).
Proof.
  intro Hc. cbv zeta.
  set (id := List.length (id_to_name ctx)).
  set (tn := ("t" ++ to_string id)%string).
  assert (Hr : insert_unnamed ctx
               = ({| name_to_id := map_set (name_to_id ctx) tn id;
                     id_to_name := (id_to_name ctx ++ [tn])%list |}, id))
    by reflexivity.
  rewrite Hr. clear Hr.
  assert (Hid : id = List.length (id_to_name ctx)) by reflexivity.
  clearbody tn id. cbn [fst snd].
  split; [reflexivity|]. split; [|split].
  - unfold name. cbn [id_to_name]. rewrite length_app. cbn [List.length].
    assert (Hb : (id <? List.length (id_to_name ctx) + 1) = true)
      by (apply Nat.ltb_lt; lia).
    rewrite Hb. rewrite app_nth2 by lia.
    rewrite Hid, Nat.sub_diag. reflexivity.
  - unfold lookup, map_set. cbn [name_to_id find]. rewrite String.eqb_refl.
    reflexivity.
  - unfold lookup. split.
    + intro Hc'. destruct (find (name_to_id ctx) tn) as [j|] eqn:Hf; [|reflexivity].
      exfalso.
      pose proof (@consistent_bound _ _ _ Hc Hf) as Hb.
      pose proof Hf as Hn. apply Hc in Hn.
      assert (Hn' : nth_error (id_to_name ctx ++ [tn]) j = Some tn)
        by (rewrite nth_error_app1 by exact Hb; exact Hn).
      apply (Hc' tn j) in Hn'. unfold map_set in Hn'. cbn [name_to_id find] in Hn'.
      rewrite String.eqb_refl in Hn'. injection Hn' as Hj. lia.
    + intro Hnone.
      assert (Hf : find (name_to_id ctx) tn = None)
        by (destruct (find (name_to_id ctx) tn); [discriminate|reflexivity]).
      destruct ctx as [m names]. cbn [name_to_id id_to_name] in *. subst id.
      apply consistent_extend with (m := m); [exact Hc | exact Hf |].
      intro nm'. unfold map_set. cbn [find].
      destruct (String.eqb tn nm') eqn:E; [reflexivity|].
      rewrite find_filter_other, E. reflexivity.
Qed.

Lemma insert_unnamed_consistent_iff_witness :
  let ctx := fst (insert (fst (insert empty "in")) "t2") in
  let r := insert_unnamed ctx in
  snd r = 2
  /\ name (fst r) 2 = "t2"%string
  /\ lookup (fst r) "t2" = Some 2
  /\ (consistent (fst r) <-> lookup ctx "t2" = None).
Proof.
  exact (@insert_unnamed_consistent_iff
           (fst (insert (fst (insert empty "in")) "t2"))
           (@insert_consistent (fst (insert empty "in")) "t2"
              (@insert_consistent empty "in" consistent_empty))).
Defined.

End NodeContextFacts.

(* ===================================================================== *)
(** * Facts about the initializer-list constructor of stmt                *)
(* ===================================================================== *)

Module StmtInitFacts.
Import IR StmtInit.

Lemma leaves_fold_step l : forall acc,
  leaves (fold_left stmt_init_step l acc)
  = (leaves acc ++ List.concat (map leaves l))%list.
Proof.
  induction l as [|i l IH]; intro acc; simpl.
  - rewrite app_nil_r. reflexivity.
  - rewrite IH. unfold stmt_init_step.
    destruct acc; simpl; rewrite ?app_assoc; reflexivity.
Qed.

Lemma defined_fold_step l : forall acc,
  stmt_defined (fold_left stmt_init_step l acc)
  = stmt_defined acc || existsb stmt_defined l.
Proof.
  induction l as [|i l IH]; intro acc; simpl.
  - rewrite orb_false_r. reflexivity.
  - rewrite IH. unfold stmt_init_step.
    destruct (stmt_defined acc) eqn:E; simpl; [reflexivity|].
    reflexivity.
Qed.

Lemma fold_step_defined l : forall acc,
  stmt_defined acc = true ->
  fold_left stmt_init_step l acc = fold_left block l acc.
Proof.
  induction l as [|i l IH]; intros acc Hd; simpl; [reflexivity|].
  unfold stmt_init_step at 2. rewrite Hd. apply IH. reflexivity.
Qed.

(** X6: the initializer-list constructor of [stmt] keeps every leaf
    statement of its arguments, in order; the result is defined exactly
    when some argument is; undefined arguments are skipped only before the
    first defined one, after which every argument, defined or not, becomes
    the right operand of a new block around the result so far. *)
Theorem stmt_init_spec (l : list stmt) :
  leaves (stmt_init l) = List.concat (map leaves l)
  /\ stmt_defined (stmt_init l) = existsb stmt_defined l
  /\ (forall n s rest,
        stmt_defined s = true ->
        l = (repeat stmt_undef n ++ s :: rest)%list ->
        stmt_init l = fold_left block rest s).
Proof.
  unfold stmt_init. split; [|split].
  - rewrite leaves_fold_step. reflexivity.
  - rewrite defined_fold_step. reflexivity.
  - intros n s rest Hd ->. induction n as [|n IH]; simpl.
    + unfold stmt_init_step at 2. simpl. apply fold_step_defined. exact Hd.
    + exact IH.
Qed.

End StmtInitFacts.

(* ===================================================================== *)
(** * Facts about the operators of interval.h                             *)
(* ===================================================================== *)

Module IntervalOpsFacts.
Import ExprH Interval.
Local Open Scope Z_scope.

Lemma contains_iff env i lo hi x :
  eval env (imin i) = Some lo -> eval env (imax i) = Some hi ->
  (contains env i x <-> lo <= x <= hi).
Proof.
  intros Hlo Hhi. unfold contains. split.
  - intros (l & h & Hl & Hh & Hx). congruence.
  - intro Hx. exists lo, hi. auto.
Qed.

(** X7: [operator|] is the hull of its operands: when the four bounds
    have values, the points of [l | r] are those between the smaller min
    and the larger max, so the result holds every point of [l] and every
    point of [r]. *)
Theorem interval_or_is_hull env l r llo lhi rlo rhi :
  eval env (imin l) = Some llo -> eval env (imax l) = Some lhi ->
  eval env (imin r) = Some rlo -> eval env (imax r) = Some rhi ->
  (forall x, contains env (interval_or l r) x
             <-> Z.min llo rlo <= x <= Z.max lhi rhi)
  /\ (forall x, contains env l x \/ contains env r x ->
                contains env (interval_or l r) x).
Proof.
  intros Hll Hlh Hrl Hrh.
  assert (Hmin : eval env (imin (interval_or l r)) = Some (Z.min llo rlo))
    by (simpl; rewrite Hll, Hrl; reflexivity).
  assert (Hmax : eval env (imax (interval_or l r)) = Some (Z.max lhi rhi))
    by (simpl; rewrite Hlh, Hrh; reflexivity).
  split.
  - intro x. apply contains_iff; assumption.
  - intros x [H|H].
    + apply (@contains_iff _ _ _ _ x Hll Hlh) in H. apply (@contains_iff _ _ _ _ x Hmin Hmax). lia.
    + apply (@contains_iff _ _ _ _ x Hrl Hrh) in H. apply (@contains_iff _ _ _ _ x Hmin Hmax). lia.
Qed.

Lemma interval_or_is_hull_witness :
  (forall x, contains (fun _ => 0) (interval_or (point 0 3) (point 10 12)) x
             <-> Z.min 0 10 <= x <= Z.max 3 12)
  /\ (forall x, contains (fun _ => 0) (point 0 3) x
                \/ contains (fun _ => 0) (point 10 12) x ->
                contains (fun _ => 0) (interval_or (point 0 3) (point 10 12)) x).
Proof.
  apply (@interval_or_is_hull (fun _ => 0) (point 0 3) (point 10 12) 0 3 10 12);
    reflexivity.
Defined.

(** X8: [set_extent] and [extent] are inverse to each other: after
    [i.set_extent(e)] the extent of [i] has the value of [e], the min is
    untouched, and the interval holds the [e] points from its min on. *)
Theorem set_extent_then_extent env i e lo n :
  eval env (imin i) = Some lo -> eval env e = Some n ->
  eval env (extent (set_extent i e)) = Some n
  /\ imin (set_extent i e) = imin i
  /\ (forall x, contains env (set_extent i e) x <-> lo <= x < lo + n).
Proof.
  intros Hlo He.
  assert (Hmax : eval env (imax (set_extent i e)) = Some (lo + n - 1))
    by (simpl; rewrite Hlo, He; reflexivity).
  split; [|split].
  - unfold extent. simpl. rewrite Hlo, He. simpl. f_equal. lia.
  - reflexivity.
  - intro x. rewrite (@contains_iff env (set_extent i e) lo (lo + n - 1) x Hlo Hmax).
    lia.
Qed.

Lemma set_extent_then_extent_witness :
  eval (fun _ => 0) (extent (set_extent (point 2 2) (constant 5))) = Some 5
  /\ imin (set_extent (point 2 2) (constant 5)) = imin (point 2 2)
  /\ (forall x, contains (fun _ => 0) (set_extent (point 2 2) (constant 5)) x
                <-> 2 <= x < 2 + 5).
Proof.
  apply (@set_extent_then_extent (fun _ => 0) (point 2 2) (constant 5) 2 5);
    reflexivity.
Defined.

(** X9: [operator+] and [operator-] translate an interval, and
    [operator*] scales it only for a scale that is not negative: a point
    [x] of [i] gives the point [x * s] of [i * s] when [0 <= s], while for
    [s < 0] the ends are swapped and an interval of more than one point
    becomes empty. *)
Theorem interval_translate_and_scale env i off lo hi o :
  eval env (imin i) = Some lo -> eval env (imax i) = Some hi ->
  eval env off = Some o ->
  (forall x, contains env (interval_add i off) x <-> contains env i (x - o))
  /\ (forall x, contains env (interval_sub i off) x <-> contains env i (x + o))
  /\ (forall x, contains env (interval_sub (interval_add i off) off) x
                <-> contains env i x)
  /\ (0 <= o -> forall x, contains env i x -> contains env (interval_mul i off) (x * o))
  /\ (o < 0 -> lo < hi -> forall y, ~ contains env (interval_mul i off) y).
Proof.
  intros Hlo Hhi Ho.
  assert (Hadd_lo : eval env (imin (interval_add i off)) = Some (lo + o))
    by (simpl; rewrite Hlo, Ho; reflexivity).
  assert (Hadd_hi : eval env (imax (interval_add i off)) = Some (hi + o))
    by (simpl; rewrite Hhi, Ho; reflexivity).
  assert (Hsub_lo : eval env (imin (interval_sub i off)) = Some (lo - o))
    by (simpl; rewrite Hlo, Ho; reflexivity).
  assert (Hsub_hi : eval env (imax (interval_sub i off)) = Some (hi - o))
    by (simpl; rewrite Hhi, Ho; reflexivity).
  assert (Hmul_lo : eval env (imin (interval_mul i off)) = Some (lo * o))
    by (simpl; rewrite Hlo, Ho; reflexivity).
  assert (Hmul_hi : eval env (imax (interval_mul i off)) = Some (hi * o))
    by (simpl; rewrite Hhi, Ho; reflexivity).
  assert (Hrt_lo : eval env (imin (interval_sub (interval_add i off) off))
                   = Some (lo + o - o))
    by (simpl; rewrite Hlo, Ho; reflexivity).
  assert (Hrt_hi : eval env (imax (interval_sub (interval_add i off) off))
                   = Some (hi + o - o))
    by (simpl; rewrite Hhi, Ho; reflexivity).
  repeat split.
  - intro H. apply (@contains_iff _ _ _ _ x Hadd_lo Hadd_hi) in H.
    apply (@contains_iff _ _ _ _ (x - o) Hlo Hhi). lia.
  - intro H. apply (@contains_iff _ _ _ _ (x - o) Hlo Hhi) in H.
    apply (@contains_iff _ _ _ _ x Hadd_lo Hadd_hi). lia.
  - intro H. apply (@contains_iff _ _ _ _ x Hsub_lo Hsub_hi) in H.
    apply (@contains_iff _ _ _ _ (x + o) Hlo Hhi). lia.
  - intro H. apply (@contains_iff _ _ _ _ (x + o) Hlo Hhi) in H.
    apply (@contains_iff _ _ _ _ x Hsub_lo Hsub_hi). lia.
  - intro H. apply (@contains_iff _ _ _ _ x Hrt_lo Hrt_hi) in H.
    apply (@contains_iff _ _ _ _ x Hlo Hhi). lia.
  - intro H. apply (@contains_iff _ _ _ _ x Hlo Hhi) in H.
    apply (@contains_iff _ _ _ _ x Hrt_lo Hrt_hi). lia.
  - intros Hs x H. apply (@contains_iff _ _ _ _ x Hlo Hhi) in H.
    apply (@contains_iff _ _ _ _ (x * o) Hmul_lo Hmul_hi). nia.
  - intros Hs Hlt y H. apply (@contains_iff _ _ _ _ y Hmul_lo Hmul_hi) in H. nia.
Qed.

Lemma interval_translate_and_scale_witness :
  let env := fun _ : symbol_id => 0 in
  let i := point 1 4 in
  let off := constant (-2) in
  (forall x, contains env (interval_add i off) x <-> contains env i (x - -2))
  /\ (forall x, contains env (interval_sub i off) x <-> contains env i (x + -2))
  /\ (forall x, contains env (interval_sub (interval_add i off) off) x
                <-> contains env i x)
  /\ (0 <= -2 -> forall x, contains env i x -> contains env (interval_mul i off) (x * -2))
  /\ (-2 < 0 -> 1 < 4 -> forall y, ~ contains env (interval_mul i off) y).
Proof.
  apply (@interval_translate_and_scale (fun _ => 0) (point 1 4) (constant (-2)) 1 4 (-2));
    reflexivity.
Defined.

End IntervalOpsFacts.

(* ===================================================================== *)
(** * Facts about input_crop_remover                                      *)
(* ===================================================================== *)

Module InputCropRemoverFacts.
Import IR SymbolMap SymbolMapFacts InputCropRemover.
Local Open Scope result_scope.

Lemma lookup_mark_outputs outputs : forall (st : state) i,
  lookup (mark_outputs outputs st) i
  = if existsb (Nat.eqb i) outputs then Some true else lookup st i.
Proof.
  unfold mark_outputs.
  induction outputs as [|o outputs IH]; intros st i; simpl; [reflexivity|].
  rewrite IH. destruct (existsb (Nat.eqb i) outputs).
  - rewrite orb_true_r. reflexivity.
  - rewrite orb_false_r. destruct (Nat.eqb_spec i o) as [->|Hne].
    + apply lookup_assign_eq.
    + apply lookup_assign_ne. congruence.
Qed.

(** What a visit of [s] returns and how it leaves [used_as_output]. *)
Lemma mutate_spec s : forall st,
  exists st',
    mutate s st = ok (without_unwritten_crops s, st')
    /\ forall i, lookup st' i = if written s i then Some true else lookup st i.
Proof.
  induction s; intro st; simpl;
    try (eexists; split; [reflexivity|intro i; reflexivity]).
  - (* block *)
    destruct (IHs1 st) as (st1 & -> & H1). simpl.
    destruct (IHs2 st1) as (st2 & -> & H2). simpl. eexists. split; [reflexivity|]. intro i. rewrite H2, H1.
    destruct (written s1 i), (written s2 i); reflexivity.
  - (* let_stmt *)
    destruct (IHs st) as (st1 & -> & H1). simpl. eexists. split; [reflexivity|exact H1].
  - (* loop *)
    destruct (IHs st) as (st1 & -> & H1). simpl. eexists. split; [reflexivity|exact H1].
  - (* if_then_else *)
    destruct (IHs1 st) as (st1 & -> & H1). simpl.
    destruct (IHs2 st1) as (st2 & -> & H2). simpl. eexists. split; [reflexivity|]. intro i. rewrite H2, H1.
    destruct (written s1 i), (written s2 i); reflexivity.
  - (* call_stmt *)
    eexists. split; [reflexivity|]. intro i. apply lookup_mark_outputs.
  - (* copy_stmt *)
    eexists. split; [reflexivity|]. intro i.
    destruct (Nat.eqb_spec i dst) as [->|Hne].
    + apply lookup_assign_eq.
    + apply lookup_assign_ne. congruence.
  - (* allocate *)
    destruct (IHs st) as (st1 & -> & H1). simpl. eexists. split; [reflexivity|exact H1].
  - (* make_buffer *)
    destruct (IHs st) as (st1 & -> & H1). simpl. eexists. split; [reflexivity|exact H1].
  - (* crop_buffer *)
    destruct (IHs (assign st sym (Some false))) as (st1 & -> & H1). simpl.
    unfold leave_crop. rewrite (H1 sym), lookup_assign_eq.
    destruct (written s sym) eqn:Hw.
    + eexists. split; [reflexivity|]. intro i.
      destruct (Nat.eqb_spec i sym) as [->|Hne].
      * rewrite lookup_assign_eq, Hw. reflexivity.
      * rewrite lookup_assign_ne by congruence. rewrite H1.
        rewrite lookup_assign_ne by congruence. reflexivity.
    + eexists. split; [reflexivity|]. intro i.
      destruct (Nat.eqb_spec i sym) as [->|Hne].
      * rewrite lookup_assign_eq, Hw. reflexivity.
      * rewrite lookup_assign_ne by congruence. rewrite H1.
        rewrite lookup_assign_ne by congruence. reflexivity.
  - (* crop_dim *)
    destruct (IHs (assign st sym (Some false))) as (st1 & -> & H1). simpl.
    unfold leave_crop. rewrite (H1 sym), lookup_assign_eq.
    destruct (written s sym) eqn:Hw.
    + eexists. split; [reflexivity|]. intro i.
      destruct (Nat.eqb_spec i sym) as [->|Hne].
      * rewrite lookup_assign_eq, Hw. reflexivity.
      * rewrite lookup_assign_ne by congruence. rewrite H1.
        rewrite lookup_assign_ne by congruence. reflexivity.
    + eexists. split; [reflexivity|]. intro i.
      destruct (Nat.eqb_spec i sym) as [->|Hne].
      * rewrite lookup_assign_eq, Hw. reflexivity.
      * rewrite lookup_assign_ne by congruence. rewrite H1.
        rewrite lookup_assign_ne by congruence. reflexivity.
  - (* slice_buffer *)
    destruct (IHs st) as (st1 & -> & H1). simpl. eexists. split; [reflexivity|exact H1].
  - (* slice_dim *)
    destruct (IHs st) as (st1 & -> & H1). simpl. eexists. split; [reflexivity|exact H1].
  - (* truncate_rank *)
    destruct (IHs st) as (st1 & -> & H1). simpl. eexists. split; [reflexivity|exact H1].
Qed.

Lemma written_without s i :
  written (without_unwritten_crops s) i = written s i.
Proof.
  induction s; simpl; rewrite ?IHs, ?IHs1, ?IHs2; try reflexivity.
  - destruct (written s sym); simpl; exact IHs.
  - destruct (written s sym); simpl; exact IHs.
Qed.

Lemma without_idempotent s :
  without_unwritten_crops (without_unwritten_crops s) = without_unwritten_crops s.
Proof.
  induction s; simpl; rewrite ?IHs, ?IHs1, ?IHs2; try reflexivity.
  - destruct (written s sym) eqn:Hw; simpl; [|exact IHs].
    rewrite written_without, Hw, IHs. reflexivity.
  - destruct (written s sym) eqn:Hw; simpl; [|exact IHs].
    rewrite written_without, Hw, IHs. reflexivity.
Qed.

(** X11: [input_crop_remover] visits any statement, from any state of
    [used_as_output], without dereferencing an empty entry (the entry read
    by [*used_as_output[op->sym]] is always engaged).  When the visit
    returns, the buffers written by a call or a copy of the statement are
    marked and every other entry is what it was on entry, also the entry
    of a crop's own buffer. *)
Theorem input_crop_remover_marks_written s st :
  exists r st',
    mutate s st = ok (r, st')
    /\ forall i, lookup st' i = if written s i then Some true else lookup st i.
Proof.
  destruct (mutate_spec s st) as (st' & Hrun & Hst).
  exists (without_unwritten_crops s), st'. split; assumption.
Qed.

(** X12: what [input_crop_remover] returns does not depend on the state
    it starts from: it is the statement itself with each [crop_buffer] and
    [crop_dim] replaced by its (rewritten) body when no call inside the
    crop has the buffer among its outputs and no copy inside has it as its
    destination, and kept otherwise.  Nothing else is changed. *)
Theorem input_crop_remover_removes_unwritten_crops s :
  remove_input_crops s = ok (without_unwritten_crops s)
  /\ forall st, exists st', mutate s st = ok (without_unwritten_crops s, st').
Proof.
  split.
  - unfold remove_input_crops.
    destruct (mutate_spec s []) as (st' & -> & _). reflexivity.
  - intro st. destruct (mutate_spec s st) as (st' & Hrun & _).
    exists st'. exact Hrun.
Qed.

(** X13: [input_crop_remover] is idempotent and keeps what is written: a
    second run over its result returns the result unchanged, and the
    result writes exactly the buffers the statement wrote. *)
Theorem input_crop_remover_idempotent s r :
  remove_input_crops s = ok r ->
  remove_input_crops r = ok r
  /\ forall i, written r i = written s i.
Proof.
  unfold remove_input_crops. intro H.
  destruct (mutate_spec s []) as (st' & Hrun & _). rewrite Hrun in H.
  simpl in H. injection H as <-. split.
  - destruct (mutate_spec (without_unwritten_crops s) []) as (st'' & -> & _).
    simpl. rewrite without_idempotent. reflexivity.
  - intro i. apply written_without.
Qed.

Lemma input_crop_remover_idempotent_witness :
  remove_input_crops (call_stmt 0 [0] [1]) = ok (call_stmt 0 [0] [1])
  /\ forall i, written (call_stmt 0 [0] [1]) i
               = written (crop_buffer 0 [interval_point (variable 2)]
                            (call_stmt 0 [0] [1])) i.
Proof.
  apply (@input_crop_remover_idempotent
           (crop_buffer 0 [interval_point (variable 2)] (call_stmt 0 [0] [1]))
           (call_stmt 0 [0] [1])).
  reflexivity.
Defined.

End InputCropRemoverFacts.

(* ===================================================================== *)
(** * Facts about recursive_substitute                                    *)
(* ===================================================================== *)

Module SubstitutionsFacts.
Import IR Substitutions IRFacts Shapes.

Lemma dims_eqb_eq (xs ys : list dim_expr) :
  list_eqb dim_eqb xs ys = true <-> xs = ys.
Proof. apply (list_eqb_eq_all dim_eqb dim_eqb_eq). Qed.

Lemma recursive_substitute_iterates substitutions fuel : forall dims r,
  recursive_substitute fuel dims substitutions = ok r ->
  exists n,
    n < fuel
    /\ r = Nat.iter n (map (substitute_dim substitutions)) dims
    /\ map (substitute_dim substitutions) r = r.
Proof.
  induction fuel as [|fuel IH]; intros dims r H; simpl in H; [discriminate|].
  destruct (list_eqb dim_eqb (map (substitute_dim substitutions) dims) dims) eqn:E.
  - injection H as <-. apply dims_eqb_eq in E. exists 0. split; [lia|].
    split; [reflexivity|exact E].
  - destruct (IH _ _ H) as (n & Hn & Hr & Hfix). exists (S n).
    split; [lia|]. split; [|exact Hfix].
    rewrite Hr. symmetry. apply Nat.iter_succ_r.
Qed.

Lemma iter_map_length {A} (f : A -> A) n : forall l : list A,
  List.length (Nat.iter n (map f) l) = List.length l.
Proof.
  induction n as [|n IH]; intro l; simpl; [reflexivity|].
  rewrite length_map. apply IH.
Qed.

(** X14: [recursive_substitute] returns only fixed points ("Keep
    substituting substitutions until nothing happens"): the dims it returns
    are the given dims after some number of passes of all the
    substitutions, one more pass leaves every one of them unchanged, and
    there are as many of them as were given.  Dims that no substitution
    changes are returned as they are. *)
Theorem recursive_substitute_returns_fixed_point fuel dims substitutions r :
  recursive_substitute fuel dims substitutions = ok r ->
  map (substitute_dim substitutions) r = r
  /\ List.length r = List.length dims
  /\ (exists n, n < fuel
                /\ r = Nat.iter n (map (substitute_dim substitutions)) dims)
  /\ (map (substitute_dim substitutions) dims = dims -> r = dims).
Proof.
  intro H.
  destruct (recursive_substitute_iterates _ _ _ H) as (n & Hn & Hr & Hfix).
  split; [exact Hfix|]. split; [|split].
  - rewrite Hr. apply iter_map_length.
  - exists n. split; assumption.
  - intro Hd. destruct fuel as [|fuel]; [discriminate|]. simpl in H.
    rewrite Hd in H.
    assert (E : list_eqb dim_eqb dims dims = true) by (apply dims_eqb_eq; reflexivity).
    rewrite E in H. congruence.
Qed.

Lemma recursive_substitute_returns_fixed_point_witness :
  let dims := [ {| bounds := {| imin := buffer_min (variable 0) 0;
                                imax := buffer_max (variable 0) 0 |};
                   stride := constant 4%Z;
                   fold_factor := expr_undef |} ] in
  let substitutions :=
    [ (buffer_min (variable 0) 0, variable 1);
      (buffer_max (variable 0) 0, op_add (buffer_min (variable 0) 0) (constant 9%Z)) ] in
  let r := [ {| bounds := {| imin := variable 1;
                             imax := op_add (variable 1) (constant 9%Z) |};
                stride := constant 4%Z;
                fold_factor := expr_undef |} ] in
  map (substitute_dim substitutions) r = r
  /\ List.length r = List.length dims
  /\ (exists n, n < 4
                /\ r = Nat.iter n (map (substitute_dim substitutions)) dims)
  /\ (map (substitute_dim substitutions) dims = dims -> r = dims).
Proof.
  cbv zeta.
  refine (@recursive_substitute_returns_fixed_point 4 _ _ _ _).
  reflexivity.
Defined.

Lemma padded_grows t c k : padded t c (S k) <> padded t c k.
Proof.
  induction k as [|k IH]; simpl.
  - intro H. assert (Hs : forall e : expr, op_add e (constant c) <> e).
    { induction e using expr_ind'; try discriminate.
      unfold op_add. intros [= Hop Ha Hc]. subst op e2. apply IHe1. exact Ha. }
    exact (Hs t H).
  - intros [= H]. apply IH. exact H.
Qed.

Lemma substitute_padded b d c k :
  ExprOps.substitute_expr (padded (buffer_min (variable b) d) c k)
    (buffer_min (variable b) d)
    (op_add (buffer_min (variable b) d) (constant c))
  = padded (buffer_min (variable b) d) c (S k).
Proof.
  induction k as [|k IH].
  - simpl. rewrite Nat.eqb_refl, Z.eqb_refl. reflexivity.
  - change (padded (buffer_min (variable b) d) c (S k))
      with (op_add (padded (buffer_min (variable b) d) c k) (constant c)).
    change (padded (buffer_min (variable b) d) c (S (S k)))
      with (op_add (padded (buffer_min (variable b) d) c (S k)) (constant c)).
    rewrite <- IH. reflexivity.
Qed.

Lemma recursive_substitute_padded b d c fuel : forall k dm rest,
  imin (bounds dm) = padded (buffer_min (variable b) d) c k ->
  recursive_substitute fuel (dm :: rest)
    [(buffer_min (variable b) d, op_add (buffer_min (variable b) d) (constant c))]
  = failed out_of_fuel.
Proof.
  induction fuel as [|fuel IH]; intros k dm rest Hmin; [reflexivity|].
  cbn [recursive_substitute map].
  set (subs := [(buffer_min (variable b) d,
                 op_add (buffer_min (variable b) d) (constant c))]).
  assert (Hmin' : imin (bounds (substitute_dim subs dm))
                  = padded (buffer_min (variable b) d) c (S k)).
  { unfold substitute_dim, subs. cbn [fold_left bounds imin fst snd].
    rewrite Hmin. apply substitute_padded. }
  destruct (list_eqb dim_eqb
              (substitute_dim subs dm :: map (substitute_dim subs) rest)
              (dm :: rest)) eqn:E.
  - exfalso. apply dims_eqb_eq in E. injection E as E _.
    apply (@padded_grows (buffer_min (variable b) d) c k).
    rewrite <- Hmin', <- Hmin.
    exact (f_equal (fun dim => imin (bounds dim)) E).
  - apply (IH (S k)). exact Hmin'.
Qed.

(** X29: [recursive_substitute] need not return.  When a substitution
    replaces [buffer_min(b, d)] by [buffer_min(b, d) + c] and a bound of the
    dims is [buffer_min(b, d)], every pass changes that bound again, so the
    [while (true)] loop never finds "nothing happens": no number of passes
    suffices. *)
Theorem recursive_substitute_diverges_on_self_reference fuel b d c dm rest :
  imin (bounds dm) = buffer_min (variable b) d ->
  recursive_substitute fuel (dm :: rest)
    [(buffer_min (variable b) d, op_add (buffer_min (variable b) d) (constant c))]
  = failed out_of_fuel.
Proof.
  intro Hmin. apply (@recursive_substitute_padded b d c fuel 0 dm rest).
  exact Hmin.
Qed.

Lemma recursive_substitute_diverges_on_self_reference_witness :
  recursive_substitute 1000
    [ {| bounds := {| imin := buffer_min (variable 3) 0;
                      imax := buffer_max (variable 3) 0 |};
         stride := constant 4%Z; fold_factor := expr_undef |} ]
    [(buffer_min (variable 3) 0, op_add (buffer_min (variable 3) 0) (constant 10%Z))]
  = failed out_of_fuel.
Proof.
  apply (@recursive_substitute_diverges_on_self_reference 1000 3 0 10%Z
           {| bounds := {| imin := buffer_min (variable 3) 0;
                           imax := buffer_max (variable 3) 0 |};
              stride := constant 4%Z; fold_factor := expr_undef |} []).
  reflexivity.
Defined.

End SubstitutionsFacts.

(* ===================================================================== *)
(** * More facts about bounds_inferrer                                    *)
(* ===================================================================== *)

Module BoundsInferrerScopes.
Import IR SymbolMap SymbolMapFacts Crop Substitutions BoundsInferrer Shapes.
Local Open Scope result_scope.

Lemma crops_record_input st input : crops (record_input st input) = crops st.
Proof. unfold record_input. destruct (contains (infer st) input); reflexivity. Qed.

Lemma crops_record_inputs inputs : forall st,
  crops (fold_left record_input inputs st) = crops st.
Proof.
  induction inputs as [|i inputs IH]; intro st; simpl; [reflexivity|].
  rewrite IH. apply crops_record_input.
Qed.

(** Once the entry of [sym] is empty, recording inputs keeps it empty. *)
Lemma record_inputs_keeps_empty sym inputs : forall st,
  lookup (crops st) sym = None ->
  lookup (infer st) sym = None ->
  lookup (infer (fold_left record_input inputs st)) sym = None.
Proof.
  induction inputs as [|i inputs IH]; intros st Hc Hi; simpl; [exact Hi|].
  apply IH; [rewrite crops_record_input; exact Hc|].
  unfold record_input. destruct (contains (infer st) i) eqn:E; [|exact Hi].
  simpl. destruct (Nat.eq_dec i sym) as [->|Hne].
  - rewrite lookup_assign_eq. exact Hc.
  - rewrite lookup_assign_ne by exact Hne. exact Hi.
Qed.

(** An input without a crop loses its entry of [infer]. *)
Lemma record_inputs_empties sym inputs : forall st,
  In sym inputs ->
  lookup (crops st) sym = None ->
  lookup (infer (fold_left record_input inputs st)) sym = None.
Proof.
  induction inputs as [|i inputs IH]; intros st Hin Hc; simpl; [destruct Hin|].
  destruct (Nat.eq_dec i sym) as [->|Hne].
  - apply record_inputs_keeps_empty; [rewrite crops_record_input; exact Hc|].
    unfold record_input. unfold contains.
    destruct (lookup (infer st) sym) eqn:E; simpl.
    + rewrite lookup_assign_eq. exact Hc.
    + exact E.
  - destruct Hin as [Hin|Hin]; [congruence|].
    apply IH; [exact Hin|]. rewrite crops_record_input. exact Hc.
Qed.

Section WithSimplifier.
Variable simplify_min : expr -> expr -> expr.
Variable simplify_max : expr -> expr -> expr.

Local Abbreviation mutate_ := (mutate simplify_min simplify_max).

Lemma mutate_crops fuel s : forall st r st',
  mutate_ fuel s st = ok (r, st') ->
  forall i, lookup (crops st') i = lookup (crops st) i.
Proof.
  induction s; intros st r st' H i; cbn [mutate] in H; try discriminate;
    try (injection H as <- <-; reflexivity).
  - (* block *)
    bind_inv2 H a' st1 Ha. bind_inv2 H b' st2 Hb. injection H as <- <-.
    rewrite (IHs2 _ _ _ Hb), (IHs1 _ _ _ Ha). reflexivity.
  - (* let_stmt *)
    bind_inv2 H b' st1 Hb. injection H as <- <-. eauto.
  - (* loop *)
    bind_inv2 H b' st1 Hb.
    destruct (leave_loop simplify_min simplify_max sym lbounds 0 (infer st1)
                (loop sym mode lbounds step b')) as [infer' r'].
    injection H as <- <-. simpl. eauto.
  - (* if_then_else *)
    bind_inv2 H t' st1 Ht. bind_inv2 H e' st2 He. injection H as <- <-.
    rewrite (IHs2 _ _ _ He), (IHs1 _ _ _ Ht). reflexivity.
  - (* call_stmt *)
    injection H as <- <-. rewrite crops_record_inputs. reflexivity.
  - (* copy_stmt *)
    injection H as <- <-. rewrite crops_record_input. reflexivity.
  - (* allocate *)
    bind_inv2 H b' st1 Hb.
    destruct (lookup (infer st1) sym) as [bnds|]; [|discriminate].
    bind_inv H dims' Hd. injection H as <- <-. simpl.
    rewrite (IHs _ _ _ Hb). reflexivity.
  - (* make_buffer *)
    bind_inv2 H b' st1 Hb. injection H as <- <-. eauto.
  - (* crop_buffer *)
    bind_inv2 H b' st1 Hb. injection H as <- <-. simpl.
    destruct (Nat.eq_dec sym i) as [->|Hne].
    + rewrite lookup_assign_eq. reflexivity.
    + rewrite lookup_assign_ne by exact Hne. rewrite (IHs _ _ _ Hb). simpl.
      apply lookup_assign_ne. exact Hne.
  - (* crop_dim *)
    bind_inv2 H b' st1 Hb. injection H as <- <-. simpl.
    destruct (Nat.eq_dec sym i) as [->|Hne].
    + rewrite lookup_assign_eq. reflexivity.
    + rewrite lookup_assign_ne by exact Hne. rewrite (IHs _ _ _ Hb). simpl.
      apply lookup_assign_ne. exact Hne.
Qed.

(** X15: the crops of [bounds_inferrer] are scoped.  Inside a
    [crop_buffer] of a buffer the body is visited with the crop merged into
    the enclosing one, and the node is rebuilt with its own bounds; when
    the visit of any statement returns, the crop recorded for every buffer
    is what it was when the visit began. *)
Theorem crops_restored_after_visit fuel s st r st' :
  mutate_ fuel s st = ok (r, st') ->
  (forall i, lookup (crops st') i = lookup (crops st) i)
  /\ (forall sym cb body,
        s = crop_buffer sym cb body ->
        exists body' st1,
          mutate_ fuel body
            (with_crops st (assign (crops st) sym
                              (merge_crop (lookup (crops st) sym) cb)))
          = ok (body', st1)
          /\ r = crop_buffer sym cb body').
Proof.
  intro H. split.
  - exact (mutate_crops _ _ _ H).
  - intros sym cb body ->. cbn [mutate] in H.
    bind_inv2 H b' st1 Hb. injection H as <- <-.
    exists b', st1. split; [exact Hb|reflexivity].
Qed.

(** X16: a consumer must be cropped.  When the body of an allocation is a
    call that reads the allocated buffer and no crop of that buffer is in
    scope, the call overwrites the buffer's entry of [infer] with the empty
    entry of [crops], and the allocation then dereferences it
    ([*infer[op->sym]]). *)
Theorem allocate_of_uncropped_input_dereferences_empty
    fuel sym storage elem_size dims target inputs outputs st :
  In sym inputs ->
  lookup (crops st) sym = None ->
  mutate_ fuel (allocate sym storage elem_size dims (call_stmt target inputs outputs)) st
  = failed null_dereference.
Proof.
  intros Hin Hc. cbn [mutate bind].
  rewrite (@record_inputs_empties sym inputs
             (with_infer st (assign (infer st) sym (Some []))) Hin Hc).
  reflexivity.
Qed.

End WithSimplifier.

Lemma crops_restored_after_visit_witness :
  exists st',
    mutate slinky_min slinky_max 1
      (crop_buffer 0 [interval_point (variable 2)] (call_stmt 0 [0] [1]))
      (initial [0])
    = ok (crop_buffer 0 [interval_point (variable 2)] (call_stmt 0 [0] [1]), st')
    /\ forall i, lookup (crops st') i = lookup (crops (initial [0])) i.
Proof.
  eexists. split; [reflexivity|].
  refine (proj1 (@crops_restored_after_visit slinky_min slinky_max 1
                   (crop_buffer 0 [interval_point (variable 2)] (call_stmt 0 [0] [1]))
                   (initial [0])
                   (crop_buffer 0 [interval_point (variable 2)] (call_stmt 0 [0] [1]))
                   _ _)).
  reflexivity.
Defined.

Lemma allocate_of_uncropped_input_dereferences_empty_witness :
  mutate slinky_min slinky_max 1
    (allocate 1 heap 4%Z [] (call_stmt 0 [1] [2])) (initial [0])
  = failed null_dereference.
Proof.
  apply (@allocate_of_uncropped_input_dereferences_empty
           slinky_min slinky_max 1 1 heap 4%Z [] 0 [1] [2] (initial [0])).
  - simpl. auto.
  - reflexivity.
Defined.

End BoundsInferrerScopes.

(* ===================================================================== *)
(** * The passes and slice_buffer, slice_dim, truncate_rank               *)
(* ===================================================================== *)

Module SliceFacts.
Import IR SymbolMap Crop Substitutions Shapes.
Local Open Scope result_scope.

Lemma aliaser_slice_free s : forall st r st',
  Aliaser.mutate s st = ok (r, st') -> slice_free s = true.
Proof.
  induction s; intros st r st' H; cbn [Aliaser.mutate] in H;
    cbn [slice_free]; try discriminate; try reflexivity.
  - bind_inv2 H a' st1 Ha. bind_inv2 H b' st2 Hb.
    rewrite (IHs1 _ _ _ Ha), (IHs2 _ _ _ Hb). reflexivity.
  - bind_inv2 H b' st1 Hb. eauto.
  - bind_inv2 H b' st1 Hb. eauto.
  - bind_inv2 H a' st1 Ha. bind_inv2 H b' st2 Hb.
    rewrite (IHs1 _ _ _ Ha), (IHs2 _ _ _ Hb). reflexivity.
  - bind_inv2 H b' st1 Hb. eauto.
  - bind_inv2 H b' st1 Hb. eauto.
  - bind_inv2 H b' st1 Hb. eauto.
  - bind_inv2 H b' st1 Hb. eauto.
Qed.

Lemma inferrer_slice_free smin smax fuel s : forall st r st',
  BoundsInferrer.mutate smin smax fuel s st = ok (r, st') -> slice_free s = true.
Proof.
  induction s; intros st r st' H; cbn [BoundsInferrer.mutate] in H;
    cbn [slice_free]; try discriminate; try reflexivity.
  - bind_inv2 H a' st1 Ha. bind_inv2 H b' st2 Hb.
    rewrite (IHs1 _ _ _ Ha), (IHs2 _ _ _ Hb). reflexivity.
  - bind_inv2 H b' st1 Hb. eauto.
  - bind_inv2 H b' st1 Hb. eauto.
  - bind_inv2 H a' st1 Ha. bind_inv2 H b' st2 Hb.
    rewrite (IHs1 _ _ _ Ha), (IHs2 _ _ _ Hb). reflexivity.
  - bind_inv2 H b' st1 Hb. eauto.
  - bind_inv2 H b' st1 Hb. eauto.
  - bind_inv2 H b' st1 Hb. eauto.
  - bind_inv2 H b' st1 Hb. eauto.
Qed.

Lemma slider_slice_free prove_true simplify bounds_of where_true align_up x fuel s :
  forall st r st',
    SlideAndFold.mutate prove_true simplify bounds_of where_true align_up x fuel s st
    = ok (r, st') ->
    slice_free s = true.
Proof.
  induction s; intros st r st' H; cbn [SlideAndFold.mutate] in H;
    cbn [slice_free]; try discriminate; try reflexivity.
  - bind_inv2 H b' st1 Hb. bind_inv2 H a' st2 Ha.
    rewrite (IHs1 _ _ _ Ha), (IHs2 _ _ _ Hb). reflexivity.
  - bind_inv2 H b' st1 Hb. eauto.
  - destruct mode.
    + destruct (NodeContext.insert _ _) as [ctx1 orig_min_sym].
      bind_inv2 H b' st1 Hb. eauto.
    + bind_inv2 H b' st1 Hb. eauto.
  - bind_inv2 H a' st1 Ha. bind_inv2 H b' st2 Hb.
    rewrite (IHs1 _ _ _ Ha), (IHs2 _ _ _ Hb). reflexivity.
  - bind_inv2 H b' st1 Hb. eauto.
  - bind_inv2 H b' st1 Hb. eauto.
  - bind_inv2 H b' st1 Hb. eauto.
  - destruct (merge_crop_dim _ _ _); [|discriminate].
    bind_inv2 H b' st1 Hb. eauto.
Qed.

(** X17: the three mutators of the bounds inference and aliasing passes
    do not handle [slice_buffer], [slice_dim] and [truncate_rank]
    ([std::abort()]): on a statement that holds one of these nodes
    anywhere, [alias_buffers], the bounds inferrer and slide-and-fold all
    end without a result, whatever state they start from. *)
Theorem passes_stop_at_slices s :
  slice_free s = false ->
  (forall st, exists e, Aliaser.mutate s st = failed e)
  /\ (forall smin smax fuel st,
        exists e, BoundsInferrer.mutate smin smax fuel s st = failed e)
  /\ (forall prove_true simplify bounds_of where_true align_up x fuel st,
        exists e,
          SlideAndFold.mutate prove_true simplify bounds_of where_true align_up x
            fuel s st = failed e).
Proof.
  intro Hs. split; [|split].
  - intro st. destruct (Aliaser.mutate s st) as [[r st']|e] eqn:E; [|eauto].
    apply aliaser_slice_free in E. congruence.
  - intros smin smax fuel st.
    destruct (BoundsInferrer.mutate smin smax fuel s st) as [[r st']|e] eqn:E; [|eauto].
    apply inferrer_slice_free in E. congruence.
  - intros prove_true simplify bounds_of where_true align_up x fuel st.
    destruct (SlideAndFold.mutate prove_true simplify bounds_of where_true align_up x
                fuel s st) as [[r st']|e] eqn:E; [|eauto].
    apply slider_slice_free in E. congruence.
Qed.

Lemma passes_stop_at_slices_witness :
  let s := block (check (variable 0))
                 (loop 1 serial (interval_point (variable 2)) (constant 1%Z)
                    (slice_dim 3 0 (variable 1) (call_stmt 0 [3] [4]))) in
  (forall st, exists e, Aliaser.mutate s st = failed e)
  /\ (forall smin smax fuel st,
        exists e, BoundsInferrer.mutate smin smax fuel s st = failed e)
  /\ (forall prove_true simplify bounds_of where_true align_up x fuel st,
        exists e,
          SlideAndFold.mutate prove_true simplify bounds_of where_true align_up x
            fuel s st = failed e).
Proof.
  apply (@passes_stop_at_slices
           (block (check (variable 0))
                  (loop 1 serial (interval_point (variable 2)) (constant 1%Z)
                     (slice_dim 3 0 (variable 1) (call_stmt 0 [3] [4]))))).
  reflexivity.
Defined.

End SliceFacts.

(* ===================================================================== *)
(** * What the aliaser changes in a statement                             *)
(* ===================================================================== *)

Module AliaserShapeFacts.
Import IR SymbolMap SymbolMapFacts IdSetFacts Crop Aliaser Shapes.
Local Open Scope result_scope.

Lemma candidates_from_refl st : candidates_from st st [].
Proof. intros b info' c Hb Hc. right. eauto. Qed.

Lemma candidates_from_trans st1 st2 st3 p1 p2 :
  candidates_from st1 st2 p1 -> candidates_from st2 st3 p2 ->
  candidates_from st1 st3 (p1 ++ p2).
Proof.
  intros H1 H2 b info' c Hb Hc.
  destruct (H2 _ _ _ Hb Hc) as [Hp|(info2 & Hb2 & Hc2)].
  - left. apply in_or_app. auto.
  - destruct (H1 _ _ _ Hb2 Hc2) as [Hp|Hold]; [|right; exact Hold].
    left. apply in_or_app. auto.
Qed.

Lemma candidates_from_incl st st' p q :
  candidates_from st st' p -> incl p q -> candidates_from st st' q.
Proof.
  intros H Hi b info' c Hb Hc. destruct (H _ _ _ Hb Hc) as [Hp|Hold]; auto.
Qed.

Lemma candidates_from_update st i inf inf' o :
  lookup (alias_info st) i = Some inf ->
  (forall c, In c (alias_candidates inf') -> c = o \/ In c (alias_candidates inf)) ->
  candidates_from st
    (with_alias_info st (assign (alias_info st) i (Some inf'))) [o].
Proof.
  intros Hi Hsub b info' c Hb Hc. simpl in Hb.
  destruct (Nat.eq_dec i b) as [->|Hne].
  - rewrite lookup_assign_eq in Hb. injection Hb as <-.
    destruct (Hsub c Hc) as [->|Hold]; [left; left; reflexivity|].
    right. eauto.
  - rewrite lookup_assign_ne in Hb by exact Hne. right. eauto.
Qed.

Lemma visit_inputs_candidates o inputs : forall st fl st',
  visit_inputs o inputs st = ok (fl, st') -> candidates_from st st' [o].
Proof.
  induction inputs as [|i rest IH]; simpl; intros st fl st' H.
  - injection H as <- <-. eapply candidates_from_incl; [apply candidates_from_refl|].
    intros ? [].
  - destruct (lookup (alias_info st) i) as [inf|] eqn:Ei;
      [|destruct (lookup (buffer_bounds st) i); discriminate].
    assert (Hclear : candidates_from st
              (with_alias_info st (assign (alias_info st) i (Some (clear_elementwise inf))))
              [o]).
    { eapply candidates_from_update; [exact Ei|]. simpl. auto. }
    destruct (lookup (buffer_bounds st) i) as [bx|].
    + destruct (negb (is_elementwise bx o)).
      * injection H as <- <-. exact Hclear.
      * apply IH in H.
        eapply candidates_from_incl.
        -- eapply candidates_from_trans; [|exact H].
           eapply candidates_from_update; [exact Ei|]. simpl. intros c Hc.
           apply in_insert in Hc. exact Hc.
        -- intros c [<-|[<-|[]]]; left; reflexivity.
    + injection H as <- <-. exact Hclear.
Qed.

Lemma visit_call_stmt_candidates inputs outputs : forall st st',
  visit_call_stmt inputs outputs st = ok st' -> candidates_from st st' outputs.
Proof.
  induction outputs as [|o rest IH]; simpl; intros st st' H.
  - injection H as <-. apply candidates_from_refl.
  - bind_inv2 H fl st1 Hrun. apply visit_inputs_candidates in Hrun.
    destruct fl.
    + apply IH in H. exact (candidates_from_trans Hrun H).
    + injection H as <-. eapply candidates_from_incl; [exact Hrun|].
      intros c [<-|[]]. left. reflexivity.
Qed.

(** The candidates a visit leaves behind were there before or are
    outputs of calls of the visited statement. *)
Lemma mutate_candidates s : forall st r st',
  mutate s st = ok (r, st') -> candidates_from st st' (outputs_of s).
Proof.
  induction s; intros st r st' H; cbn [mutate] in H; cbn [outputs_of];
    try discriminate;
    try (injection H as <- <-; apply candidates_from_refl).
  - (* block *)
    bind_inv2 H a' st1 Ha. bind_inv2 H b' st2 Hb. injection H as <- <-.
    exact (candidates_from_trans (IHs1 _ _ _ Ha) (IHs2 _ _ _ Hb)).
  - bind_inv2 H b' st1 Hb. injection H as <- <-. eauto.
  - bind_inv2 H b' st1 Hb. injection H as <- <-. eauto.
  - (* if_then_else *)
    bind_inv2 H a' st1 Ha. bind_inv2 H b' st2 Hb. injection H as <- <-.
    exact (candidates_from_trans (IHs1 _ _ _ Ha) (IHs2 _ _ _ Hb)).
  - (* call_stmt *)
    bind_inv H st1 Hc. injection H as <- <-. apply visit_call_stmt_candidates in Hc.
    exact Hc.
  - (* allocate *)
    bind_inv2 H b' st1 Hb. apply IHs in Hb.
    destruct (lookup (alias_info st1) sym) as [info|] eqn:Ei; [|discriminate].
    assert (Hleave : forall st2,
              (forall b info2 c, lookup (alias_info st2) b = Some info2 ->
                 In c (alias_candidates info2) ->
                 exists info1, lookup (alias_info st1) b = Some info1
                               /\ In c (alias_candidates info1)) ->
              candidates_from st (leave_allocate st st2 sym) (outputs_of s)).
    { intros st2 Hsub b info' c Hl Hc. simpl in Hl.
      destruct (Nat.eq_dec sym b) as [->|Hne].
      - rewrite lookup_assign_eq in Hl. right. eauto.
      - rewrite lookup_assign_ne in Hl by exact Hne.
        destruct (Hsub _ _ _ Hl Hc) as (info1 & Hl1 & Hc1).
        destruct (Hb _ _ _ Hl1 Hc1) as [Hp|(info0 & Hl0 & Hc0)]; [left; exact Hp|].
        right. simpl in Hl0. rewrite lookup_assign_ne in Hl0 by exact Hne. eauto. }
    destruct (elementwise info && negb (IdSet.empty (alias_candidates info)));
      [destruct (IdSet.begin_ (alias_candidates info)) as [target|]|];
      injection H as <- <-; apply Hleave; try (intros; eauto; fail).
    intros b info2 c Hl Hc. simpl in Hl. rewrite lookup_update_all in Hl.
    destruct (lookup (alias_info st1) b) as [ib|]; simpl in Hl; [|discriminate].
    injection Hl as <-. simpl in Hc. apply in_erase in Hc. exists ib. tauto.
  - bind_inv2 H b' st1 Hb. injection H as <- <-. eauto.
  - (* crop_buffer *)
    bind_inv2 H b' st1 Hb. injection H as <- <-. apply IHs in Hb. exact Hb.
  - (* crop_dim *)
    bind_inv2 H b' st1 Hb. injection H as <- <-. apply IHs in Hb. exact Hb.
Qed.

Lemma begin_in (s : IdSet.t) x : IdSet.begin_ s = Some x -> In x s.
Proof. destruct s; simpl; [discriminate|]. intros [= <-]. left. reflexivity. Qed.

(** X18: what [buffer_aliaser] changes.  When a visit returns, the result
    is the statement it was given, node by node and field by field, except
    that some [allocate] nodes have been replaced by [let sym = target]
    around their body, and every such [target] is an output of a call
    inside that allocation.  No call, copy, check, loop or crop is changed,
    added or removed. *)
Theorem aliaser_only_rebinds_allocations s : forall st r st',
  mutate s st = ok (r, st') -> aliased_from s r.
Proof.
  induction s; intros st r st' H; cbn [mutate] in H; cbn [aliased_from];
    try discriminate;
    try (injection H as <- <-; reflexivity).
  - (* block *)
    bind_inv2 H a' st1 Ha. bind_inv2 H b' st2 Hb. injection H as <- <-.
    exists a', b'. eauto.
  - bind_inv2 H b' st1 Hb. injection H as <- <-. exists b'. eauto.
  - bind_inv2 H b' st1 Hb. injection H as <- <-. exists b'. eauto.
  - bind_inv2 H a' st1 Ha. bind_inv2 H b' st2 Hb. injection H as <- <-.
    exists a', b'. eauto.
  - (* call_stmt *)
    bind_inv H st1 Hc. injection H as <- <-. reflexivity.
  - (* allocate *)
    bind_inv2 H b' st1 Hb.
    destruct (lookup (alias_info st1) sym) as [info|] eqn:Ei; [|discriminate].
    exists b'. split; [eauto|].
    destruct (elementwise info && negb (IdSet.empty (alias_candidates info)));
      [destruct (IdSet.begin_ (alias_candidates info)) as [target|] eqn:Et|];
      injection H as <- <-; [|left; reflexivity|left; reflexivity].
    right. exists target. split; [|reflexivity].
    apply begin_in in Et.
    pose proof (@mutate_candidates s _ _ _ Hb) as Hcand.
    destruct (Hcand sym info target Ei Et) as [Hp|(info0 & Hl0 & Hc0)];
      [exact Hp|].
    simpl in Hl0. rewrite lookup_assign_eq in Hl0. injection Hl0 as <-.
    destruct Hc0.
  - bind_inv2 H b' st1 Hb. injection H as <- <-. exists b'. eauto.
  - bind_inv2 H b' st1 Hb. injection H as <- <-. exists b'. eauto.
  - bind_inv2 H b' st1 Hb. injection H as <- <-. exists b'. eauto.
Qed.

Lemma aliaser_only_rebinds_allocations_witness :
  aliased_from Pipelines.aliasable_allocate
    (let_stmt 1 (variable 2) (call_stmt 0 [1] [2])).
Proof.
  refine (@aliaser_only_rebinds_allocations Pipelines.aliasable_allocate initial
            (let_stmt 1 (variable 2) (call_stmt 0 [1] [2])) _ _).
  reflexivity.
Defined.

End AliaserShapeFacts.

(* ===================================================================== *)
(** * reduce_scopes over whole statements                                 *)
(* ===================================================================== *)

Module ScopeReducerGlobal.
Import IR IRFacts ScopeReducer ScopeReducerFacts Shapes.

Lemma operations_leaves s :
  operations s = flat_map operations (leaves s).
Proof.
  induction s; simpl; rewrite ?app_nil_r; try reflexivity.
  rewrite flat_map_app, <- IHs1, <- IHs2. reflexivity.
Qed.

Lemma operations_block_make l :
  operations (block_make l) = flat_map operations l.
Proof.
  rewrite operations_leaves, leaves_block_make.
  induction l as [|s l IH]; simpl; [reflexivity|].
  rewrite flat_map_app, IH, <- operations_leaves. reflexivity.
Qed.

Lemma operations_clone op sym body nb :
  scoping_node op = Some (sym, body) ->
  operations (clone_with_new_body op nb) = operations nb.
Proof. destruct op; simpl; intros [= <- <-]; reflexivity. Qed.

Lemma operations_scoping_node op sym body :
  scoping_node op = Some (sym, body) -> operations op = operations body.
Proof. destruct op; simpl; intros [= <- <-]; reflexivity. Qed.

Section WithDependsOn.
Variable depends_on : stmt -> list symbol_id -> bool.

Lemma visit_stmt_operations op sym op_body body :
  scoping_node op = Some (sym, op_body) ->
  operations body = operations op_body ->
  operations (visit_stmt depends_on op sym op_body body) = operations op.
Proof.
  intros Hop Hbody. rewrite (operations_scoping_node _ Hop).
  unfold visit_stmt.
  destruct (split_body depends_on body [sym]) as [[b nb] a] eqn:Hsplit.
  destruct (@split_body_spec depends_on [sym] _ _ _ _ Hsplit) as (Hl & _).
  assert (Hops : operations b ++ operations nb ++ operations a = operations body).
  { rewrite (operations_leaves body), <- Hl, !flat_map_app,
      <- !operations_leaves. reflexivity. }
  destruct (stmt_eqb body op_body && negb (stmt_defined b) && negb (stmt_defined a)).
  - apply (operations_scoping_node _ Hop).
  - destruct (stmt_defined nb) eqn:Ed.
    + rewrite operations_block_make. simpl.
      rewrite (operations_clone _ nb Hop), app_nil_r, <- Hbody. exact Hops.
    + apply undefined_iff in Ed. subst nb. rewrite operations_block_make. simpl.
      simpl in Hops. rewrite app_nil_r, <- Hbody. exact Hops.
Qed.

(** X19: [reduce_scopes] moves statements out of scopes and may drop a
    scoping node, but it never drops, repeats or reorders work: the calls,
    copies and checks of the result are those of the statement, in the
    same order, whatever [depends_on] answers. *)
Theorem reduce_scopes_keeps_operations (s : stmt) :
  operations (reduce_scopes depends_on s) = operations s.
Proof.
  unfold reduce_scopes.
  induction s; cbn [mutate]; try reflexivity;
    try (apply visit_stmt_operations; [reflexivity|exact IHs]).
  - simpl. rewrite IHs1, IHs2. reflexivity.
  - simpl. exact IHs.
  - simpl. rewrite IHs1, IHs2. reflexivity.
Qed.

End WithDependsOn.

Section Tightness.
Variable depends_on : stmt -> list symbol_id -> bool.
Variable vars : list symbol_id.
Hypothesis undefined_independent : depends_on stmt_undef vars = false.

Lemma dependent_leaf s :
  not_block s -> depends_on s vars = true -> leaves s = [s].
Proof.
  intros Hnb Hd. destruct s; try reflexivity.
  - congruence.
  - destruct Hnb.
Qed.

Lemma block_make_single s : block_make [stmt_undef; s] = s.
Proof. simpl. destruct s; reflexivity. Qed.

Lemma block_make_single_r s : block_make [s; stmt_undef] = s.
Proof. simpl. destruct s; reflexivity. Qed.

(** The first statement handed to [new_body_after] depends on [vars]. *)
Lemma forward_first l : forall acc,
  Forall not_block l ->
  fwd_depended_on acc = false ->
  new_body_after acc = stmt_undef ->
  leaves (new_body_after (fold_left (forward_step depends_on vars) l acc)) = []
  \/ exists first rest,
       leaves (new_body_after (fold_left (forward_step depends_on vars) l acc))
       = first :: rest
       /\ depends_on first vars = true.
Proof.
  induction l as [|s l IH]; intros acc Hnb Hd Hn; simpl.
  - left. rewrite Hn. reflexivity.
  - apply Forall_cons_iff in Hnb. destruct Hnb as [Hs Hnb].
    destruct (depends_on s vars) eqn:Es.
    + right.
      assert (E : forward_step depends_on vars acc s =
                  {| before := before acc;
                     new_body_after := s;
                     fwd_depended_on := true |}).
      { unfold forward_step. rewrite Hd, Es, Hn. cbn [orb].
        rewrite block_make_single. reflexivity. }
      rewrite E.
      match goal with |- context [fold_left _ l ?a] =>
        destruct (@forward_depended depends_on vars l a eq_refl) as [_ Hl] end.
      rewrite Hl. cbn [new_body_after]. rewrite (dependent_leaf Hs Es).
      exists s, (flat l). split; [reflexivity|exact Es].
    + assert (E : forward_step depends_on vars acc s =
                  {| before := block_make [before acc; s];
                     new_body_after := new_body_after acc;
                     fwd_depended_on := fwd_depended_on acc |}).
      { unfold forward_step. rewrite Hd, Es. reflexivity. }
      rewrite E. apply IH; assumption.
Qed.

(** The first statement the backward loop keeps in [new_body], which is
    the last of [new_body], depends on [vars]. *)
Lemma backward_last l : forall acc,
  Forall not_block l ->
  bwd_depended_on acc = false ->
  new_body acc = stmt_undef ->
  leaves (new_body (fold_left (backward_step depends_on vars) l acc)) = []
  \/ exists init last_,
       leaves (new_body (fold_left (backward_step depends_on vars) l acc))
       = (init ++ [last_])%list
       /\ depends_on last_ vars = true.
Proof.
  induction l as [|s l IH]; intros acc Hnb Hd Hn; simpl.
  - left. rewrite Hn. reflexivity.
  - apply Forall_cons_iff in Hnb. destruct Hnb as [Hs Hnb].
    destruct (depends_on s vars) eqn:Es.
    + right.
      assert (E : backward_step depends_on vars acc s =
                  {| new_body := s;
                     after := after acc;
                     bwd_depended_on := true |}).
      { unfold backward_step. rewrite Hd, Es, Hn. cbn [negb andb].
        rewrite block_make_single_r. reflexivity. }
      rewrite E.
      match goal with |- context [fold_left _ l ?a] =>
        destruct (@backward_depended depends_on vars l a eq_refl) as [_ Hl] end.
      rewrite Hl. cbn [new_body]. rewrite (dependent_leaf Hs Es).
      exists (flat (rev l)), s. split; [reflexivity|exact Es].
    + assert (E : backward_step depends_on vars acc s =
                  {| new_body := new_body acc;
                     after := block_make [s; after acc];
                     bwd_depended_on := bwd_depended_on acc |}).
      { unfold backward_step. rewrite Hd, Es. reflexivity. }
      rewrite E. apply IH; assumption.
Qed.

(** X25: the scope [split_body] leaves is tight.  Unless it is empty, the
    first and the last statement of [new_body] both depend on the
    variables: [before] takes every leading statement that does not, and
    [after] every trailing one. *)
Theorem split_body_is_tight body b nb a :
  split_body depends_on body vars = (b, nb, a) ->
  leaves nb = []
  \/ ((exists first rest,
         leaves nb = first :: rest /\ depends_on first vars = true)
      /\ (exists init last_,
            leaves nb = (init ++ [last_])%list /\ depends_on last_ vars = true)).
Proof.
  intro Hsplit.
  destruct (@split_body_spec depends_on vars _ _ _ _ Hsplit) as (Hl & Hb & Ha & _).
  unfold split_body in Hsplit. injection Hsplit as Eb Enb Ea.
  set (f := fold_left (forward_step depends_on vars) (visited_forward body)
              {| before := stmt_undef; new_body_after := stmt_undef;
                 fwd_depended_on := false |}) in Eb, Enb.
  pose proof (@forward_split depends_on vars (visited_forward body)
                {| before := stmt_undef; new_body_after := stmt_undef;
                   fwd_depended_on := false |}
                (visited_forward_not_block body) eq_refl eq_refl) as [Hf _].
  fold f in Hf. simpl in Hf. rewrite flat_visited_forward in Hf.
  rewrite Eb in Hf.
  assert (Hnba : leaves nb ++ leaves a = leaves (new_body_after f)).
  { rewrite <- Hl in Hf. apply app_inv_head in Hf. symmetry. exact Hf. }
  destruct (@backward_last (visited_backward (new_body_after f))
              {| new_body := stmt_undef; after := stmt_undef;
                 bwd_depended_on := false |}) as [Hempty|Hlast];
    [rewrite visited_backward_rev; apply Forall_rev, visited_forward_not_block
    |reflexivity|reflexivity| |].
  - left. rewrite <- Enb. exact Hempty.
  - rewrite Enb in Hlast. right. split; [|exact Hlast].
    pose proof (@forward_first (visited_forward body)
                  {| before := stmt_undef; new_body_after := stmt_undef;
                     fwd_depended_on := false |}
                  (visited_forward_not_block body) eq_refl eq_refl) as Hff.
    fold f in Hff. destruct Hff as [Hnone|(first & rest & Hfirst & Hdep)].
    + rewrite Hnone in Hnba. apply app_eq_nil in Hnba. destruct Hnba as [Hnb _].
      destruct Hlast as (init & last_ & Hi & _). rewrite Hnb in Hi.
      destruct init; discriminate.
    + rewrite Hfirst in Hnba. destruct (leaves nb) as [|x xs] eqn:Enbl.
      * destruct Hlast as (init & last_ & Hi & _). destruct init; discriminate.
      * simpl in Hnba. injection Hnba as -> _. exists first, xs.
        split; [reflexivity|exact Hdep].
Qed.

End Tightness.

Lemma split_body_is_tight_witness :
  leaves (block (call_stmt 0 [0] [1]) (call_stmt 1 [1] [2])) = []
  \/ ((exists first rest,
         leaves (block (call_stmt 0 [0] [1]) (call_stmt 1 [1] [2])) = first :: rest
         /\ ExprOps.stmt_depends_on first [1] = true)
      /\ (exists init last_,
            leaves (block (call_stmt 0 [0] [1]) (call_stmt 1 [1] [2]))
            = (init ++ [last_])%list
            /\ ExprOps.stmt_depends_on last_ [1] = true)).
Proof.
  apply (@split_body_is_tight ExprOps.stmt_depends_on [1] eq_refl
           Pipelines.sample_body (check (variable 7))
           (block (call_stmt 0 [0] [1]) (call_stmt 1 [1] [2]))
           (check (variable 8))).
  reflexivity.
Defined.

End ScopeReducerGlobal.

(* ===================================================================== *)
(** * Facts about the printer of expressions                              *)
(* ===================================================================== *)

Module PrinterFacts.
Import Ascii IR NodeContext Printer.
Local Open Scope string_scope.

Lemma print_symbol_unknown ctx sym :
  Nat.leb (List.length (id_to_name ctx)) sym = true ->
  print_symbol (Some ctx) sym = print_symbol None sym.
Proof.
  intro H. unfold print_symbol, name.
  apply Nat.leb_le in H.
  destruct (Nat.ltb_spec sym (List.length (id_to_name ctx))) as [Hlt|Hge];
    [lia|reflexivity].
Qed.

Lemma print_expr_unknown ctx e :
  symbols_from (List.length (id_to_name ctx)) e = true ->
  print_expr (Some ctx) e = print_expr None e.
Proof.
  induction e as [ | s | s | c | s v b IHv IHb | op a b IHa IHb | x IHx
                 | c t f IHc IHt IHf | fn args IHargs ] using expr_ind';
    cbn [symbols_from print_expr]; intro H;
    repeat match goal with
           | H : _ && _ = true |- _ => apply andb_true_iff in H; destruct H
           end;
    try reflexivity.
  - apply print_symbol_unknown. assumption.
  - apply print_symbol_unknown. assumption.
  - rewrite print_symbol_unknown, IHv, IHb by assumption. reflexivity.
  - rewrite IHa, IHb by assumption. reflexivity.
  - rewrite IHx by assumption. reflexivity.
  - rewrite IHc, IHt, IHf by assumption. reflexivity.
  - assert (E : map (print_expr (Some ctx)) args = map (print_expr None) args).
    { induction args as [|a args IH]; [reflexivity|].
      cbn [forallb] in H. apply andb_true_iff in H. destruct H as [Ha Hrest].
      inversion IHargs as [|? ? Pa Prest]; subst.
      cbn [map]. rewrite (Pa Ha), (IH Prest Hrest). reflexivity. }
    rewrite E. reflexivity.
Qed.

(** X20: printing with a context that does not know the symbols of an
    expression gives the text printing without any context gives: for an
    id past the end of the context, [node_context::name] builds the same
    ["<id>"] the printer writes when it has no context. *)
Theorem print_unknown_symbols_as_ids ctx e :
  symbols_from (List.length (id_to_name ctx)) e = true ->
  print e (Some ctx) = print e None
  /\ print_interval (Some ctx) (interval_point e) = print_interval None (interval_point e).
Proof.
  intro H. unfold print, print_interval. cbn [imin imax interval_point].
  rewrite (print_expr_unknown ctx e H). split; reflexivity.
Qed.

Lemma print_unknown_symbols_as_ids_witness :
  let ctx := fst (insert (fst (insert NodeContextOps.empty "in")) "out") in
  let e := op_add (variable 2) (buffer_min (variable 3) 0) in
  print e (Some ctx) = print e None
  /\ print_interval (Some ctx) (interval_point e) = print_interval None (interval_point e).
Proof.
  apply (@print_unknown_symbols_as_ids
           (fst (insert (fst (insert NodeContextOps.empty "in")) "out"))
           (op_add (variable 2) (buffer_min (variable 3) 0))).
  reflexivity.
Defined.

Lemma count_app c a b : count c (a ++ b) = count c a + count c b.
Proof.
  induction a as [|x a IH]; simpl; [reflexivity|]. rewrite IH. lia.
Qed.

Lemma count_uint c (d : Decimal.uint) :
  c = "("%char \/ c = ")"%char ->
  count c (DecimalString.NilEmpty.string_of_uint d) = 0.
Proof.
  intros [-> | ->]; induction d; simpl; auto.
Qed.

Lemma count_to_string c n :
  c = "("%char \/ c = ")"%char -> count c (to_string n) = 0.
Proof. intro H. unfold to_string. apply count_uint. exact H. Qed.

Lemma count_print_index c x :
  c = "("%char \/ c = ")"%char -> count c (print_index x) = 0.
Proof.
  intro H. unfold print_index, DecimalString.NilZero.string_of_int.
  destruct (Z.to_int x) as [d|d]; unfold DecimalString.NilZero.string_of_uint.
  - destruct d; try (apply (count_uint _ H)). destruct H as [-> | ->]; reflexivity.
  - assert (Hd : count c match d with
                         | Decimal.Nil => "0"
                         | _ => DecimalString.NilEmpty.string_of_uint d
                         end = 0).
    { destruct d; try (apply (count_uint _ H)). destruct H as [-> | ->]; reflexivity. }
    cbn [count]. rewrite Hd. destruct H as [-> | ->]; reflexivity.
Qed.

Lemma count_print_symbol_none c sym :
  c = "("%char \/ c = ")"%char -> count c (print_symbol None sym) = 0.
Proof.
  intro H. unfold print_symbol. rewrite !count_app, (count_to_string sym H).
  destruct H as [-> | ->]; reflexivity.
Qed.

Lemma count_print_vector_balanced (v : list string) :
  Forall (fun x => count "(" x = count ")" x) v ->
  count "(" (print_vector v ", ") = count ")" (print_vector v ", ").
Proof.
  induction 1 as [|x v Hx Hv IH]; [reflexivity|].
  destruct v as [|y v]; [exact Hx|].
  change (print_vector (x :: y :: v) ", ")
    with (x ++ ", " ++ print_vector (y :: v) ", ").
  rewrite !count_app, Hx, IH. reflexivity.
Qed.

Lemma print_expr_balanced e :
  count "(" (print_expr None e) = count ")" (print_expr None e).
Proof.
  assert (Hl : "("%char = "("%char \/ "("%char = ")"%char) by (left; reflexivity).
  assert (Hr : ")"%char = "("%char \/ ")"%char = ")"%char) by (right; reflexivity).
  induction e as [ | s | s | c | s v b IHv IHb | op a b IHa IHb | x IHx
                 | c t f IHc IHt IHf | fn args IHargs ] using expr_ind';
    cbn [print_expr].
  - reflexivity.
  - rewrite !count_print_symbol_none by assumption. reflexivity.
  - rewrite !count_print_symbol_none by assumption. reflexivity.
  - rewrite !count_print_index by assumption. reflexivity.
  - rewrite !count_app, !count_print_symbol_none by assumption.
    rewrite IHv, IHb. reflexivity.
  - destruct op; rewrite !count_app, IHa, IHb; cbn; lia.
  - rewrite !count_app, IHx. reflexivity.
  - rewrite !count_app, IHc, IHt, IHf. cbn. lia.
  - rewrite !count_app.
    rewrite (@count_print_vector_balanced (map (print_expr None) args)).
    + destruct fn; cbn; lia.
    + apply Forall_map. exact IHargs.
Qed.

(** X21: the printer never leaves a parenthesis open: in the text of any
    expression, printed without a context, and of any interval or dim of
    such expressions, there are as many ["("] as [")"], also when
    operands are undefined. *)
Theorem print_balances_parentheses (e : expr) (d : dim_expr) :
  count "(" (print e None) = count ")" (print e None)
  /\ count "(" (print_dim None d) = count ")" (print_dim None d).
Proof.
  split; [apply print_expr_balanced|].
  unfold print_dim, print_interval. rewrite !count_app.
  rewrite (print_expr_balanced (imin (bounds d))),
    (print_expr_balanced (imax (bounds d))),
    (print_expr_balanced (stride d)), (print_expr_balanced (fold_factor d)).
  reflexivity.
Qed.

End PrinterFacts.

(* ===================================================================== *)
(** * More facts about expr.h                                             *)
(* ===================================================================== *)

Module ExprHMore.
Import ExprH ExprHFacts.

Lemma as_some_is_node T n r : as_ T n = Some r -> r = n.
Proof.
  unfold as_. destruct (node_type.eqb (type n) (static_type T)); congruence.
Qed.

(** X22: for [let] and for each of the sixteen binary operator classes
    the down-cast [as<T>()] is exact: it returns the node itself when the
    node was built by [T::make], and null for a node of any other class,
    [variable] and [constant] nodes included. *)
Theorem as_is_exact_for_let_and_operators T n :
  T <> class_variable -> T <> class_constant ->
  (class_of n = T -> as_ T n = Some n)
  /\ (class_of n <> T -> as_ T n = None).
Proof.
  intros Hv Hc. pose proof (as_exact_outside_leaves n Hv Hc) as H. split.
  - intro Hn. apply H in Hn. destruct (as_ T n) as [r|] eqn:E; [|congruence].
    apply as_some_is_node in E. congruence.
  - intro Hn. destruct (as_ T n) as [r|] eqn:E; [|reflexivity].
    exfalso. apply Hn. apply H. congruence.
Qed.

Lemma as_is_exact_for_let_and_operators_witness :
  (class_of (binary add (variable 0) (constant 1%Z)) = class_binary add ->
   as_ (class_binary add) (binary add (variable 0) (constant 1%Z))
   = Some (binary add (variable 0) (constant 1%Z)))
  /\ (class_of (binary add (variable 0) (constant 1%Z)) <> class_binary add ->
      as_ (class_binary add) (binary add (variable 0) (constant 1%Z)) = None).
Proof.
  apply (@as_is_exact_for_let_and_operators (class_binary add)
           (binary add (variable 0) (constant 1%Z))); discriminate.
Defined.

End ExprHMore.

(* ===================================================================== *)
(** * What slide-and-fold leaves untouched                                *)
(* ===================================================================== *)

Module SlideInvariants.
Import IR SymbolMap SymbolMapFacts Crop Substitutions NodeContext SlideAndFold
       SlideAndFoldFacts Shapes.
Local Open Scope result_scope.

Lemma slid_from_refl outputs st : slid_from outputs st st.
Proof. unfold slid_from. auto. Qed.

Lemma slid_from_trans outputs st1 st2 st3 :
  slid_from outputs st1 st2 -> slid_from outputs st2 st3 ->
  slid_from outputs st1 st3.
Proof.
  intros (A1 & B1 & C1 & D1) (A2 & B2 & C2 & D2). unfold slid_from.
  split; [congruence|]. split; [congruence|]. split.
  - intro b. rewrite C2. apply C1.
  - intros b Hb. destruct (D1 b Hb), (D2 b Hb). split; congruence.
Qed.

Lemma slid_from_incl o outputs st st' :
  In o outputs -> slid_from [o] st st' -> slid_from outputs st st'.
Proof.
  intros Hin (A & B & C & D). unfold slid_from. repeat split; auto;
    apply D; intros [<-|[]]; contradiction.
Qed.

Lemma map_imax_set_min bnds d e :
  map imax (list_update bnds d (Crop.set_min e)) = map imax bnds.
Proof. apply map_list_update. intro a. reflexivity. Qed.

Lemma slid_from_record_fold o st d ff :
  slid_from [o] st (record_fold st o d ff).
Proof.
  unfold slid_from, record_fold. simpl. repeat split; auto.
  apply lookup_assign_ne. intro E. apply H. left. exact E.
Qed.

Lemma slid_from_set_bounds_min o st bnds d e :
  lookup (buffer_bounds st) o = Some bnds ->
  slid_from [o] st (set_bounds_min st o bnds d e).
Proof.
  intro Hb. unfold slid_from, set_bounds_min. simpl. repeat split; auto.
  - intro b. destruct (Nat.eq_dec o b) as [<-|Hne].
    + rewrite lookup_assign_eq, Hb. simpl. rewrite map_imax_set_min. reflexivity.
    + rewrite lookup_assign_ne by exact Hne. reflexivity.
  - apply lookup_assign_ne. intro E. apply H. left. exact E.
Qed.

Lemma slid_from_set_loop_min o st op e :
  slid_from [o] st (with_loops st (list_update (loops st) op (set_loop_min e))).
Proof.
  unfold slid_from. simpl. repeat split; auto.
  apply map_list_update. intro a. apply shape_set_loop_min.
Qed.

Section WithOracles.
Variable prove_true : expr -> bool.
Variable simplify : expr -> expr.
Variable bounds_of : expr -> interval_expr.
Variable where_true : expr -> symbol_id -> interval_expr.
Variable align_up : expr -> expr -> expr.
Variable x : symbol_id.

Local Abbreviation slide_dim_ := (slide_dim prove_true simplify bounds_of where_true align_up x).
Local Abbreviation slide_dims_ := (slide_dims prove_true simplify bounds_of where_true align_up x).
Local Abbreviation slide_loops_ := (slide_loops prove_true simplify bounds_of where_true align_up x).
Local Abbreviation visit_ := (visit_call_or_copy prove_true simplify bounds_of where_true align_up x).
Local Abbreviation mutate_ := (mutate prove_true simplify bounds_of where_true align_up x).

Lemma slide_dim_slid o op l bnds d cur st :
  lookup (buffer_bounds st) o = Some bnds ->
  slid_from [o] st (fst (slide_dim_ o op l bnds d cur st)).
Proof.
  intro Hb. unfold slide_dim.
  repeat match goal with
         | |- context [if ?c then _ else _] => destruct c
         end; cbn [fst];
    try apply slid_from_refl;
    try apply slid_from_record_fold;
    (eapply slid_from_trans; [|apply slid_from_set_bounds_min; exact Hb]);
    try apply slid_from_refl;
    try apply slid_from_record_fold;
    (eapply slid_from_trans; [|apply slid_from_set_loop_min]);
    try apply slid_from_refl;
    try apply slid_from_record_fold.
Qed.

Lemma slide_dims_slid o op count : forall d st,
  slid_from [o] st (slide_dims_ o op d count st).
Proof.
  induction count as [|c IH]; intros d st; simpl; [apply slid_from_refl|].
  destruct (lookup (buffer_bounds st) o) as [bnds|] eqn:Hb; [|apply slid_from_refl].
  destruct (nth_error (loops st) op) as [l|]; [|apply slid_from_refl].
  destruct (nth_error bnds d) as [cur|]; [|apply slid_from_refl].
  pose proof (@slide_dim_slid o op l bnds d cur st Hb) as H.
  destruct (slide_dim_ o op l bnds d cur st) as [st' fl]. simpl in H.
  destruct fl; [|exact H].
  eapply slid_from_trans; [exact H|apply IH].
Qed.

Lemma slide_loops_slid o count : forall op st,
  slid_from [o] st (slide_loops_ o op count st).
Proof.
  induction count as [|c IH]; intros op st; simpl; [apply slid_from_refl|].
  eapply slid_from_trans; [apply slide_dims_slid|apply IH].
Qed.

Lemma visit_call_or_copy_slid_from all outputs : forall st,
  incl outputs all -> slid_from all st (visit_ outputs st).
Proof.
  unfold visit_call_or_copy.
  induction outputs as [|o rest IH]; intros st Hincl; simpl; [apply slid_from_refl|].
  eapply slid_from_trans; [|apply IH; intros a Ha; apply Hincl; right; exact Ha].
  destruct (lookup (buffer_bounds st) o); [|apply slid_from_refl].
  apply (@slid_from_incl o); [apply Hincl; left; reflexivity|].
  apply slide_loops_slid.
Qed.

(** X23: the visit of a call or copy by slide-and-fold only moves mins
    and records fold factors.  It returns the statement as it is; in the
    state, the stack holds the same loops (symbol, original min, max and
    step), the context is the same, every region has the same rank and the
    same max in every dimension, and the regions and fold factors of
    buffers the statement does not produce are untouched. *)
Theorem call_visit_only_moves_mins target inputs outputs fuel st :
  exists st',
    mutate_ fuel (call_stmt target inputs outputs) st
    = ok (call_stmt target inputs outputs, st')
    /\ slid_from outputs st st'.
Proof.
  eexists. split; [reflexivity|].
  apply visit_call_or_copy_slid_from. apply incl_refl.
Qed.

Lemma mutate_consistent fuel s : forall st r st',
  NodeContextOps.consistent (ctx st) ->
  mutate_ fuel s st = ok (r, st') ->
  NodeContextOps.consistent (ctx st').
Proof.
  induction s; intros st r st' Hc H; cbn [mutate] in H; try discriminate;
    try (injection H as <- <-; exact Hc).
  - (* block *)
    bind_inv2 H b' st1 Hb. bind_inv2 H a' st2 Ha. injection H as <- <-. eauto.
  - bind_inv2 H b' st1 Hb. injection H as <- <-. eauto.
  - (* loop *)
    destruct mode.
    + pose proof (@NodeContextFacts.insert_consistent (ctx st)
                    (name (ctx st) sym ++ ".min_orig")%string Hc) as Hc1.
      destruct (insert (ctx st) (name (ctx st) sym ++ ".min_orig")%string)
        as [ctx1 orig_min_sym].
      bind_inv2 H b' st1 Hb. apply IHs in Hb; [|exact Hc1].
      match type of H with
      | (if ?c then _ else _) = _ => destruct c
      end; injection H as <- <-; exact Hb.
    + bind_inv2 H b' st1 Hb. injection H as <- <-. eauto.
  - bind_inv2 H t' st1 Ht. bind_inv2 H e' st2 He. injection H as <- <-. eauto.
  - (* call_stmt *)
    injection H as <- <-.
    destruct (@visit_call_or_copy_slid_from outputs outputs st (incl_refl _))
      as (_ & -> & _). exact Hc.
  - (* copy_stmt *)
    injection H as <- <-.
    pose proof (@visit_call_or_copy_slid_from [dst] [dst] st (incl_refl _))
      as (_ & E & _).
    unfold visit_call_or_copy in *. cbn [fold_left] in *. rewrite E. exact Hc.
  - (* allocate *)
    bind_inv2 H b' st1 Hb. bind_inv H dims' Hd. injection H as <- <-.
    apply IHs in Hb; assumption.
  - bind_inv2 H b' st1 Hb. injection H as <- <-. eauto.
  - (* crop_buffer *)
    bind_inv2 H b' st1 Hb. injection H as <- <-. apply IHs in Hb; assumption.
  - (* crop_dim *)
    destruct (merge_crop_dim (lookup (buffer_bounds st) sym) dim dbounds); [|discriminate].
    bind_inv2 H b' st1 Hb.
    destruct (lookup (buffer_bounds st1) sym) as [nb|]; [|discriminate].
    destruct (nth_error nb dim); [|discriminate].
    injection H as <- <-. apply IHs in Hb; assumption.
Qed.

(** X24: slide-and-fold leaves its surroundings as it found them.  When
    the visit of any statement returns, the stack of candidate loops holds
    the loops it held before, with the same symbol, original min, max and
    step (a serial loop pops what it pushed), and a node context that was
    a bijection between names and ids still is one, with the [.min_orig]
    names of the serial loops added. *)
Theorem slide_and_fold_keeps_stack_and_context fuel s st r st' :
  NodeContextOps.consistent (ctx st) ->
  mutate_ fuel s st = ok (r, st') ->
  map shape (loops st') = map shape (loops st)
  /\ List.length (loops st') = List.length (loops st)
  /\ NodeContextOps.consistent (ctx st').
Proof.
  intros Hc H. pose proof (@mutate_shape prove_true simplify bounds_of where_true align_up x
                fuel s st r st' H) as Hs.
  split; [exact Hs|]. split.
  - rewrite <- (length_map shape (loops st')), Hs. apply length_map.
  - exact (@mutate_consistent fuel s st r st' Hc H).
Qed.

End WithOracles.

Lemma pipeline_context_consistent :
  NodeContextOps.consistent SlidePipelines.pipeline_context.
Proof.
  change SlidePipelines.pipeline_context
    with (fold_left (fun c n => fst (insert c n)) ["in"; "out"; "x"; "p"]%string
            NodeContextOps.empty).
  cbn [fold_left].
  repeat apply NodeContextFacts.insert_consistent.
  apply NodeContextFacts.consistent_empty.
Qed.

Lemma slide_and_fold_keeps_stack_and_context_witness :
  exists r st',
    mutate SampleSimplifier.prove_true SampleSimplifier.simplify
      SampleSimplifier.bounds_of SampleSimplifier.where_true
      SampleSimplifier.align_up 9 3
      (SlidePipelines.stencil_pipeline serial) SlidePipelines.stencil_initial
    = ok (r, st')
    /\ map shape (loops st') = map shape (loops SlidePipelines.stencil_initial)
    /\ List.length (loops st') = List.length (loops SlidePipelines.stencil_initial)
    /\ NodeContextOps.consistent (ctx st').
Proof.
  eexists. eexists. split; [reflexivity|].
  refine (@slide_and_fold_keeps_stack_and_context
            SampleSimplifier.prove_true SampleSimplifier.simplify
            SampleSimplifier.bounds_of SampleSimplifier.where_true
            SampleSimplifier.align_up 9 3
            (SlidePipelines.stencil_pipeline serial) SlidePipelines.stencil_initial
            _ _ pipeline_context_consistent _).
  reflexivity.
Defined.

End SlideInvariants.

(* ===================================================================== *)
(** * The bounds passes and the work of a statement                       *)
(* ===================================================================== *)

Module OperationsFacts.
Import IR IRFacts SymbolMap Crop Substitutions Shapes.
Local Open Scope result_scope.

Lemma operations_wrap_crops l : forall r,
  operations (BoundsInferrer.wrap_crops l r) = operations r.
Proof.
  unfold BoundsInferrer.wrap_crops.
  induction l as [|p l IH]; intro r; simpl; [reflexivity|].
  rewrite IH. reflexivity.
Qed.

Lemma operations_checks (cs : list stmt) :
  Forall (fun s => exists c, s = check c) cs ->
  operations (block_make cs) = cs.
Proof.
  intro H. rewrite ScopeReducerGlobal.operations_block_make.
  induction H as [|s l [c ->] _ IH]; simpl; [reflexivity|].
  rewrite IH. reflexivity.
Qed.

Section Inferrer.
Variable simplify_min : expr -> expr -> expr.
Variable simplify_max : expr -> expr -> expr.

Lemma inferrer_operations fuel s : forall st r st',
  BoundsInferrer.mutate simplify_min simplify_max fuel s st = ok (r, st') ->
  operations r = operations s.
Proof.
  induction s; intros st r st' H; cbn [BoundsInferrer.mutate] in H;
    try discriminate;
    try (injection H as <- <-; reflexivity).
  - (* block *)
    bind_inv2 H a' st1 Ha. bind_inv2 H b' st2 Hb. injection H as <- <-.
    simpl. rewrite (IHs1 _ _ _ Ha), (IHs2 _ _ _ Hb). reflexivity.
  - bind_inv2 H b' st1 Hb. injection H as <- <-. simpl. eauto.
  - (* loop *)
    bind_inv2 H b' st1 Hb.
    rewrite BoundsInferrerFacts.leave_loop_spec in H.
    injection H as <- <-. rewrite operations_wrap_crops. simpl. eauto.
  - bind_inv2 H t' st1 Ht. bind_inv2 H e' st2 He. injection H as <- <-.
    simpl. rewrite (IHs1 _ _ _ Ht), (IHs2 _ _ _ He). reflexivity.
  - (* allocate *)
    bind_inv2 H b' st1 Hb.
    destruct (lookup (BoundsInferrer.infer st1) sym) as [bnds|]; [|discriminate].
    bind_inv H dims' Hd. cbv zeta in H. injection H as <- <-.
    simpl. eauto.
  - bind_inv2 H b' st1 Hb. injection H as <- <-. simpl. eauto.
  - bind_inv2 H b' st1 Hb. injection H as <- <-. simpl. eauto.
  - bind_inv2 H b' st1 Hb. injection H as <- <-. simpl. eauto.
Qed.

(** X26: bounds inference adds crops and checks and rewrites dims, but it
    never touches the work.  The calls, copies and checks of the statement
    [bounds_inferrer] returns are those of the statement it was given, in
    order, and [infer_bounds] puts nothing but its checks of the inputs in
    front of them. *)
Theorem infer_bounds_keeps_operations fuel s inputs r :
  BoundsInferrer.infer_bounds simplify_min simplify_max fuel s inputs = ok r ->
  exists body st checks,
    BoundsInferrer.mutate simplify_min simplify_max fuel s
      (BoundsInferrer.initial inputs) = ok (body, st)
    /\ operations body = operations s
    /\ BoundsInferrer.input_checks (BoundsInferrer.infer st) inputs = ok checks
    /\ Forall (fun c => exists e, c = check e) checks
    /\ operations r = (checks ++ operations s)%list.
Proof.
  unfold BoundsInferrer.infer_bounds. intro H.
  bind_inv2 H body st Hm. bind_inv H checks Hc. injection H as <-.
  exists body, st, checks.
  pose proof (inferrer_operations _ _ _ Hm) as Hops.
  pose proof (BoundsInferrerFacts.input_checks_are_checks _ _ Hc) as Hchecks.
  split; [exact Hm|]. split; [exact Hops|]. split; [exact Hc|].
  split; [exact Hchecks|].
  change (operations (block_make checks) ++ operations body
          = checks ++ operations s)%list.
  rewrite (operations_checks Hchecks), Hops. reflexivity.
Qed.

End Inferrer.

Section Slider.
Variable prove_true : expr -> bool.
Variable simplify : expr -> expr.
Variable bounds_of : expr -> interval_expr.
Variable where_true : expr -> symbol_id -> interval_expr.
Variable align_up : expr -> expr -> expr.
Variable x : symbol_id.

(** X27: slide-and-fold rewrites loop mins, crops and fold factors, and
    may wrap a serial loop in the [let] of its original min, but the
    calls, copies and checks of its result are those of the statement it
    was given, in order, although it visits the operands of a block from
    the last to the first. *)
Theorem slide_and_fold_keeps_operations fuel s : forall st r st',
  SlideAndFold.mutate prove_true simplify bounds_of where_true align_up x fuel s st
  = ok (r, st') ->
  operations r = operations s.
Proof.
  induction s; intros st r st' H; cbn [SlideAndFold.mutate] in H;
    try discriminate;
    try (injection H as <- <-; reflexivity).
  - (* block *)
    bind_inv2 H b' st1 Hb. bind_inv2 H a' st2 Ha. injection H as <- <-.
    simpl. rewrite (IHs1 _ _ _ Ha), (IHs2 _ _ _ Hb). reflexivity.
  - bind_inv2 H b' st1 Hb. injection H as <- <-. simpl. eauto.
  - (* loop *)
    destruct mode.
    + destruct (NodeContext.insert _ _) as [ctx1 orig_min_sym].
      bind_inv2 H b' st1 Hb. apply IHs in Hb.
      match type of H with
      | (if ?c then _ else _) = _ => destruct c
      end; injection H as <- <-; exact Hb.
    + bind_inv2 H b' st1 Hb. injection H as <- <-. simpl. eauto.
  - bind_inv2 H t' st1 Ht. bind_inv2 H e' st2 He. injection H as <- <-.
    simpl. rewrite (IHs1 _ _ _ Ht), (IHs2 _ _ _ He). reflexivity.
  - (* allocate *)
    bind_inv2 H b' st1 Hb. bind_inv H dims' Hd. injection H as <- <-.
    simpl. eauto.
  - bind_inv2 H b' st1 Hb. injection H as <- <-. simpl. eauto.
  - (* crop_buffer *)
    bind_inv2 H b' st1 Hb. injection H as <- <-.
    destruct (lookup (SlideAndFold.buffer_bounds st1) sym); simpl; eauto.
  - (* crop_dim *)
    destruct (merge_crop_dim _ _ _); [|discriminate].
    bind_inv2 H b' st1 Hb.
    destruct (lookup (SlideAndFold.buffer_bounds st1) sym) as [nb|]; [|discriminate].
    destruct (nth_error nb dim); [|discriminate].
    injection H as <- <-. simpl. eauto.
Qed.

End Slider.

Lemma infer_bounds_keeps_operations_witness :
  exists r body st checks,
    BoundsInferrer.infer_bounds slinky_min slinky_max 1 Pipelines.point_loop [0] = ok r
    /\ BoundsInferrer.mutate slinky_min slinky_max 1 Pipelines.point_loop
         (BoundsInferrer.initial [0]) = ok (body, st)
    /\ operations body = operations Pipelines.point_loop
    /\ BoundsInferrer.input_checks (BoundsInferrer.infer st) [0] = ok checks
    /\ Forall (fun c => exists e, c = check e) checks
    /\ operations r = (checks ++ operations Pipelines.point_loop)%list.
Proof.
  eexists.
  assert (H : BoundsInferrer.infer_bounds slinky_min slinky_max 1
                Pipelines.point_loop [0] = ok _) by reflexivity.
  destruct (@infer_bounds_keeps_operations slinky_min slinky_max 1
              Pipelines.point_loop [0] _ H) as (body & st & checks & Hrest).
  exists body, st, checks. split; [exact H|exact Hrest].
Defined.

Lemma slide_and_fold_keeps_operations_witness :
  exists r st',
    SlideAndFold.mutate SampleSimplifier.prove_true SampleSimplifier.simplify
      SampleSimplifier.bounds_of SampleSimplifier.where_true
      SampleSimplifier.align_up 9 3
      (SlidePipelines.stencil_pipeline serial) SlidePipelines.stencil_initial
    = ok (r, st')
    /\ operations r = operations (SlidePipelines.stencil_pipeline serial).
Proof.
  eexists. eexists. split; [reflexivity|].
  refine (@slide_and_fold_keeps_operations
            SampleSimplifier.prove_true SampleSimplifier.simplify
            SampleSimplifier.bounds_of SampleSimplifier.where_true
            SampleSimplifier.align_up 9 3
            (SlidePipelines.stencil_pipeline serial) SlidePipelines.stencil_initial
            _ _ _).
  reflexivity.
Defined.

End OperationsFacts.

(* ===================================================================== *)
(** * The scoped maps of the aliaser                                      *)
(* ===================================================================== *)

Module AliaserScopes.
Import IR SymbolMap SymbolMapFacts Crop Aliaser.
Local Open Scope result_scope.

Lemma contains_assign_engaged (T : Type) (m : symbol_map T) i (v w : T) b :
  lookup m i = Some v ->
  contains (assign m i (Some w)) b = contains m b.
Proof.
  intro Hi. unfold contains. destruct (Nat.eq_dec i b) as [<-|Hne].
  - rewrite lookup_assign_eq, Hi. reflexivity.
  - rewrite lookup_assign_ne by exact Hne. reflexivity.
Qed.

Lemma contains_update_all (T : Type) (f : T -> T) (m : symbol_map T) b :
  contains (update_all f m) b = contains m b.
Proof.
  unfold contains. rewrite lookup_update_all.
  destruct (lookup m b); reflexivity.
Qed.

Lemma visit_inputs_scopes o inputs : forall st fl st',
  visit_inputs o inputs st = ok (fl, st') ->
  buffer_bounds st' = buffer_bounds st
  /\ aliases st' = aliases st
  /\ forall b, contains (alias_info st') b = contains (alias_info st) b.
Proof.
  induction inputs as [|i rest IH]; simpl; intros st fl st' H.
  - injection H as <- <-. auto.
  - destruct (lookup (alias_info st) i) as [inf|] eqn:Ei;
      [|destruct (lookup (buffer_bounds st) i); discriminate].
    destruct (lookup (buffer_bounds st) i) as [bx|].
    + destruct (negb (is_elementwise bx o)).
      * injection H as <- <-. simpl. repeat split.
        intro b. eapply contains_assign_engaged. exact Ei.
      * apply IH in H. simpl in H. destruct H as (Hb & Ha & Hc).
        repeat split; try assumption.
        intro b. rewrite Hc. eapply contains_assign_engaged. exact Ei.
    + injection H as <- <-. simpl. repeat split.
      intro b. eapply contains_assign_engaged. exact Ei.
Qed.

Lemma visit_call_stmt_scopes inputs outputs : forall st st',
  visit_call_stmt inputs outputs st = ok st' ->
  buffer_bounds st' = buffer_bounds st
  /\ aliases st' = aliases st
  /\ forall b, contains (alias_info st') b = contains (alias_info st) b.
Proof.
  induction outputs as [|o rest IH]; simpl; intros st st' H.
  - injection H as <-. auto.
  - bind_inv2 H fl st1 Hrun. apply visit_inputs_scopes in Hrun.
    destruct Hrun as (Hb & Ha & Hc). destruct fl.
    + apply IH in H. destruct H as (Hb' & Ha' & Hc').
      split; [congruence|]. split; [congruence|].
      intro b. rewrite Hc'. apply Hc.
    + injection H as <-. auto.
Qed.

(** X28: the maps of [buffer_aliaser] are scoped.  When the visit of any
    statement returns, the bounds recorded for every buffer are what they
    were when the visit began, and [alias_info] has an entry for exactly
    the buffers it had one for: the buffers whose [allocate] is being
    visited.  The visit of a call reads the entry of each input, so a call
    can only be visited inside the allocations of all its inputs. *)
Theorem aliaser_maps_are_scoped s : forall st r st',
  mutate s st = ok (r, st') ->
  (forall b, lookup (buffer_bounds st') b = lookup (buffer_bounds st) b)
  /\ (forall b, contains (alias_info st') b = contains (alias_info st) b).
Proof.
  induction s; intros st r st' H; cbn [mutate] in H; try discriminate;
    try (injection H as <- <-; split; reflexivity).
  - (* block *)
    bind_inv2 H a' st1 Ha. bind_inv2 H b' st2 Hb. injection H as <- <-.
    destruct (IHs1 _ _ _ Ha) as [B1 C1]. destruct (IHs2 _ _ _ Hb) as [B2 C2].
    split; intro b; [rewrite B2; apply B1|rewrite C2; apply C1].
  - bind_inv2 H b' st1 Hb. injection H as <- <-. eauto.
  - bind_inv2 H b' st1 Hb. injection H as <- <-. eauto.
  - (* if_then_else *)
    bind_inv2 H a' st1 Ha. bind_inv2 H b' st2 Hb. injection H as <- <-.
    destruct (IHs1 _ _ _ Ha) as [B1 C1]. destruct (IHs2 _ _ _ Hb) as [B2 C2].
    split; intro b; [rewrite B2; apply B1|rewrite C2; apply C1].
  - (* call_stmt *)
    bind_inv H st1 Hc. injection H as <- <-.
    apply visit_call_stmt_scopes in Hc. destruct Hc as (Hb & _ & Hc).
    split; [intro b; rewrite Hb; reflexivity|exact Hc].
  - (* allocate *)
    bind_inv2 H b' st1 Hb. destruct (IHs _ _ _ Hb) as [B1 C1].
    destruct (lookup (alias_info st1) sym) as [info|] eqn:Ei; [|discriminate].
    assert (Hleave : forall st2,
              buffer_bounds st2 = buffer_bounds st1 ->
              (forall b, contains (alias_info st2) b = contains (alias_info st1) b) ->
              (forall b, lookup (buffer_bounds (leave_allocate st st2 sym)) b
                         = lookup (buffer_bounds st) b)
              /\ (forall b, contains (alias_info (leave_allocate st st2 sym)) b
                            = contains (alias_info st) b)).
    { intros st2 HB HC. split; intro b; simpl.
      - destruct (Nat.eq_dec sym b) as [<-|Hne].
        + rewrite lookup_assign_eq. reflexivity.
        + rewrite lookup_assign_ne by exact Hne. rewrite HB, B1. simpl.
          apply lookup_assign_ne. exact Hne.
      - unfold contains. destruct (Nat.eq_dec sym b) as [<-|Hne].
        + rewrite lookup_assign_eq. reflexivity.
        + rewrite lookup_assign_ne by exact Hne.
          pose proof (HC b) as E. unfold contains in E. rewrite E.
          pose proof (C1 b) as E1. unfold contains in E1. rewrite E1. simpl.
          rewrite lookup_assign_ne by exact Hne. reflexivity. }
    destruct (elementwise info && negb (IdSet.empty (alias_candidates info)));
      [destruct (IdSet.begin_ (alias_candidates info)) as [target|]|];
      injection H as <- <-; apply Hleave; try reflexivity.
    intro b. simpl. apply contains_update_all.
  - bind_inv2 H b' st1 Hb. injection H as <- <-. eauto.
  - (* crop_buffer *)
    bind_inv2 H b' st1 Hb. injection H as <- <-. destruct (IHs _ _ _ Hb) as [B1 C1].
    split; [|exact C1]. intro b. simpl.
    destruct (Nat.eq_dec sym b) as [<-|Hne].
    + rewrite lookup_assign_eq. reflexivity.
    + rewrite lookup_assign_ne by exact Hne. rewrite B1. simpl.
      apply lookup_assign_ne. exact Hne.
  - (* crop_dim *)
    bind_inv2 H b' st1 Hb. injection H as <- <-. destruct (IHs _ _ _ Hb) as [B1 C1].
    split; [|exact C1]. intro b. simpl.
    destruct (Nat.eq_dec sym b) as [<-|Hne].
    + rewrite lookup_assign_eq. reflexivity.
    + rewrite lookup_assign_ne by exact Hne. rewrite B1. simpl.
      apply lookup_assign_ne. exact Hne.
Qed.

Lemma aliaser_maps_are_scoped_witness :
  exists r st',
    mutate Pipelines.aliasable_allocate initial = ok (r, st')
    /\ (forall b, lookup (buffer_bounds st') b = lookup (buffer_bounds initial) b)
    /\ (forall b, contains (alias_info st') b = contains (alias_info initial) b).
Proof.
  eexists. eexists. split; [reflexivity|].
  refine (@aliaser_maps_are_scoped Pipelines.aliasable_allocate initial _ _ _).
  reflexivity.
Defined.

End AliaserScopes.
